(** * git-cinnabar helper: the fast-import ingestion core

    A shallow embedding of [helper/cinnabar-fast-import.c] and the
    properties of its pack window, heads sets, notes-driven [set] command,
    file store and manifest store.

    Conventions of the embedding:
    - a 20-byte object id ([struct object_id], [struct hg_object_id]) is the
      160-bit number its bytes spell in big-endian order, so that [oidcmp]
      (a [memcmp] over the 20 bytes) is the comparison of these numbers and
      the null oid is [0];
    - a [strbuf] is the list of its bytes;
    - [die(...)] is an error result carrying the kind of the message;
    - the process-wide singletons (notes trees, heads arrays, object table,
      function-local statics) are the fields of an explicit state record. *)

From Stdlib Require Import ZArith NArith Lia List Ascii String Bool Sorted.
From stdpp Require Import base option list gmap strings sorting.

Local Open Scope Z_scope.

(** ** Machine arithmetic *)

(** Values of type [size_t] (64-bit unsigned). *)
Definition size_t_wrap (z : Z) : Z := z mod 2 ^ 64.

(** Values of type [off_t] (64-bit signed, two's complement). *)
Definition off_t_wrap (z : Z) : Z := (z + 2 ^ 63) mod 2 ^ 64 - 2 ^ 63.

Lemma size_t_wrap_small z : 0 <= z < 2 ^ 64 -> size_t_wrap z = z.
Proof. intros H. unfold size_t_wrap. now apply Z.mod_small. Qed.

Lemma off_t_wrap_small z : - 2 ^ 63 <= z < 2 ^ 63 -> off_t_wrap z = z.
Proof.
  intros H. unfold off_t_wrap. rewrite Z.mod_small; lia.
Qed.

(** ** PackWindow: the diverted [hashwrite] *)

Module PackWindow.

(** The two fields of [struct pack_window] that [hashwrite] computes with.
    The buffer [base] only receives copies of the written bytes. *)
Record pack_window := { offset : Z; len : Z }.

(** [pack_data]: whether [pack_data->windows] is set, and
    [pack_data->pack_size]. *)
Record packed_git := { windows : bool; pack_size : Z }.

(** [pack_win] and [pack_data] are null until first set. *)
Record state := {
  pack_win : option pack_window;
  pack_data : option packed_git
}.

Definition initial : state := {| pack_win := None; pack_data := None |}.

(** Result of one intercepted write. *)
Inductive outcome :=
| Written (slid : bool) (st : state)
| AssertFailed
| NullDeref.

(** [hashwrite(f, buf, count)] for [f == pack_file];
    [W] is [packed_git_window_size]. *)
Definition hashwrite (W : Z) (st : state) (count : Z) : outcome :=
  (* if (!pack_win) { offset = 0; len = 20; ... } *)
  let pw := match pack_win st with
            | None => {| offset := 0; len := 20 |}
            | Some w => w
            end in
  (* if (pack_data && !pack_data->windows) { ... pack_size = pack_win->len } *)
  let pd := match pack_data st with
            | Some d => if windows d then Some d
                        else Some {| windows := true; pack_size := len pw |}
            | None => None
            end in
  (* if (pack_data) pack_data->pack_size += count; *)
  let pd := match pd with
            | Some d => Some {| windows := windows d;
                                pack_size := off_t_wrap (pack_size d + count) |}
            | None => None
            end in
  (* window_size = packed_git_window_size + (pack_win->offset ? 20 : 0); *)
  let window_size :=
    size_t_wrap (W + (if offset pw =? 0 then 0 else 20)) in
  if count <? size_t_wrap (window_size + 20 - len pw) then
    Written false
      {| pack_win := Some {| offset := offset pw;
                             len := size_t_wrap (len pw + count) |};
         pack_data := pd |}
  else
    match pd with
    | None => NullDeref
    | Some d =>
      let offset' :=
        off_t_wrap
          (size_t_wrap
             (size_t_wrap (size_t_wrap (pack_size d - 20) / W * W) - 20)) in
      (* assert(offset != pack_win->offset); *)
      if offset pw =? offset' then AssertFailed
      else
        Written true
          {| pack_win :=
               Some {| offset := offset';
                       len := size_t_wrap (off_t_wrap (pack_size d - offset')) |};
             pack_data := pd |}
    end.

(** The window geometry that holds between writes once [pack_data] is
    installed: the window either still starts at 0, or starts 20 bytes
    before a positive multiple of [W]. *)
Definition between_writes (W : Z) (st : state) : Prop :=
  exists w d,
    pack_win st = Some w /\ pack_data st = Some d /\ windows d = true /\
    offset w + len w = pack_size d /\
    ((offset w = 0 /\ 20 <= len w < W + 20) \/
     (exists k, 1 <= k /\ offset w = k * W - 20 /\ 40 <= len w < W + 40)).

(** [m] is the largest multiple of [W] that is less than [x]. *)
Definition largest_multiple_below (W x m : Z) : Prop :=
  (exists k, m = k * W) /\ m < x /\
  forall k', k' * W < x -> k' * W <= m.

(** [m] is the largest multiple of [W] that does not exceed [x]. *)
Definition largest_multiple_upto (W x m : Z) : Prop :=
  (exists k, m = k * W) /\ m <= x /\
  forall k', k' * W <= x -> k' * W <= m.

(** [pack_data = p] in [real_start_packfile]: the freshly allocated pack has
    no window and a zero [pack_size]. *)
Definition install_pack_data (st : state) : state :=
  {| pack_win := pack_win st;
     pack_data := Some {| windows := false; pack_size := 0 |} |}.

(** Capacity test of [hashwrite]: the write of [count] bytes does not fit. *)
Definition exceeds_capacity (W : Z) (w : pack_window) (count : Z) : Prop :=
  W + (if offset w =? 0 then 0 else 20) + 20 <= len w + count.

Lemma floor_multiple_upto W x :
  0 < W -> largest_multiple_upto W x (x / W * W).
Proof.
  intros HW. split; [now exists (x / W)|]. split.
  - pose proof (Z.mul_div_le x W HW). lia.
  - intros k' Hk'.
    assert (k' <= x / W) by (apply Z.div_le_lower_bound; lia).
    nia.
Qed.

Lemma slide_offset_bounds W ps k0 :
  20 < W -> (k0 + 1) * W + 20 <= ps -> 0 <= k0 ->
  let k := (ps - 20) / W in
  k0 + 1 <= k /\ k * W <= ps - 20 < k * W + W.
Proof.
  intros HW Hps Hk0 k. subst k.
  pose proof (Z.mul_div_le (ps - 20) W ltac:(lia)).
  pose proof (Z.mul_succ_div_gt (ps - 20) W ltac:(lia)).
  split; [|lia].
  apply Z.div_le_lower_bound; lia.
Qed.

(** The two writes that open a pack (the 12-byte header before [pack_data]
    is set, then any write after it) establish the geometry. *)
Lemma between_writes_established W count :
  32 < W < 2 ^ 62 -> 0 <= count -> 32 + count < W + 20 ->
  exists st1 st2,
    hashwrite W initial 12 = Written false st1 /\
    hashwrite W (install_pack_data st1) count = Written false st2 /\
    between_writes W st2.
Proof.
  intros HW Hc Hfit.
  assert (H62 : 2 ^ 62 < 2 ^ 63 < 2 ^ 64) by lia.
  eexists _, _. split; [|split].
  - unfold hashwrite, initial. cbn [pack_win pack_data offset len].
    rewrite Z.eqb_refl, !Z.add_0_r.
    rewrite (size_t_wrap_small W) by lia.
    rewrite (size_t_wrap_small (W + 20 - 20)) by lia.
    destruct (Z.ltb_spec 12 (W + 20 - 20)); [reflexivity|lia].
  - unfold hashwrite, install_pack_data.
    cbn [pack_win pack_data offset len windows pack_size].
    rewrite Z.eqb_refl, !Z.add_0_r.
    rewrite (size_t_wrap_small W) by lia.
    rewrite (size_t_wrap_small (20 + 12)) by lia.
    rewrite (size_t_wrap_small (W + 20 - (20 + 12))) by lia.
    destruct (Z.ltb_spec count (W + 20 - (20 + 12))); [reflexivity|lia].
  - eexists _, _. cbn [pack_win pack_data offset len windows pack_size].
    split; [reflexivity|]. split; [reflexivity|]. split; [reflexivity|].
    rewrite (size_t_wrap_small (20 + 12 + count)) by lia.
    rewrite off_t_wrap_small by lia.
    cbn [offset len pack_size].
    split; [lia|]. left. lia.
Qed.

(** A write that fits leaves the window where it is and extends it. *)
Lemma hashwrite_fits W st w d count :
  20 < W < 2 ^ 62 -> between_writes W st ->
  pack_win st = Some w -> pack_data st = Some d ->
  0 <= count < 2 ^ 32 -> pack_size d + count < 2 ^ 62 ->
  ~ exceeds_capacity W w count ->
  hashwrite W st count =
    Written false
      {| pack_win := Some {| offset := offset w; len := len w + count |};
         pack_data := Some {| windows := true;
                              pack_size := pack_size d + count |} |}.
Proof.
  intros HW (w0 & d0 & Hw & Hd & Hwin & Hsum & Hgeo) Hw' Hd' Hc Hps Hfit.
  rewrite Hw in Hw'. rewrite Hd in Hd'. simplify_eq.
  assert (H62 : 2 ^ 62 < 2 ^ 63 < 2 ^ 64) by lia.
  unfold exceeds_capacity in Hfit.
  assert (Hcap : 0 <= W + (if offset w =? 0 then 0 else 20) + 20 - len w < 2 ^ 64).
  { destruct Hgeo as [[H0 ?]|(k & ? & Hk & ?)].
    - rewrite H0. cbn. lia.
    - destruct (Z.eqb_spec (offset w) 0); [nia|lia]. }
  unfold hashwrite.
  rewrite Hw, Hd, Hwin. cbn [windows pack_size]. rewrite ?Hwin.
  assert (Hlen : 0 <= len w < W + 40) by (destruct Hgeo as [?|(k & ? & ? & ?)]; lia).
  rewrite (size_t_wrap_small (W + _)) by (destruct (offset w =? 0); lia).
  rewrite (size_t_wrap_small (_ - len w)) by apply Hcap.
  rewrite (size_t_wrap_small (len w + count)) by lia.
  assert (Hoff : 0 <= offset w) by (destruct Hgeo as [?|(k & ? & ? & ?)]; nia).
  rewrite off_t_wrap_small by lia.
  destruct (Z.ltb_spec count (W + (if offset w =? 0 then 0 else 20) + 20 - len w));
    [reflexivity|lia].
Qed.

(** A write that does not fit slides the window to 20 bytes before the
    largest multiple of [W] not exceeding [pack_size - 20]. *)
Lemma hashwrite_slides W st w d count :
  20 < W < 2 ^ 62 -> between_writes W st ->
  pack_win st = Some w -> pack_data st = Some d ->
  0 <= count < 2 ^ 32 -> pack_size d + count < 2 ^ 62 ->
  exceeds_capacity W w count ->
  let ps := pack_size d + count in
  let off := (ps - 20) / W * W - 20 in
  hashwrite W st count =
    Written true
      {| pack_win := Some {| offset := off; len := ps - off |};
         pack_data := Some {| windows := true; pack_size := ps |} |} /\
  offset w < off /\ 1 <= (ps - 20) / W /\ 40 <= ps - off < W + 40.
Proof.
  intros HW (w0 & d0 & Hw & Hd & Hwin & Hsum & Hgeo) Hw' Hd' Hc Hps Hex ps off.
  rewrite Hw in Hw'. rewrite Hd in Hd'. simplify_eq.
  assert (H62 : 2 ^ 62 < 2 ^ 63 < 2 ^ 64) by lia.
  unfold exceeds_capacity in Hex.
  assert (Hk : exists k0, 0 <= k0 /\ (k0 + 1) * W + 20 <= ps /\
                          offset w <= k0 * W - 20 + (if offset w =? 0 then 20 else 0)).
  { destruct Hgeo as [[H0 ?]|(k & ? & Hk & ?)].
    - exists 0. rewrite H0 in *. cbn in *. subst ps. lia.
    - exists k. destruct (Z.eqb_spec (offset w) 0); subst ps; nia. }
  destruct Hk as (k0 & Hk0 & Hk0ps & Hoffk).
  destruct (slide_offset_bounds W ps k0 ltac:(lia) Hk0ps Hk0) as [Hk1 Hk2].
  fold off in Hk2 |- *.
  assert (Hoff : offset w < off).
  { subst off. destruct (Z.eqb_spec (offset w) 0); nia. }
  assert (Hoffb : 0 <= off < 2 ^ 62) by (subst off; nia).
  assert (Hlen : 0 <= len w < W + 40) by (destruct Hgeo as [?|(k & ? & ? & ?)]; lia).
  assert (Hoff0 : 0 <= offset w) by (destruct Hgeo as [?|(k & ? & ? & ?)]; nia).
  split; [|repeat split; subst off; lia].
  assert (Hcap : 0 <= W + (if offset w =? 0 then 0 else 20) + 20 - len w < 2 ^ 64).
  { destruct Hgeo as [[H0 ?]|(k & ? & Hk & ?)].
    - rewrite H0. cbn. lia.
    - destruct (Z.eqb_spec (offset w) 0); [nia|lia]. }
  unfold hashwrite. rewrite Hw, Hd, Hwin. cbn [windows pack_size]. rewrite ?Hwin.
  rewrite (size_t_wrap_small (W + _)) by (destruct (offset w =? 0); lia).
  rewrite (size_t_wrap_small (_ - len w)) by apply Hcap.
  rewrite (off_t_wrap_small (pack_size d + count)) by lia.
  fold ps.
  rewrite (size_t_wrap_small (ps - 20)) by lia.
  rewrite (size_t_wrap_small ((ps - 20) / W * W)) by nia.
  fold off.
  rewrite (size_t_wrap_small off) by lia.
  rewrite (off_t_wrap_small off) by lia.
  rewrite (off_t_wrap_small (ps - off)) by lia.
  rewrite (size_t_wrap_small (ps - off)) by lia.
  destruct (Z.ltb_spec count (W + (if offset w =? 0 then 0 else 20) + 20 - len w));
    [lia|].
  destruct (Z.eqb_spec (offset w) off); [lia|reflexivity].
Qed.

(** A pack whose 12-byte header and 20 more bytes have been written, with
    the 4096-byte window git allows as its smallest. *)
Definition small_pack : state :=
  {| pack_win := Some {| offset := 0; len := 32 |};
     pack_data := Some {| windows := true; pack_size := 32 |} |}.

Lemma between_writes_intro W w d :
  windows d = true -> offset w + len w = pack_size d ->
  (offset w = 0 /\ 20 <= len w < W + 20) \/
  (exists k, 1 <= k /\ offset w = k * W - 20 /\ 40 <= len w < W + 40) ->
  between_writes W {| pack_win := Some w; pack_data := Some d |}.
Proof. intros Hwin Hsum Hgeo. exists w, d. auto. Qed.

Lemma small_pack_between_writes : between_writes 4096 small_pack.
Proof.
  apply between_writes_intro; [reflexivity|reflexivity|]. left. cbn. lia.
Qed.

(** C7, as amended: between writes [offset + len = pack_size]; a write
    slides the window exactly when it does not fit the buffer, and the new
    offset is then 20 bytes below the largest multiple of the window size
    [W] that does not exceed [pack_size - 20] ([pack_size] counted after
    the write): [((pack_size - 20) / W) * W - 20]. *)
Theorem hashwrite_tail_window W st w d count :
  20 < W < 2 ^ 62 -> between_writes W st ->
  pack_win st = Some w -> pack_data st = Some d ->
  0 <= count < 2 ^ 32 -> pack_size d + count < 2 ^ 62 ->
  exists slid w' d',
    hashwrite W st count =
      Written slid {| pack_win := Some w'; pack_data := Some d' |} /\
    between_writes W {| pack_win := Some w'; pack_data := Some d' |} /\
    pack_size d' = pack_size d + count /\
    offset w' + len w' = pack_size d' /\
    (slid = true <-> exceeds_capacity W w count) /\
    (slid = true ->
       offset w' = (pack_size d' - 20) / W * W - 20 /\
       largest_multiple_upto W (pack_size d' - 20) (offset w' + 20)).
Proof.
  intros HW Hbw Hw Hd Hc Hps.
  destruct (Z_le_dec (W + (if offset w =? 0 then 0 else 20) + 20)
                     (len w + count)) as [Hex|Hfit].
  - destruct (hashwrite_slides W st w d count HW Hbw Hw Hd Hc Hps Hex)
      as (Heq & Hlt & Hk & Hlen).
    eexists true, _, _. split; [exact Heq|].
    cbn [offset len pack_size]. split; [|repeat split; try done; try lia].
    + apply between_writes_intro; cbn [offset len windows pack_size];
        [reflexivity|lia|].
      right. exists ((pack_size d + count - 20) / W). lia.
    + exists ((pack_size d + count - 20) / W). lia.
    + intros k' Hk'.
      destruct (floor_multiple_upto W (pack_size d + count - 20))
        as (_ & _ & Hmax); [lia|].
      specialize (Hmax k' Hk'). lia.
  - rewrite (hashwrite_fits W st w d count HW Hbw Hw Hd Hc Hps Hfit).
    destruct Hbw as (w0 & d0 & Hw0 & Hd0 & Hwin & Hsum & Hgeo).
    assert (w0 = w) by congruence. assert (d0 = d) by congruence.
    subst w0 d0. clear Hw0 Hd0.
    unfold exceeds_capacity in Hfit.
    eexists false, _, _. split; [reflexivity|].
    cbn [offset len pack_size]. split; [|repeat split; try done; try lia].
    apply between_writes_intro; cbn [offset len windows pack_size];
      [reflexivity|lia|].
    destruct Hgeo as [[H0 ?]|(k & ? & Hk & ?)].
    + left. rewrite H0 in *. cbn in Hfit. lia.
    + right. exists k. destruct (Z.eqb_spec (offset w) 0); [nia|lia].
Qed.

Lemma hashwrite_tail_window_witness :
  exists slid w' d',
    hashwrite 4096 small_pack 5000 =
      Written slid {| pack_win := Some w'; pack_data := Some d' |} /\
    between_writes 4096 {| pack_win := Some w'; pack_data := Some d' |} /\
    pack_size d' = 32 + 5000 /\
    offset w' + len w' = pack_size d' /\
    (slid = true <->
       exceeds_capacity 4096 {| offset := 0; len := 32 |} 5000) /\
    (slid = true ->
       offset w' = (pack_size d' - 20) / 4096 * 4096 - 20 /\
       largest_multiple_upto 4096 (pack_size d' - 20) (offset w' + 20)).
Proof.
  apply (hashwrite_tail_window 4096 small_pack
           {| offset := 0; len := 32 |}
           {| windows := true; pack_size := 32 |} 5000).
  - lia.
  - exact small_pack_between_writes.
  - reflexivity.
  - reflexivity.
  - lia.
  - cbn. lia.
Defined.

(** C7 as first stated fails: the write of 5000 bytes slides the window to
    offset 4076, whereas the largest multiple of 4096 below
    [pack_size - 20 = 5012] is 4096. *)
Lemma hashwrite_slide_offset_counterexample :
  hashwrite 4096 small_pack 5000 =
    Written true
      {| pack_win := Some {| offset := 4076; len := 956 |};
         pack_data := Some {| windows := true; pack_size := 5032 |} |} /\
  exceeds_capacity 4096 {| offset := 0; len := 32 |} 5000 /\
  largest_multiple_below 4096 (5032 - 20) 4096 /\
  4076 <> 4096.
Proof.
  split; [vm_compute; reflexivity|].
  split; [unfold exceeds_capacity; cbn; lia|].
  split; [|lia].
  split; [exists 1; lia|]. split; [lia|].
  intros k' Hk'. lia.
Qed.

End PackWindow.

(** ** Shared data: object ids, byte strings, fatal errors *)

(** [struct object_id] and [struct hg_object_id]: 20 bytes, read as one
    big-endian number. *)
Abbreviation oid := N (only parsing).

(** [oidcmp]/[hg_oidcmp]: [memcmp] over the 20 bytes. *)
Definition oidcmp (a b : oid) : comparison := N.compare a b.

(** [is_null_oid]/[is_null_hg_oid]. *)
Definition is_null_oid (a : oid) : bool := N.eqb a 0.

(** A [strbuf], or any byte buffer. *)
Abbreviation bytes := (list ascii) (only parsing).

(** A C string literal as bytes. *)
Definition lit (s : string) : bytes := list_ascii_of_string s.

Definition NUL : ascii := "000"%char.
Definition LF : ascii := "010"%char.

(** What a C string function sees of a buffer: the bytes before the first
    NUL. *)
Fixpoint c_string (l : bytes) : bytes :=
  match l with
  | [] => []
  | c :: l' => if Ascii.eqb c NUL then [] else c :: c_string l'
  end.

(** Outcome of a command: it returns, or the process dies with a message
    ([die]), or it runs into undefined behaviour (a null dereference, a
    failed [assert]). [OutOfFuel] is no outcome of the program: it marks a
    loop of the model that was given too few steps. *)
Inductive result (A : Type) : Type :=
| Ok (a : A)
| Die (msg : string)
| Undefined
| OutOfFuel.
Arguments Ok {A} a.
Arguments Die {A} msg.
Arguments Undefined {A}.
Arguments OutOfFuel {A}.

Definition result_bind {A B} (f : A -> result B) (r : result A) : result B :=
  match r with
  | Ok a => f a
  | Die msg => Die msg
  | Undefined => Undefined
  | OutOfFuel => OutOfFuel
  end.

(** The same, with the outcome first, so that a pair can be taken apart
    where it is bound. *)
Definition and_then {A B} (r : result A) (f : A -> result B) : result B :=
  match r with
  | Ok a => f a
  | Die msg => Die msg
  | Undefined => Undefined
  | OutOfFuel => OutOfFuel
  end.

Notation "'let*' x := r 'in' k" := (and_then r (fun x => k))
  (at level 10, x pattern, r at level 100, k at level 200).

#[global] Instance result_mbind : MBind result := @result_bind.
#[global] Instance result_mret : MRet result := @Ok.

(** ** HeadsSet: [ensure_heads] and [add_head] *)

Module Heads.

(** [struct oid_array]: the [nr] oids and the [sorted] flag. *)
Record oid_array := { oids : list oid; sorted : bool }.

(** [OID_ARRAY_INIT]. *)
Definition OID_ARRAY_INIT : oid_array := {| oids := []; sorted := false |}.

(** A parsed commit: its parents, in order, and its buffer. *)
Record commit := { parents : list oid; buffer : bytes }.

(** What the heads code reads of the repository: the commits, and the
    commits that [CHANGESETS_REF] and [MANIFESTS_REF] name. *)
Record repository := {
  commits : gmap N commit;
  changesets_ref : option oid;
  manifests_ref : option oid
}.

(** The two arrays [ensure_heads] tells apart by address. *)
Inductive heads_kind := changeset_heads | manifest_heads.

(** [oid_array_insert]: shift the tail up and write at [index]. *)
Definition oid_array_insert (l : list oid) (index : nat) (o : oid) : list oid :=
  take index l ++ o :: drop index l.

(** [oid_array_remove]: shift the tail down over [index]. *)
Definition oid_array_remove (l : list oid) (index : nat) : list oid :=
  take index l ++ drop (S index) l.

(** git's [oid_pos], behind [oid_array_lookup] once the array is flagged
    sorted (the flag [ensure_heads] sets, so that [oid_array_lookup] never
    sorts): a binary search that returns the index found, or [-lo - 1]
    with [lo] the insertion point. The search is git's own
    ([hash-lookup.c]): it takes its first probe by interpolation on the
    leading bytes and bisects from there, where this model bisects from
    the middle at once.
    On a strictly ascending array the answer does not depend on the
    probes ([oid_array_lookup_spec]), and every statement below that
    searches an array assumes it strictly ascending; on other arrays the
    two searches can differ, and nothing is stated of them. *)
Fixpoint oid_pos (fuel : nat) (table : list oid) (o : oid) (lo hi : nat) : Z :=
  match fuel with
  | O => - Z.of_nat lo - 1
  | S fuel =>
    if (lo <? hi)%nat then
      let mi := (lo + (hi - lo) / 2)%nat in
      match table !! mi with
      | None => - Z.of_nat lo - 1
      | Some x =>
        match oidcmp x o with
        | Eq => Z.of_nat mi
        | Gt => oid_pos fuel table o lo mi
        | Lt => oid_pos fuel table o (S mi) hi
        end
      end
    else - Z.of_nat lo - 1
  end.

Definition oid_array_lookup (l : list oid) (o : oid) : Z :=
  oid_pos (length l) l o 0 (length l).

(** [add_head] after its call to [ensure_heads]. *)
Definition add_head_sorted (repo : repository) (l : list oid) (o : oid)
  : result (list oid) :=
  (* c = lookup_commit(the_repository, oid); parse_commit_or_die(c); *)
  match commits repo !! o with
  | None => Die "unable to parse commit"
  | Some c =>
    let l :=
      foldl (fun l parent =>
               let pos := oid_array_lookup l parent in
               if 0 <=? pos then oid_array_remove l (Z.to_nat pos) else l)
            l (parents c) in
    let pos := oid_array_lookup l o in
    if 0 <=? pos then Ok l
    else Ok (oid_array_insert l (Z.to_nat (- pos - 1)) o)
  end.

(** [strstr(msg, "\n\n") + 2]: the bytes after the first blank line. *)
Fixpoint after_blank_line (msg : bytes) : option bytes :=
  match msg with
  | [] => None
  | c :: tl =>
    match tl with
    | c' :: rest =>
      if Ascii.eqb c LF && Ascii.eqb c' LF then Some rest
      else after_blank_line tl
    | [] => None
    end
  end.

Definition lookup_commit_reference_by_name (repo : repository)
  (ref : option oid) : option commit :=
  o ← ref; commits repo !! o.

Definition flat_manifest_sentinel : bytes := lit "has-flat-manifest-tree".

(** [!strcmp(body, "has-flat-manifest-tree")] *)
Definition is_flat_manifest_body (body : bytes) : bool :=
  bool_decide (c_string body = flat_manifest_sentinel).

(** The [for] loop of [ensure_heads] over the parents; [first] tells
    whether [parent == c->parents]. *)
Fixpoint ensure_heads_loop (repo : repository) (kind : heads_kind)
  (body : option bytes) (first : bool) (ps : list oid) (l : list oid)
  : result (list oid) :=
  match ps with
  | [] => Ok l
  | parent :: ps' =>
    let skip :=
      match kind, body with
      | manifest_heads, Some b => first && is_flat_manifest_body b
      | _, _ => false
      end in
    if skip then ensure_heads_loop repo kind body false ps' l
    else
      match last l with
      | Some x =>
        if N.eqb x parent then
          l' ← add_head_sorted repo l parent;
          ensure_heads_loop repo kind body false ps' l'
        else
          ensure_heads_loop repo kind body false ps'
            (oid_array_insert l (length l) parent)
      | None =>
        ensure_heads_loop repo kind body false ps'
          (oid_array_insert l (length l) parent)
      end
  end.

Definition ensure_heads (repo : repository) (kind : heads_kind)
  (heads : oid_array) : result oid_array :=
  if sorted heads then Ok heads
  else
    let c := match kind with
             | changeset_heads =>
                 lookup_commit_reference_by_name repo (changesets_ref repo)
             | manifest_heads =>
                 lookup_commit_reference_by_name repo (manifests_ref repo)
             end in
    match c with
    | None => Ok {| oids := oids heads; sorted := true |}
    | Some c =>
      match after_blank_line (c_string (buffer c)) with
      | None => Undefined
      | Some body =>
        l ← ensure_heads_loop repo kind (Some body) true (parents c)
              (oids heads);
        Ok {| oids := l; sorted := true |}
      end
    end.

Definition add_head (repo : repository) (kind : heads_kind)
  (heads : oid_array) (o : oid) : result oid_array :=
  heads ← ensure_heads repo kind heads;
  l ← add_head_sorted repo (oids heads) o;
  Ok {| oids := l; sorted := sorted heads |}.

(** The heads array is strictly ascending. *)
Definition strictly_ascending (l : list oid) : Prop :=
  StronglySorted N.lt l.

(** *** Binary search on a strictly ascending array *)

Lemma strictly_ascending_lookup (l : list N) i j x y :
  strictly_ascending l -> (i < j)%nat ->
  l !! i = Some x -> l !! j = Some y -> (x < y)%N.
Proof.
  unfold strictly_ascending. intros Hs. revert i j x y.
  induction Hs as [|a l Hs IH Hall]; intros i j x y Hij Hi Hj; [done|].
  destruct j as [|j]; [lia|]. cbn in Hj.
  destruct i as [|i]; cbn in Hi.
  - simplify_eq. rewrite Forall_forall in Hall.
    apply Hall. eapply list_elem_of_lookup_2; eauto.
  - apply (IH i j); [lia|done|done].
Qed.

(** What [oid_array_lookup] answers: the index of [o], or the insertion
    point [k] (as [-k - 1]) that splits the array around [o]. *)
Definition lookup_spec (l : list N) (o : N) (r : Z) : Prop :=
  (0 <= r /\ l !! Z.to_nat r = Some o) \/
  (exists k : nat, r = - Z.of_nat k - 1 /\ (k <= length l)%nat /\
     Forall (fun x => (x < o)%N) (take k l) /\
     Forall (fun x => (o < x)%N) (drop k l)).

Lemma oid_pos_spec (l : list N) (o : N) :
  strictly_ascending l ->
  forall fuel lo hi,
    (lo <= hi <= length l)%nat -> (hi - lo <= fuel)%nat ->
    Forall (fun x => (x < o)%N) (take lo l) ->
    Forall (fun x => (o < x)%N) (drop hi l) ->
    lookup_spec l o (oid_pos fuel l o lo hi).
Proof.
  intros Hs. induction fuel as [|fuel IH]; intros lo hi Hb Hf Hlo Hhi.
  - assert (lo = hi) by lia. subst hi. cbn. right. exists lo. auto with lia.
  - cbn [oid_pos]. destruct (Nat.ltb_spec lo hi) as [Hlt|Hge].
    2:{ assert (lo = hi) by lia. subst hi. right. exists lo. auto with lia. }
    set (mi := (lo + (hi - lo) / 2)%nat).
    assert (Hmi : (lo <= mi < hi)%nat).
    { subst mi. pose proof (Nat.div_lt (hi - lo) 2 ltac:(lia) ltac:(lia)).
      lia. }
    destruct (lookup_lt_is_Some_2 l mi ltac:(lia)) as [x Hx].
    rewrite Hx. unfold oidcmp. destruct (N.compare_spec x o) as [Heq|Hxo|Hox].
    + left. subst x. rewrite Nat2Z.id. split; [lia|done].
    + apply IH; [lia|lia| |done].
      apply Forall_forall. intros y Hy.
      apply elem_of_take in Hy as (i & Hi & Hlti).
      destruct (decide (i = mi)) as [->|Hne]; [congruence|].
      pose proof (strictly_ascending_lookup l i mi y x Hs ltac:(lia) Hi Hx).
      lia.
    + apply IH; [lia|lia|done|].
      apply Forall_forall. intros y Hy.
      apply list_elem_of_lookup in Hy as (i & Hi).
      rewrite lookup_drop in Hi.
      destruct (decide (i = 0%nat)) as [->|Hne].
      * replace (mi + 0)%nat with mi in Hi by lia. congruence.
      * pose proof (strictly_ascending_lookup l mi (mi + i) x y Hs
                      ltac:(lia) Hx Hi). lia.
Qed.

Lemma oid_array_lookup_spec (l : list N) (o : N) :
  strictly_ascending l -> lookup_spec l o (oid_array_lookup l o).
Proof.
  intros Hs. unfold oid_array_lookup.
  apply oid_pos_spec; [done|lia|lia| |].
  - rewrite take_0. constructor.
  - rewrite drop_all. constructor.
Qed.

(** *** Removal and insertion keep the array strictly ascending *)

Lemma oid_array_remove_spec (l : list N) i o :
  strictly_ascending l -> l !! i = Some o ->
  strictly_ascending (oid_array_remove l i) /\
  forall x, x ∈ oid_array_remove l i <-> x ∈ l /\ x <> o.
Proof.
  unfold strictly_ascending, oid_array_remove. intros Hs Hi.
  rewrite <- (take_drop_middle l i o Hi) in Hs.
  apply StronglySorted_app in Hs as (Hlt & Hs1 & Hs2).
  apply StronglySorted_cons in Hs2 as (Hall & Hs2).
  rewrite Forall_forall in Hall.
  split.
  - apply StronglySorted_app_2; [|done|done].
    intros x1 x2 H1 H2. apply Hlt; [done|]. by apply list_elem_of_further.
  - intros x. rewrite <- (take_drop_middle l i o Hi) at 3.
    rewrite !elem_of_app, elem_of_cons. split.
    + intros [H1|H2].
      * split; [auto|]. intros ->.
        specialize (Hlt o o H1 (list_elem_of_here _ _)). lia.
      * split; [auto|]. intros ->. specialize (Hall o H2). lia.
    + intros [[H1|[->|H2]] Hne]; [auto|done|auto].
Qed.

Lemma oid_array_insert_spec (l : list N) k o :
  strictly_ascending l ->
  Forall (fun x => (x < o)%N) (take k l) ->
  Forall (fun x => (o < x)%N) (drop k l) ->
  strictly_ascending (oid_array_insert l k o) /\
  forall x, x ∈ oid_array_insert l k o <-> x = o \/ x ∈ l.
Proof.
  unfold strictly_ascending, oid_array_insert. intros Hs Hlo Hhi.
  rewrite <- (take_drop k l) in Hs.
  apply StronglySorted_app in Hs as (Hlt & Hs1 & Hs2).
  rewrite Forall_forall in Hlo, Hhi.
  split.
  - apply StronglySorted_app_2; [|done|].
    + intros x1 x2 H1 H2. apply elem_of_cons in H2 as [->|H2]; [auto|].
      specialize (Hlo x1 H1). specialize (Hhi x2 H2). lia.
    + apply StronglySorted_cons. split; [|done]. by apply Forall_forall.
  - intros x. rewrite <- (take_drop k l) at 3.
    rewrite !elem_of_app, elem_of_cons. tauto.
Qed.

(** The first loop of [add_head]: every parent found is removed. *)
Definition remove_parents (l : list N) (ps : list N) : list N :=
  foldl (fun l parent =>
           let pos := oid_array_lookup l parent in
           if 0 <=? pos then oid_array_remove l (Z.to_nat pos) else l)
        l ps.

Lemma remove_parents_spec (ps l : list N) :
  strictly_ascending l ->
  strictly_ascending (remove_parents l ps) /\
  forall x, x ∈ remove_parents l ps <-> x ∈ l /\ x ∉ ps.
Proof.
  revert l. induction ps as [|p ps IH]; intros l Hs; cbn.
  - split; [done|]. intros x. rewrite elem_of_nil. tauto.
  - destruct (oid_array_lookup_spec l p Hs)
      as [[Hpos Hfound]|(k & -> & Hk & Hlo & Hhi)].
    + destruct (Z.leb_spec 0 (oid_array_lookup l p)); [|lia].
      destruct (oid_array_remove_spec l _ p Hs Hfound) as [Hs' Hin].
      destruct (IH _ Hs') as [Hs'' Hin'']. split; [done|].
      intros x. fold (remove_parents (oid_array_remove l (Z.to_nat (oid_array_lookup l p))) ps).
      rewrite Hin'', Hin, not_elem_of_cons. tauto.
    + destruct (Z.leb_spec 0 (- Z.of_nat k - 1)); [lia|].
      destruct (IH _ Hs) as [Hs'' Hin'']. split; [done|].
      intros x. fold (remove_parents l ps).
      rewrite Hin'', not_elem_of_cons.
      assert (p ∉ l).
      { rewrite <- (take_drop k l), elem_of_app. rewrite Forall_forall in Hlo, Hhi.
        intros [H1|H1]; [specialize (Hlo _ H1)|specialize (Hhi _ H1)]; lia. }
      split; [|tauto]. intros [Hx Hps]. repeat split; try done. congruence.
Qed.

Lemma add_head_sorted_spec repo (l : list N) o c :
  strictly_ascending l -> commits repo !! o = Some c ->
  exists l',
    add_head_sorted repo l o = Ok l' /\
    strictly_ascending l' /\
    forall x, x ∈ l' <-> x = o \/ (x ∈ l /\ x ∉ parents c).
Proof.
  intros Hs Hc. unfold add_head_sorted. rewrite Hc.
  fold (remove_parents l (parents c)).
  destruct (remove_parents_spec (parents c) l Hs) as [Hs' Hin'].
  destruct (oid_array_lookup_spec _ o Hs')
    as [[Hpos Hfound]|(k & -> & Hk & Hlo & Hhi)].
  - destruct (Z.leb_spec 0 (oid_array_lookup (remove_parents l (parents c)) o));
      [|lia].
    eexists. split; [done|]. split; [done|].
    intros x. rewrite Hin'. split; [tauto|].
    intros [->|?]; [|done]. apply Hin'. eapply list_elem_of_lookup_2; eauto.
  - destruct (Z.leb_spec 0 (- Z.of_nat k - 1)); [lia|].
    replace (Z.to_nat (- (- Z.of_nat k - 1) - 1)) with k by lia.
    destruct (oid_array_insert_spec _ k o Hs' Hlo Hhi) as [Hs'' Hin''].
    eexists. split; [done|]. split; [done|].
    intros x. rewrite Hin'', Hin'. tauto.
Qed.

(** *** Initialisation from the ref tip *)

(** The parents [ensure_heads] keeps: all of them, except the first one for
    [manifest_heads] when the body is the flat-manifest sentinel. *)
Definition kept_parents (kind : heads_kind) (body : bytes) (ps : list N)
  : list N :=
  match kind with
  | changeset_heads => ps
  | manifest_heads => if is_flat_manifest_body body then tail ps else ps
  end.

(** No two neighbours of the list are equal. *)
Fixpoint adjacent_distinct (l : list N) : Prop :=
  match l with
  | x :: tl =>
    match tl with
    | y :: _ => x <> y /\ adjacent_distinct tl
    | [] => True
    end
  | [] => True
  end.

(** [body] starts with the line [line]. *)
Definition begins_with_line (body line : bytes) : Prop :=
  body = line \/ exists rest, body = line ++ LF :: rest.

Lemma adjacent_distinct_app_last (l : list N) x y tl :
  adjacent_distinct (l ++ y :: tl) -> last l = Some x -> x <> y.
Proof.
  intros Hadj Hlast. apply last_Some in Hlast as [l' ->].
  rewrite <- app_assoc in Hadj. cbn in Hadj.
  induction l' as [|a l' IH]; cbn in Hadj; [tauto|].
  destruct l' as [|b l'']; cbn in *; tauto.
Qed.

Lemma strictly_ascending_adjacent_distinct (l : list N) :
  strictly_ascending l -> adjacent_distinct l.
Proof.
  unfold strictly_ascending. induction 1 as [|a l Hs IH Hall]; [done|].
  destruct l as [|b l']; [done|]. split; [|done].
  apply Forall_inv in Hall. lia.
Qed.

Lemma ensure_heads_loop_appends repo kind body (ps l : list N) :
  adjacent_distinct (l ++ ps) ->
  ensure_heads_loop repo kind body false ps l = Ok (l ++ ps).
Proof.
  revert l. induction ps as [|p ps IH]; intros l Hadj.
  - cbn. by rewrite app_nil_r.
  - assert (Hins : oid_array_insert l (length l) p = l ++ [p]).
    { unfold oid_array_insert. by rewrite take_ge, drop_ge by lia. }
    assert (Hnext : ensure_heads_loop repo kind body false ps (l ++ [p])
                    = Ok (l ++ p :: ps)).
    { rewrite IH; rewrite <- app_assoc; done. }
    assert (Hstep : ensure_heads_loop repo kind body false (p :: ps) l =
              match last l with
              | Some x =>
                if N.eqb x p then
                  l' ← add_head_sorted repo l p;
                  ensure_heads_loop repo kind body false ps l'
                else ensure_heads_loop repo kind body false ps
                       (oid_array_insert l (length l) p)
              | None => ensure_heads_loop repo kind body false ps
                          (oid_array_insert l (length l) p)
              end).
    { destruct kind, body; reflexivity. }
    rewrite Hstep, Hins, Hnext.
    destruct (last l) as [x|] eqn:Hlast; [|done].
    pose proof (adjacent_distinct_app_last l x p ps Hadj Hlast) as Hne.
    destruct (N.eqb_spec x p); [done|done].
Qed.

Lemma ensure_heads_loop_first repo kind body (ps l : list N) :
  adjacent_distinct (l ++ kept_parents kind body ps) ->
  ensure_heads_loop repo kind (Some body) true ps l
  = Ok (l ++ kept_parents kind body ps).
Proof.
  intros Hadj.
  assert (Hstep : ensure_heads_loop repo kind (Some body) true ps l =
                  ensure_heads_loop repo kind (Some body) false
                    (kept_parents kind body ps) l).
  { destruct ps as [|p ps].
    - destruct kind; cbn; [|destruct (is_flat_manifest_body body)]; done.
    - destruct kind; cbn; [done|].
      destruct (is_flat_manifest_body body); done. }
  rewrite Hstep. by apply ensure_heads_loop_appends.
Qed.

(** The commit at the tip of the ref behind [kind]. *)
Definition tip_commit (repo : repository) (kind : heads_kind) : option commit :=
  match kind with
  | changeset_heads =>
      lookup_commit_reference_by_name repo (changesets_ref repo)
  | manifest_heads =>
      lookup_commit_reference_by_name repo (manifests_ref repo)
  end.

Lemma ensure_heads_sorted_noop repo kind heads :
  sorted heads = true -> ensure_heads repo kind heads = Ok heads.
Proof. intros H. unfold ensure_heads. by rewrite H. Qed.

Lemma ensure_heads_unfold repo kind heads :
  sorted heads = false ->
  ensure_heads repo kind heads =
    match tip_commit repo kind with
    | None => Ok {| oids := oids heads; sorted := true |}
    | Some c =>
      match after_blank_line (c_string (buffer c)) with
      | None => Undefined
      | Some body =>
        l ← ensure_heads_loop repo kind (Some body) true (parents c)
              (oids heads);
        Ok {| oids := l; sorted := true |}
      end
    end.
Proof. intros H. unfold ensure_heads, tip_commit. rewrite H. by destruct kind. Qed.

(** C5, as amended: initialising a heads array from the tip commit of its
    ref appends every parent of that commit, in order, as a head (parents
    that do not repeat their predecessor are appended as they are); for
    [manifest_heads] the first parent is left out exactly when the commit
    body is the sentinel [has-flat-manifest-tree] itself, and for
    [changeset_heads] no parent is left out. *)
Theorem ensure_heads_adds_parents repo kind heads c body :
  sorted heads = false ->
  tip_commit repo kind = Some c ->
  after_blank_line (c_string (buffer c)) = Some body ->
  adjacent_distinct (oids heads ++ kept_parents kind body (parents c)) ->
  ensure_heads repo kind heads =
    Ok {| oids := oids heads ++ kept_parents kind body (parents c);
          sorted := true |} /\
  kept_parents changeset_heads body (parents c) = parents c /\
  kept_parents manifest_heads body (parents c) =
    if bool_decide (c_string body = flat_manifest_sentinel)
    then tail (parents c) else parents c.
Proof.
  intros Hs Htip Hbody Hadj. split; [|split; reflexivity].
  rewrite (ensure_heads_unfold repo kind heads Hs), Htip, Hbody.
  by rewrite (ensure_heads_loop_first repo kind body (parents c) (oids heads)).
Qed.

(** A metadata commit buffer with the given message. *)
Definition commit_buffer (message : bytes) : bytes :=
  lit "tree 4b825dc642cb6eb9a060e54bf8d69288fbee4904" ++ [LF] ++
  lit "author  <cinnabar@git> 0 +0000" ++ [LF] ++
  lit "committer  <cinnabar@git> 0 +0000" ++ [LF; LF] ++ message.

(** A repository whose manifests ref names commit 100, with the parents
    [ps] and the message [message]. *)
Definition repo_with_tip (ps : list N) (message : bytes) : repository :=
  {| commits := {[ 100%N := {| parents := ps;
                               buffer := commit_buffer message |} ]};
     changesets_ref := None;
     manifests_ref := Some 100%N |}.

Lemma ensure_heads_adds_parents_witness :
  ensure_heads (repo_with_tip [5; 7; 9]%N flat_manifest_sentinel)
    manifest_heads OID_ARRAY_INIT =
    Ok {| oids := [] ++ kept_parents manifest_heads flat_manifest_sentinel
                          [5; 7; 9]%N;
          sorted := true |} /\
  kept_parents changeset_heads flat_manifest_sentinel [5; 7; 9]%N
    = [5; 7; 9]%N /\
  kept_parents manifest_heads flat_manifest_sentinel [5; 7; 9]%N =
    if bool_decide (c_string flat_manifest_sentinel = flat_manifest_sentinel)
    then tail [5; 7; 9]%N else [5; 7; 9]%N.
Proof.
  apply (ensure_heads_adds_parents
           (repo_with_tip [5; 7; 9]%N flat_manifest_sentinel)
           manifest_heads OID_ARRAY_INIT
           {| parents := [5; 7; 9]%N;
              buffer := commit_buffer flat_manifest_sentinel |}
           flat_manifest_sentinel).
  - reflexivity.
  - reflexivity.
  - reflexivity.
  - vm_compute. split; [discriminate|exact I].
Defined.

(** C5 as first stated fails: a body that begins with the sentinel line but
    goes on after it (here with the newline that ends the line) does not
    make [ensure_heads] skip the first parent. *)
Lemma ensure_heads_sentinel_prefix_counterexample :
  begins_with_line (flat_manifest_sentinel ++ [LF]) flat_manifest_sentinel /\
  tip_commit (repo_with_tip [5; 9]%N (flat_manifest_sentinel ++ [LF]))
    manifest_heads =
    Some {| parents := [5; 9]%N;
            buffer := commit_buffer (flat_manifest_sentinel ++ [LF]) |} /\
  ensure_heads (repo_with_tip [5; 9]%N (flat_manifest_sentinel ++ [LF]))
    manifest_heads OID_ARRAY_INIT =
    Ok {| oids := [5; 9]%N; sorted := true |}.
Proof.
  split; [right; by exists []|]. split; reflexivity.
Qed.

(** *** Sortedness of the heads array *)

(** What the heads code relies on: an initialised array is strictly
    ascending; an array not yet initialised is empty and the tip commit of
    its ref lists the parents it keeps in strictly ascending order. *)
Definition heads_precondition (repo : repository) (kind : heads_kind)
  (heads : oid_array) : Prop :=
  if sorted heads then strictly_ascending (oids heads)
  else
    oids heads = [] /\
    match tip_commit repo kind with
    | None => True
    | Some c =>
      exists body,
        after_blank_line (c_string (buffer c)) = Some body /\
        strictly_ascending (kept_parents kind body (parents c))
    end.

Lemma ensure_heads_ascending repo kind heads :
  heads_precondition repo kind heads ->
  exists h, ensure_heads repo kind heads = Ok h /\
            sorted h = true /\ strictly_ascending (oids h).
Proof.
  unfold heads_precondition. intros Hpre.
  destruct (sorted heads) eqn:Hs.
  - exists heads. by rewrite ensure_heads_sorted_noop.
  - destruct Hpre as [Hnil Htip].
    rewrite (ensure_heads_unfold repo kind heads Hs), Hnil.
    destruct (tip_commit repo kind) as [c|].
    + destruct Htip as (body & Hbody & Hasc). rewrite Hbody.
      rewrite (ensure_heads_loop_first repo kind body (parents c) []).
      * eexists. split; [done|]. split; [done|]. exact Hasc.
      * by apply strictly_ascending_adjacent_distinct.
    + eexists. split; [done|]. split; [done|]. constructor.
Qed.

(** What holds of an array that meets [heads_precondition]:
    [ensure_heads] leaves it strictly ascending (it appends the parents
    in the commit's order and does not sort); [add_head] keeps it
    strictly ascending; and after [add_head] of a commit, the commit is
    in the array and none of its parents is. *)
Theorem heads_strictly_ascending repo kind heads :
  heads_precondition repo kind heads ->
  (exists h, ensure_heads repo kind heads = Ok h /\
             sorted h = true /\ strictly_ascending (oids h)) /\
  (forall o c, commits repo !! o = Some c -> o ∉ parents c ->
     exists h, add_head repo kind heads o = Ok h /\
               sorted h = true /\ strictly_ascending (oids h) /\
               o ∈ oids h /\
               forall p, p ∈ parents c -> p ∉ oids h).
Proof.
  intros Hpre.
  destruct (ensure_heads_ascending repo kind heads Hpre)
    as (h & Hh & Hsorted & Hasc).
  split; [by exists h|].
  intros o c Hc Hself. unfold add_head. rewrite Hh. cbn.
  destruct (add_head_sorted_spec repo (oids h) o c Hasc Hc)
    as (l' & Hl' & Hasc' & Hin).
  rewrite Hl'. cbn. eexists. split; [done|]. cbn.
  split; [done|]. split; [done|]. split.
  - apply Hin. by left.
  - intros p Hp Hp'. apply Hin in Hp' as [->|[_ Hnp]]; done.
Qed.

Lemma heads_strictly_ascending_witness :
  (exists h, ensure_heads (repo_with_tip [5; 7; 9]%N flat_manifest_sentinel)
               manifest_heads OID_ARRAY_INIT = Ok h /\
             sorted h = true /\ strictly_ascending (oids h)) /\
  (forall o c,
     commits (repo_with_tip [5; 7; 9]%N flat_manifest_sentinel) !! o = Some c ->
     o ∉ parents c ->
     exists h, add_head (repo_with_tip [5; 7; 9]%N flat_manifest_sentinel)
                 manifest_heads OID_ARRAY_INIT o = Ok h /\
               sorted h = true /\ strictly_ascending (oids h) /\
               o ∈ oids h /\
               forall p, p ∈ parents c -> p ∉ oids h).
Proof.
  apply (heads_strictly_ascending
           (repo_with_tip [5; 7; 9]%N flat_manifest_sentinel)
           manifest_heads OID_ARRAY_INIT).
  split; [reflexivity|].
  exists flat_manifest_sentinel. split; [reflexivity|].
  repeat constructor; lia.
Defined.

(** [add_head] on the state of the witness: commit 100 (parents 5, 7, 9)
    replaces the heads 7 and 9 that initialisation found. *)
Example add_head_replaces_parents :
  add_head (repo_with_tip [5; 7; 9]%N flat_manifest_sentinel)
    manifest_heads OID_ARRAY_INIT 100%N
  = Ok {| oids := [100%N]; sorted := true |}.
Proof. reflexivity. Qed.

(** C6: the array is not always strictly ascending. [ensure_heads]
    copies the parents of the tip commit in the order the commit lists
    them and flags the array as sorted, against its own comment ("We
    always keep the array sorted"): for a tip commit with the parents 9
    and 5 the array is [9; 5]. *)
Lemma ensure_heads_unsorted_counterexample :
  ensure_heads (repo_with_tip [9; 5]%N []) manifest_heads OID_ARRAY_INIT =
    Ok {| oids := [9; 5]%N; sorted := true |} /\
  ~ strictly_ascending [9; 5]%N.
Proof.
  split; [reflexivity|].
  intros H. apply StronglySorted_cons in H as [H _].
  apply Forall_inv in H. lia.
Qed.

End Heads.

(** ** Hexadecimal object names *)

(** git's [hexval]: the value of a hexadecimal digit of either case. *)
Definition hexval (c : ascii) : option N :=
  let n := N_of_ascii c in
  if ((48 <=? n) && (n <=? 57))%N then Some (n - 48)%N
  else if ((97 <=? n) && (n <=? 102))%N then Some (n - 87)%N
  else if ((65 <=? n) && (n <=? 70))%N then Some (n - 55)%N
  else None.

Fixpoint get_hex (digits : nat) (s : bytes) (acc : N) : option N :=
  match digits with
  | O => Some acc
  | S digits =>
    match s with
    | [] => None
    | c :: s' =>
      match hexval c with
      | Some v => get_hex digits s' (acc * 16 + v)%N
      | None => None
      end
    end
  end.

(** [get_sha1_hex]/[get_oid_hex]: the oid that the first 40 characters
    spell, when all of them are hexadecimal digits ([None] is the C
    function's [-1]). *)
Definition get_sha1_hex (s : bytes) : option oid := get_hex 40 s 0.

Definition hex_digit (v : N) : ascii :=
  ascii_of_N (if (v <? 10)%N then 48 + v else 87 + v)%N.

Fixpoint to_hex (digits : nat) (v : N) (acc : bytes) : bytes :=
  match digits with
  | O => acc
  | S digits => to_hex digits (v / 16)%N (hex_digit (v mod 16)%N :: acc)
  end.

(** [oid_to_hex]/[hg_oid_to_hex]: 40 lowercase digits. *)
Definition oid_to_hex (o : oid) : bytes := to_hex 40 o [].

(** ** The engine: object table, notes trees, heads, caches *)

Module Core.

Inductive object_type := OBJ_COMMIT | OBJ_TREE | OBJ_BLOB | OBJ_TAG.

#[global] Instance object_type_eq_dec : EqDecision object_type.
Proof. solve_decision. Defined.

Record object := { obj_type : object_type; obj_data : bytes }.

(** [struct hg_file]: the node, the full revlog data [file], and its split
    into [metadata] (absent when its buffer is null) and [content]. *)
Record hg_file := {
  hf_oid : oid;
  hf_file : bytes;
  hf_metadata : option bytes;
  hf_content : bytes
}.

(** [hg_file_init]: a zeroed [hg_file]. *)
Definition hg_file_init : hg_file :=
  {| hf_oid := 0%N; hf_file := []; hf_metadata := None; hf_content := [] |}.

(** The process-wide state the commands work on. *)
Record state := {
  (** objects known to the repository or written to the current pack *)
  objects : gmap N object;
  (** the notes trees *)
  hg2git : gmap N N;
  git2hg : gmap N N;
  files_meta : gmap N N;
  (** the heads arrays *)
  changeset_heads : Heads.oid_array;
  manifest_heads : Heads.oid_array;
  (** the commits [CHANGESETS_REF] and [MANIFESTS_REF] name *)
  changesets_ref : option oid;
  manifests_ref : option oid;
  (** [static struct hg_file last_file] of [store_file] *)
  last_file : hg_file
}.

Definition set_objects (st : state) (v : gmap N object) : state :=
  {| objects := v; hg2git := hg2git st; git2hg := git2hg st;
     files_meta := files_meta st; changeset_heads := changeset_heads st;
     manifest_heads := manifest_heads st;
     changesets_ref := changesets_ref st; manifests_ref := manifests_ref st;
     last_file := last_file st |}.

Definition set_hg2git (st : state) (v : gmap N N) : state :=
  {| objects := objects st; hg2git := v; git2hg := git2hg st;
     files_meta := files_meta st; changeset_heads := changeset_heads st;
     manifest_heads := manifest_heads st;
     changesets_ref := changesets_ref st; manifests_ref := manifests_ref st;
     last_file := last_file st |}.

Definition set_git2hg (st : state) (v : gmap N N) : state :=
  {| objects := objects st; hg2git := hg2git st; git2hg := v;
     files_meta := files_meta st; changeset_heads := changeset_heads st;
     manifest_heads := manifest_heads st;
     changesets_ref := changesets_ref st; manifests_ref := manifests_ref st;
     last_file := last_file st |}.

Definition set_files_meta (st : state) (v : gmap N N) : state :=
  {| objects := objects st; hg2git := hg2git st; git2hg := git2hg st;
     files_meta := v; changeset_heads := changeset_heads st;
     manifest_heads := manifest_heads st;
     changesets_ref := changesets_ref st; manifests_ref := manifests_ref st;
     last_file := last_file st |}.

Definition set_manifest_heads (st : state) (v : Heads.oid_array) : state :=
  {| objects := objects st; hg2git := hg2git st; git2hg := git2hg st;
     files_meta := files_meta st; changeset_heads := changeset_heads st;
     manifest_heads := v;
     changesets_ref := changesets_ref st; manifests_ref := manifests_ref st;
     last_file := last_file st |}.

Definition set_last_file (st : state) (v : hg_file) : state :=
  {| objects := objects st; hg2git := hg2git st; git2hg := git2hg st;
     files_meta := files_meta st; changeset_heads := changeset_heads st;
     manifest_heads := manifest_heads st;
     changesets_ref := changesets_ref st; manifests_ref := manifests_ref st;
     last_file := v |}.

(** A session with nothing stored. *)
Definition empty_state : state :=
  {| objects := ∅; hg2git := ∅; git2hg := ∅; files_meta := ∅;
     changeset_heads := Heads.OID_ARRAY_INIT;
     manifest_heads := Heads.OID_ARRAY_INIT;
     changesets_ref := None; manifests_ref := None;
     last_file := hg_file_init |}.

(** *** Commits as the heads code reads them *)

Definition strip_prefix (p s : bytes) : option bytes :=
  if bool_decide (take (length p) s = p) then Some (drop (length p) s)
  else None.

(** The [parent <hex>\n] lines at the head of [s]. *)
Fixpoint parse_parents (fuel : nat) (s : bytes) : option (list oid) :=
  match fuel with
  | O => Some []
  | S fuel =>
    match strip_prefix (lit "parent ") s with
    | None => Some []
    | Some rest =>
      match get_sha1_hex rest, drop 40 rest with
      | Some p, c :: rest' =>
        if Ascii.eqb c LF then
          ps ← parse_parents fuel rest'; Some (p :: ps)
        else None
      | _, _ => None
      end
    end
  end.

(** git's [parse_commit_buffer], as far as the parents: a [tree <hex>\n]
    line, then the parent lines. *)
Definition parse_commit (data : bytes) : option Heads.commit :=
  match strip_prefix (lit "tree ") data with
  | None => None
  | Some rest =>
    match get_sha1_hex rest, drop 40 rest with
    | Some _, c :: rest' =>
      if Ascii.eqb c LF then
        ps ← parse_parents (length rest') rest';
        Some {| Heads.parents := ps; Heads.buffer := data |}
      else None
    | _, _ => None
    end
  end.

Definition commit_of_object (o : object) : option Heads.commit :=
  match obj_type o with
  | OBJ_COMMIT => parse_commit (obj_data o)
  | _ => None
  end.

(** The repository as [ensure_heads] and [add_head] see it. *)
Definition repository_of (st : state) : Heads.repository :=
  {| Heads.commits := omap commit_of_object (objects st);
     Heads.changesets_ref := changesets_ref st;
     Heads.manifests_ref := manifests_ref st |}.

(** [add_head(&manifest_heads, oid)]. *)
Definition add_manifest_head (st : state) (o : oid) : result state :=
  h ← Heads.add_head (repository_of st) Heads.manifest_heads
         (manifest_heads st) o;
  Ok (set_manifest_heads st h).

(** *** Notes trees *)

(** Modelled from the spec: the notes functions of [cinnabar-notes.c]
    ([get_note], [add_note], [remove_note] and their [_hg] forms) are the
    [get], [put] and [remove] of a key-to-oid map; [ensure_notes] loads a
    tree on first use and changes no mapping. *)
Definition get_note (notes : gmap N N) (key : oid) : option oid := notes !! key.
Definition add_note (notes : gmap N N) (key value : oid) : gmap N N :=
  <[key := value]> notes.
Definition remove_note (notes : gmap N N) (key : oid) : gmap N N :=
  delete key notes.

(** *** The object store *)

(** [oid_object_info]: the type of a known object. *)
Definition oid_object_info (st : state) (o : oid) : option object_type :=
  obj_type <$> objects st !! o.

(** [read_object_file_extended]: the content of a known object. *)
Definition read_object_file (st : state) (o : oid) : option bytes :=
  obj_data <$> objects st !! o.

Section WithEnvironment.

(** git's object naming: the oid of an object of the given type and
    content. *)
Variable hash_object : object_type -> bytes -> oid.

(** [parse_mark_ref_eol] followed by [find_mark]: the object a [:mark]
    argument names in fast-import's mark table. *)
Variable find_marked : state -> bytes -> result oid.

(** [is_empty_hg_file]: the node of Mercurial's empty file. *)
Variable is_empty_hg_file : oid -> bool.

(** [hg_file_load]: the revlog data of a stored file node, read back
    through [hg2git] and [files_meta]. *)
Variable hg_file_load : state -> oid -> result hg_file.

(** The split [hg_file_from_memory] makes of revlog data into the optional
    metadata header and the content. *)
Variable hg_file_split : bytes -> option bytes * bytes.

(** fast-import's [store_object]: the object is named by its hash, and
    written to the pack unless an object of that name is known already. *)
Definition store_object (st : state) (type : object_type) (data : bytes)
  : state * oid :=
  let o := hash_object type data in
  match objects st !! o with
  | Some _ => (st, o)
  | None =>
    (set_objects st (<[o := {| obj_type := type; obj_data := data |}]>
                       (objects st)), o)
  end.

(** *** [handle_changeset_conflict] *)

(** The test on a git2hg note: [None] is the [die], [Some] the changeset
    the note names. *)
Definition check_git2hg_note (content : bytes) : option oid :=
  if (length content <? 50)%nat then None
  else if negb (bool_decide (lit "changeset " `prefix_of` content)) then None
  else get_sha1_hex (drop 10 content).

(** The [while] loop, with the model's step budget [fuel]; [buf] is the
    commit being padded. *)
Fixpoint handle_changeset_conflict_loop (fuel : nat) (st : state)
  (hg_id git_id : oid) (buf : bytes) : result (state * oid) :=
  match get_note (git2hg st) git_id with
  | None => Ok (st, git_id)
  | Some note =>
    match read_object_file st note with
    | None => Undefined
    | Some content =>
      match check_git2hg_note content with
      | None => Die "Invalid git2hg note"
      | Some o =>
        (* We might just already have the changeset in store *)
        if N.eqb o hg_id then Ok (st, git_id)
        else
          match fuel with
          | O => OutOfFuel
          | S fuel =>
            buf ← (if (length buf =? 0)%nat then
                     match read_object_file st git_id with
                     | None => Undefined
                     | Some content => Ok (buf ++ content)
                     end
                   else Ok buf);
            let buf := buf ++ [NUL] in
            let '(st, git_id) := store_object st OBJ_COMMIT buf in
            handle_changeset_conflict_loop fuel st hg_id git_id buf
          end
      end
    end
  end.

Definition handle_changeset_conflict (fuel : nat) (st : state)
  (hg_id git_id : oid) : result (state * oid) :=
  handle_changeset_conflict_loop fuel st hg_id git_id [].

(** *** [do_set] *)

(** Which notes tree a [set] command addresses. *)
Inductive notes_tree := NOTES_hg2git | NOTES_git2hg | NOTES_files_meta.

Definition streq (a : bytes) (b : string) : bool :=
  bool_decide (c_string a = lit b).

(** The kind of object a [set] command names: the type its git object
    must have, the notes tree, whether the manifest heads are updated, and
    whether it is a changeset. *)
Definition set_kind (kind : bytes)
  : option (object_type * notes_tree * bool * bool) :=
  if streq kind "file" then Some (OBJ_BLOB, NOTES_hg2git, false, false)
  else if streq kind "manifest" || streq kind "changeset" then
    match kind with
    | "m"%char :: _ => Some (OBJ_COMMIT, NOTES_hg2git, true, false)
    | _ => Some (OBJ_COMMIT, NOTES_hg2git, false, true)
    end
  else if streq kind "changeset-metadata" then
    Some (OBJ_BLOB, NOTES_git2hg, false, false)
  else if streq kind "file-meta" then
    Some (OBJ_BLOB, NOTES_files_meta, false, false)
  else None.

(** The third argument of [set]: a mark, or 40 hexadecimal digits. *)
Definition set_git_id (st : state) (git_ref : bytes) : result oid :=
  match git_ref with
  | ":"%char :: _ => find_marked st git_ref
  | _ => match get_sha1_hex git_ref with
         | Some g => Ok g
         | None => Die "Invalid sha1"
         end
  end.

(** [do_set(args)]. *)
Definition do_set (fuel : nat) (st : state) (args : list bytes)
  : result state :=
  match args with
  | [kind; hg_sha; git_ref] =>
    match set_kind kind with
    | None => Die "Unknown kind of object"
    | Some (type, notes, is_manifest, is_changeset) =>
      match get_sha1_hex hg_sha with
      | None => Die "Invalid sha1"
      | Some hg_id =>
        git_id ← set_git_id st git_ref;
        match notes with
        | NOTES_git2hg =>
          match get_note (hg2git st) hg_id with
          | Some note =>
            if is_null_oid git_id then
              Ok (set_git2hg st (remove_note (git2hg st) note))
            else if negb (bool_decide
                            (oid_object_info st git_id = Some OBJ_BLOB))
            then Die "Invalid object"
            else Ok (set_git2hg st (add_note (git2hg st) note git_id))
          | None =>
            if negb (is_null_oid git_id) then Die "Invalid sha1" else Ok st
          end
        | _ =>
          let get := match notes with
                     | NOTES_files_meta => files_meta
                     | _ => hg2git
                     end in
          let set := match notes with
                     | NOTES_files_meta => set_files_meta
                     | _ => set_hg2git
                     end in
          if is_null_oid git_id then
            Ok (set st (remove_note (get st) hg_id))
          else if negb (bool_decide (oid_object_info st git_id = Some type))
          then Die "Invalid object"
          else
            r ← (if is_changeset
                 then handle_changeset_conflict fuel st hg_id git_id
                 else Ok (st, git_id));
            let st := set r.1 (add_note (get r.1) hg_id r.2) in
            if is_manifest then add_manifest_head st r.2 else Ok st
        end
      end
    end
  | _ => Die "set needs 3 arguments"
  end.

(** *** [store_file] *)

(** [struct rev_diff_part]: replace the bytes from [start] up to [end] by
    [data]. *)
Record rev_diff_part := {
  diff_start : nat;
  diff_end : nat;
  diff_data : bytes
}.

(** [struct rev_chunk], with the diff parts that [rev_diff_iter_next]
    yields in order. *)
Record rev_chunk := {
  node : oid;
  parent1 : oid;
  parent2 : oid;
  delta_node : oid;
  diffs : list rev_diff_part
}.

(** [hg_file_from_memory]: the file of node [o] whose revlog data is
    [data]. *)
Definition hg_file_from_memory (o : oid) (data : bytes) : hg_file :=
  {| hf_oid := o; hf_file := data;
     hf_metadata := (hg_file_split data).1;
     hf_content := (hg_file_split data).2 |}.

(** [hg_file_store]: the metadata, if any, goes to a blob noted in
    files_meta, the content to a blob noted in hg2git. (The reference
    file only serves as delta base in the pack.) *)
Definition hg_file_store (st : state) (file : hg_file) : state :=
  let st :=
    match hf_metadata file with
    | Some metadata =>
      let '(st, o) := store_object st OBJ_BLOB metadata in
      set_files_meta st (add_note (files_meta st) (hf_oid file) o)
    | None => st
    end in
  let '(st, o) := store_object st OBJ_BLOB (hf_content file) in
  set_hg2git st (add_note (hg2git st) (hf_oid file) o).

(** The [while] loop of [store_file] over the diff parts: [data] is the
    buffer being built and [last_end] the end of the previous part. *)
Fixpoint store_file_loop (base : bytes) (ds : list rev_diff_part)
  (data : bytes) (last_end : nat) : result (bytes * nat) :=
  match ds with
  | [] => Ok (data, last_end)
  | d :: ds =>
    if (length base <? diff_start d)%nat || (diff_start d <? last_end)%nat
    then Die "Malformed file chunk"
    else
      (* strbuf_add(&data, buf + last_end, diff.start - last_end);
         strbuf_addbuf(&data, &diff.data); *)
      store_file_loop base ds
        (data ++ take (diff_start d - last_end) (drop last_end base)
              ++ diff_data d)
        (diff_end d)
  end.

(** The first step of [store_file]: make [last_file] the delta base. *)
Definition load_delta_base (st : state) (chunk : rev_chunk) : result state :=
  if N.eqb (delta_node chunk) (hf_oid (last_file st)) then Ok st
  else
    (* hg_file_release(&last_file); *)
    let st := set_last_file st hg_file_init in
    if is_null_oid (delta_node chunk) then Ok st
    else
      file ← hg_file_load st (delta_node chunk);
      Ok (set_last_file st file).

(** [store_file(chunk)]. *)
Definition store_file (st : state) (chunk : rev_chunk) : result state :=
  if is_empty_hg_file (node chunk) then Ok st
  else
    st ← load_delta_base st chunk;
    let base := hf_file (last_file st) in
    r ← store_file_loop base (diffs chunk) [] 0;
    if (length base <? r.2)%nat then Die "Malformed file chunk"
    else
      let data := r.1 ++ drop r.2 base in
      let file := hg_file_from_memory (node chunk) data in
      let st := hg_file_store st file in
      (* hg_file_swap(&file, &last_file); *)
      Ok (set_last_file st file).

(** *** What the specification says of [store_file] *)

(** Some diff part starts beyond the base, starts before the end of the
    part before it, or ends beyond the base. *)
Fixpoint some_diff_malformed (len : nat) (last_end : nat)
  (ds : list rev_diff_part) : Prop :=
  match ds with
  | [] => False
  | d :: ds =>
    (len < diff_start d)%nat \/ (diff_start d < last_end)%nat \/
    (len < diff_end d)%nat \/ some_diff_malformed len (diff_end d) ds
  end.

(** The base with the ranges of the parts replaced by their data: what
    lies between the parts is kept. *)
Fixpoint replace_ranges (base : bytes) (last_end : nat)
  (ds : list rev_diff_part) : bytes :=
  match ds with
  | [] => drop last_end base
  | d :: ds =>
    take (diff_start d - last_end) (drop last_end base) ++ diff_data d ++
    replace_ranges base (diff_end d) ds
  end.

(** One range replaced in a buffer. *)
Definition replace_range (buf : bytes) (d : rev_diff_part) : bytes :=
  take (diff_start d) buf ++ diff_data d ++ drop (diff_end d) buf.

(** The parts are ranges in ascending order inside the base. *)
Fixpoint ranges_in_order (len : nat) (last_end : nat)
  (ds : list rev_diff_part) : Prop :=
  match ds with
  | [] => True
  | d :: ds =>
    (last_end <= diff_start d <= diff_end d)%nat /\ (diff_end d <= len)%nat /\
    ranges_in_order len (diff_end d) ds
  end.

(** *** Validation of git2hg notes *)

(** A hexadecimal digit, of either case. *)
Definition is_hex_digit (c : ascii) : Prop :=
  c ∈ lit "0123456789abcdefABCDEF".

#[global] Instance is_hex_digit_dec c : Decision (is_hex_digit c).
Proof. unfold is_hex_digit. apply _. Defined.

Lemma hexval_is_Some c : is_Some (hexval c) <-> is_hex_digit c.
Proof.
  assert (H : bool_decide (is_Some (hexval c)) = bool_decide (is_hex_digit c)).
  { unfold is_hex_digit.
    destruct c as [[] [] [] [] [] [] [] []]; vm_compute; reflexivity. }
  rewrite <- (bool_decide_eq_true (is_Some (hexval c))), H.
  apply bool_decide_eq_true.
Qed.

Lemma get_hex_is_Some digits s acc :
  is_Some (get_hex digits s acc) <->
  (digits <= length s)%nat /\ Forall is_hex_digit (take digits s).
Proof.
  revert s acc. induction digits as [|n IH]; intros s acc; cbn.
  - split; [intros _; split; [lia|constructor]|eauto].
  - destruct s as [|c s]; cbn.
    + split; [by intros [? ?]|intros [? _]; lia].
    + destruct (hexval c) as [v|] eqn:Hv.
      * rewrite IH, Forall_cons. split.
        -- intros [? ?]. split; [lia|]. split; [|done].
           apply hexval_is_Some. by rewrite Hv.
        -- intros [? [? ?]]. split; [lia|done].
      * split; [by intros [? ?]|]. intros [_ H]. apply Forall_cons in H as [H _].
        apply hexval_is_Some in H. rewrite Hv in H. by destruct H.
Qed.

(** The note does not pass the test of [handle_changeset_conflict]: it is
    shorter than 50 bytes, or does not start with [changeset ], or one of
    the 40 characters after that is no hexadecimal digit. *)
Definition invalid_git2hg_note (content : bytes) : Prop :=
  (length content < 50)%nat \/
  ~ lit "changeset " `prefix_of` content \/
  ~ Forall is_hex_digit (take 40 (drop 10 content)).

(** The text of a changeset metadata blob: [changeset <40-hex>\n...]. *)
Definition changeset_metadata (content : bytes) : Prop :=
  exists hex rest,
    content = lit "changeset " ++ hex ++ LF :: rest /\
    length hex = 40%nat /\ Forall is_hex_digit hex.

Lemma check_git2hg_note_None content :
  check_git2hg_note content = None <-> invalid_git2hg_note content.
Proof.
  unfold check_git2hg_note, invalid_git2hg_note.
  destruct (Nat.ltb_spec (length content) 50) as [Hlen|Hlen].
  { split; [by left|done]. }
  destruct (decide (lit "changeset " `prefix_of` content)) as [Hp|Hp].
  - rewrite bool_decide_eq_true_2 by done. cbn [negb].
    unfold get_sha1_hex. rewrite eq_None_not_Some, get_hex_is_Some.
    rewrite length_drop. split.
    + intros H. right. right. intros HF. apply H. split; [lia|done].
    + intros [?|[?|?]] [_ ?]; [lia|done|done].
  - rewrite bool_decide_eq_false_2 by done. cbn [negb].
    split; [by right; left|done].
Qed.

Lemma changeset_metadata_valid content :
  changeset_metadata content -> is_Some (check_git2hg_note content).
Proof.
  intros (hex & rest & -> & Hlen & Hhex).
  destruct (check_git2hg_note _) eqn:Hc; [eauto|].
  apply check_git2hg_note_None in Hc as [Hc|[Hc|Hc]]; exfalso.
  - rewrite !length_app in Hc. cbn in Hc. lia.
  - apply Hc. by eexists.
  - apply Hc. rewrite drop_app_length'; [|done].
    by rewrite take_app_length'.
Qed.

(** *** Resolution of changeset conflicts *)

(** The commit body after [k] rounds: one NUL appended per round. *)
Definition padded (body : bytes) (k : nat) : bytes := body ++ replicate k NUL.

(** The oid at stake in round [k]: the oid given, then the names of the
    padded commits. *)
Definition candidate (git_id : oid) (body : bytes) (k : nat) : oid :=
  match k with
  | O => git_id
  | S _ => hash_object OBJ_COMMIT (padded body k)
  end.

(** The git2hg note of [g] names a changeset other than [hg_id]. *)
Definition names_other (st : state) (hg_id g : oid) : Prop :=
  exists note content o,
    get_note (git2hg st) g = Some note /\
    read_object_file st note = Some content /\
    check_git2hg_note content = Some o /\ o <> hg_id.

(** [g] has no git2hg note, or its note names [hg_id]. *)
Definition unused_or_own (st : state) (hg_id g : oid) : Prop :=
  get_note (git2hg st) g = None \/
  exists note content,
    get_note (git2hg st) g = Some note /\
    read_object_file st note = Some content /\
    check_git2hg_note content = Some hg_id.

(** Every git2hg value is a changeset metadata blob. *)
Definition git2hg_well_formed (st : state) : Prop :=
  forall g note, git2hg st !! g = Some note ->
    exists content,
      read_object_file st note = Some content /\ changeset_metadata content.

(** [st'] is [st] with more objects. *)
Definition extends (st st' : state) : Prop :=
  st' = set_objects st (objects st') /\ objects st ⊆ objects st'.

Lemma extends_refl st : extends st st.
Proof. split; [by destruct st|done]. Qed.

Lemma extends_trans st1 st2 st3 :
  extends st1 st2 -> extends st2 st3 -> extends st1 st3.
Proof.
  intros [H1 S1] [H2 S2]. split; [|by etrans].
  rewrite H2 at 1. rewrite H1 at 1. reflexivity.
Qed.

Lemma store_object_extends st type data :
  extends st (store_object st type data).1 /\
  (store_object st type data).2 = hash_object type data /\
  is_Some (objects (store_object st type data).1 !! hash_object type data).
Proof.
  unfold store_object.
  destruct (objects st !! hash_object type data) as [o|] eqn:Ho; cbn.
  - split; [apply extends_refl|]. split; [done|]. rewrite Ho. eauto.
  - split; [|split; [done|]].
    + split; [done|]. cbn. by apply insert_subseteq.
    + rewrite lookup_insert_eq. eauto.
Qed.

Lemma extends_git2hg st st' : extends st st' -> git2hg st' = git2hg st.
Proof. intros [-> _]. reflexivity. Qed.

Lemma extends_read st st' o content :
  extends st st' -> read_object_file st o = Some content ->
  read_object_file st' o = Some content.
Proof.
  intros [_ Hsub]. unfold read_object_file.
  destruct (objects st !! o) as [x|] eqn:Hx; [|done].
  intros [= <-]. by rewrite (lookup_weaken _ _ _ _ Hx Hsub).
Qed.

Lemma extends_names_other st st' hg_id g :
  extends st st' -> names_other st hg_id g -> names_other st' hg_id g.
Proof.
  intros Hext (note & content & o & Hn & Hr & Hc & Hne).
  exists note, content, o. rewrite (extends_git2hg _ _ Hext).
  eauto using extends_read.
Qed.

Lemma extends_unused_or_own st st' hg_id g :
  extends st st' -> unused_or_own st hg_id g -> unused_or_own st' hg_id g.
Proof.
  intros Hext [Hn|(note & content & Hn & Hr & Hc)].
  - left. by rewrite (extends_git2hg _ _ Hext).
  - right. exists note, content. rewrite (extends_git2hg _ _ Hext).
    eauto using extends_read.
Qed.

Lemma loop_stops st fuel hg_id g buf :
  unused_or_own st hg_id g ->
  handle_changeset_conflict_loop fuel st hg_id g buf = Ok (st, g).
Proof.
  intros [Hn|(note & content & Hn & Hr & Hc)];
    destruct fuel; cbn; rewrite Hn; try done;
    rewrite Hr, Hc, N.eqb_refl; done.
Qed.

Lemma loop_steps st fuel hg_id g buf :
  names_other st hg_id g ->
  handle_changeset_conflict_loop (S fuel) st hg_id g buf =
    buf' ← (if (length buf =? 0)%nat then
              match read_object_file st g with
              | None => Undefined
              | Some content => Ok (buf ++ content)
              end
            else Ok buf);
    handle_changeset_conflict_loop fuel
      (store_object st OBJ_COMMIT (buf' ++ [NUL])).1 hg_id
      (store_object st OBJ_COMMIT (buf' ++ [NUL])).2 (buf' ++ [NUL]).
Proof.
  intros (note & content & o & Hn & Hr & Hc & Hne).
  cbn [handle_changeset_conflict_loop]. rewrite Hn, Hr, Hc.
  destruct (N.eqb_spec o hg_id); [done|].
  destruct (if (length buf =? 0)%nat then _ else _); cbn; try done.
  by destruct (store_object st OBJ_COMMIT (a ++ [NUL])).
Qed.

Lemma padded_S body k : padded body k ++ [NUL] = padded body (S k).
Proof.
  unfold padded. rewrite <- app_assoc. f_equal.
  by rewrite replicate_S_end.
Qed.

(** The loop runs through the rounds whose oid names another changeset and
    returns at the first oid that is unused or names this changeset. *)
Lemma loop_resolves git_id body hg_id k :
  forall fuel st j buf,
    buf = match j with O => [] | S _ => padded body j end ->
    (j = O -> k <> O -> read_object_file st git_id = Some body) ->
    (forall i, (i < k)%nat ->
       names_other st hg_id (candidate git_id body (j + i))) ->
    unused_or_own st hg_id (candidate git_id body (j + k)) ->
    (k <= fuel)%nat ->
    exists st',
      handle_changeset_conflict_loop fuel st hg_id
        (candidate git_id body j) buf
      = Ok (st', candidate git_id body (j + k)) /\
      extends st st' /\
      forall i, (j < i <= j + k)%nat ->
        is_Some (objects st' !! candidate git_id body i).
Proof.
  induction k as [|k IH]; intros fuel st j buf Hbuf Hbody Hother Hown Hfuel.
  - exists st. rewrite Nat.add_0_r in *. split; [by apply loop_stops|].
    split; [apply extends_refl|]. intros i Hi. lia.
  - destruct fuel as [|fuel]; [lia|].
    pose proof (Hother 0%nat ltac:(lia)) as H0. rewrite Nat.add_0_r in H0.
    rewrite (loop_steps _ _ _ _ _ H0).
    assert (Hbuf' : (if (length buf =? 0)%nat then
                       match read_object_file st (candidate git_id body j) with
                       | None => Undefined
                       | Some content => Ok (buf ++ content)
                       end
                     else Ok buf) = Ok (padded body j)).
    { destruct j as [|j]; subst buf.
      - cbn. rewrite (Hbody eq_refl ltac:(lia)). cbn.
        unfold padded. cbn. by rewrite app_nil_r.
      - destruct (Nat.eqb_spec (length (padded body (S j))) 0) as [Hl|]; [|done].
        unfold padded in Hl. rewrite length_app, length_replicate in Hl. lia. }
    rewrite Hbuf'. cbn [mbind result_mbind result_bind].
    rewrite padded_S.
    destruct (store_object_extends st OBJ_COMMIT (padded body (S j)))
      as (Hext & Hoid & Hobj).
    rewrite Hoid.
    change (hash_object OBJ_COMMIT (padded body (S j)))
      with (candidate git_id body (S j)) in *.
    destruct (IH fuel (store_object st OBJ_COMMIT (padded body (S j))).1
                (S j) (padded body (S j)))
      as (st' & Hrun & Hext' & Hobjs).
    + done.
    + done.
    + intros i Hi. eapply extends_names_other; [done|].
      replace (S j + i)%nat with (j + S i)%nat by lia. apply Hother. lia.
    + eapply extends_unused_or_own; [done|].
      by replace (S j + k)%nat with (j + S k)%nat by lia.
    + lia.
    + exists st'. replace (j + S k)%nat with (S j + k)%nat by lia.
      split; [done|]. split; [by eapply extends_trans|].
      intros i Hi. destruct (decide (i = S j)) as [->|Hne].
      * destruct Hobj as [x Hx]. destruct Hext' as [_ Hsub].
        rewrite (lookup_weaken _ _ _ _ Hx Hsub). eauto.
      * apply Hobjs. lia.
Qed.

Lemma well_formed_candidate st hg_id g :
  git2hg_well_formed st ->
  names_other st hg_id g \/ unused_or_own st hg_id g.
Proof.
  intros Hwf. destruct (git2hg st !! g) as [note|] eqn:Hn; [|by right; left].
  destruct (Hwf g note Hn) as (content & Hr & Hmeta).
  destruct (changeset_metadata_valid content Hmeta) as [o Ho].
  destruct (decide (o = hg_id)) as [->|Hne].
  - right. right. by exists note, content.
  - left. by exists note, content, o.
Qed.

Lemma names_other_noted st hg_id g :
  names_other st hg_id g -> g ∈ dom (git2hg st).
Proof.
  intros (note & _ & _ & Hn & _). apply elem_of_dom. by exists note.
Qed.

(** When the padded commits get names of their own, one of the first
    [size git2hg + 1] rounds ends the loop. *)
Lemma first_settled_round st hg_id git_id body :
  git2hg_well_formed st ->
  NoDup (candidate git_id body <$> seq 0 (S (size (git2hg st)))) ->
  exists k, (k <= size (git2hg st))%nat /\
    (forall i, (i < k)%nat -> names_other st hg_id (candidate git_id body i)) /\
    unused_or_own st hg_id (candidate git_id body k).
Proof.
  intros Hwf Hnodup.
  assert (Hsearch : forall m,
    (exists k, (k < m)%nat /\
       (forall i, (i < k)%nat ->
          names_other st hg_id (candidate git_id body i)) /\
       unused_or_own st hg_id (candidate git_id body k)) \/
    (forall i, (i < m)%nat -> names_other st hg_id (candidate git_id body i))).
  { induction m as [|m [(k & Hk & Hlt & Hown)|Hall]].
    - right. intros i Hi. lia.
    - left. exists k. split; [lia|done].
    - destruct (well_formed_candidate st hg_id (candidate git_id body m) Hwf)
        as [Hother|Hown].
      + right. intros i Hi. destruct (decide (i = m)) as [->|]; [done|].
        apply Hall. lia.
      + left. exists m. split; [lia|done]. }
  destruct (Hsearch (S (size (git2hg st)))) as [(k & Hk & Hlt & Hown)|Hall].
  { exists k. split; [lia|done]. }
  exfalso.
  set (l := candidate git_id body <$> seq 0 (S (size (git2hg st)))) in *.
  assert (Hsub : list_to_set l ⊆ dom (git2hg st)).
  { intros g Hg. apply elem_of_list_to_set in Hg.
    apply list_elem_of_fmap in Hg as (i & -> & Hi).
    apply elem_of_seq in Hi. apply (names_other_noted st hg_id).
    apply Hall. lia. }
  apply subseteq_size in Hsub.
  rewrite size_list_to_set, size_dom in Hsub by done.
  subst l. rewrite length_fmap, length_seq in Hsub. lia.
Qed.

Lemma handle_changeset_conflict_resolves st hg_id git_id body fuel :
  git2hg_well_formed st ->
  read_object_file st git_id = Some body ->
  NoDup (candidate git_id body <$> seq 0 (S (size (git2hg st)))) ->
  (size (git2hg st) <= fuel)%nat ->
  exists k st',
    (k <= size (git2hg st))%nat /\
    handle_changeset_conflict fuel st hg_id git_id
      = Ok (st', candidate git_id body k) /\
    extends st st' /\
    (forall i, (i < k)%nat -> names_other st hg_id (candidate git_id body i)) /\
    unused_or_own st' hg_id (candidate git_id body k) /\
    (forall i, (1 <= i <= k)%nat ->
       is_Some (objects st' !! candidate git_id body i)).
Proof.
  intros Hwf Hbody Hnodup Hfuel.
  destruct (first_settled_round st hg_id git_id body Hwf Hnodup)
    as (k & Hk & Hother & Hown).
  destruct (loop_resolves git_id body hg_id k fuel st 0%nat [])
    as (st' & Hrun & Hext & Hobjs); try done; try lia.
  exists k, st'. split; [done|]. split; [exact Hrun|]. split; [done|].
  split; [done|]. split; [by eapply extends_unused_or_own|].
  intros i Hi. apply Hobjs. lia.
Qed.

(** The process died with the message [msg]. *)
Definition dies_with {A} (msg : string) (r : result A) : bool :=
  match r with
  | Die m => String.eqb m msg
  | _ => false
  end.

Lemma extends_well_formed st st' :
  extends st st' -> git2hg_well_formed st -> git2hg_well_formed st'.
Proof.
  intros Hext Hwf g note Hn. rewrite (extends_git2hg _ _ Hext) in Hn.
  destruct (Hwf g note Hn) as (content & Hr & Hmeta).
  exists content. eauto using extends_read.
Qed.

Lemma invalid_note_dies fuel st hg_id git_id buf note content :
  get_note (git2hg st) git_id = Some note ->
  read_object_file st note = Some content ->
  invalid_git2hg_note content ->
  handle_changeset_conflict_loop fuel st hg_id git_id buf
  = Die "Invalid git2hg note".
Proof.
  intros Hn Hr Hinv. apply check_git2hg_note_None in Hinv.
  destruct fuel; cbn; by rewrite Hn, Hr, Hinv.
Qed.

Lemma well_formed_never_dies fuel :
  forall st hg_id git_id buf,
    git2hg_well_formed st ->
    dies_with "Invalid git2hg note"
      (handle_changeset_conflict_loop fuel st hg_id git_id buf) = false.
Proof.
  induction fuel as [|fuel IH]; intros st hg_id git_id buf Hwf.
  - destruct (well_formed_candidate st hg_id git_id Hwf) as [Hother|Hown].
    + destruct Hother as (note & content & o & Hn & Hr & Hc & Hne).
      cbn. rewrite Hn, Hr, Hc. by destruct (N.eqb_spec o hg_id).
    + by rewrite loop_stops.
  - destruct (well_formed_candidate st hg_id git_id Hwf) as [Hother|Hown].
    + rewrite (loop_steps _ _ _ _ _ Hother).
      destruct (length buf =? 0)%nat;
        [destruct (read_object_file st git_id); [|done]|];
        cbn [mbind result_mbind result_bind]; apply IH;
        (eapply extends_well_formed; [|done]); apply store_object_extends.
    + by rewrite loop_stops.
Qed.

(** C10: a git2hg note consulted by the conflict loop that is shorter than
    50 bytes, or does not start with [changeset ], or has a character that
    is no hexadecimal digit among the next 40, makes the process die with
    "Invalid git2hg note"; when every git2hg value is a blob that begins
    [changeset <40-hex>\n], the loop never dies so, whatever its length. *)
Theorem git2hg_note_validation :
  (forall fuel st hg_id git_id buf note content,
     get_note (git2hg st) git_id = Some note ->
     read_object_file st note = Some content ->
     invalid_git2hg_note content ->
     handle_changeset_conflict_loop fuel st hg_id git_id buf
     = Die "Invalid git2hg note") /\
  (forall fuel st hg_id git_id buf,
     git2hg_well_formed st ->
     dies_with "Invalid git2hg note"
       (handle_changeset_conflict_loop fuel st hg_id git_id buf) = false).
Proof.
  split.
  - intros. by eapply invalid_note_dies.
  - intros. by apply well_formed_never_dies.
Qed.

(** distinct Mercurial ids never share a Git oid in hg2git *)
Definition hg2git_injective (st : state) : Prop :=
  forall h1 h2 g,
    hg2git st !! h1 = Some g -> hg2git st !! h2 = Some g -> h1 = h2.

(** Every hg2git entry leads to an oid that has no git2hg note, or whose
    note names the key of the entry. *)
Definition hg2git_consistent (st : state) : Prop :=
  forall h g, hg2git st !! h = Some g -> unused_or_own st h g.

(** Distinct Mercurial ids never share a Git oid that has a git2hg
    note. *)
Definition hg2git_injective_on_noted (st : state) : Prop :=
  forall h1 h2 g,
    hg2git st !! h1 = Some g -> hg2git st !! h2 = Some g ->
    is_Some (git2hg st !! g) -> h1 = h2.

Lemma consistent_injective_on_noted st :
  hg2git_consistent st -> hg2git_injective_on_noted st.
Proof.
  intros Hcons h1 h2 g H1 H2 [note Hnote].
  destruct (Hcons h1 g H1) as [Hn1|(n1 & c1 & Hn1 & Hr1 & Hc1)];
    unfold get_note in Hn1; [congruence|].
  destruct (Hcons h2 g H2) as [Hn2|(n2 & c2 & Hn2 & Hr2 & Hc2)];
    unfold get_note in Hn2; [congruence|].
  congruence.
Qed.

(** C1, as amended: when a changeset is set to a commit whose oid has a
    git2hg note naming another changeset, the commit is stored again with
    one more NUL byte appended, round after round, until its oid has no
    git2hg note or a note that names this changeset; that oid is the one
    recorded in hg2git. With commit names free of collisions the rounds
    number at most the size of git2hg. So the oid recorded is never the
    commit of another changeset whose git2hg note names that changeset,
    and hg2git stays injective on the oids that have a git2hg note: when
    every entry led to an oid without a note or with a note naming its
    key before the command, so it does afterwards, and no two Mercurial
    ids share an oid that has a note. *)
Theorem do_set_changeset_resolves_conflict
  st hg_sha git_ref hg_id git_id body fuel :
  git2hg_well_formed st ->
  get_sha1_hex hg_sha = Some hg_id ->
  set_git_id st git_ref = Ok git_id ->
  is_null_oid git_id = false ->
  objects st !! git_id = Some {| obj_type := OBJ_COMMIT; obj_data := body |} ->
  NoDup (candidate git_id body <$> seq 0 (S (size (git2hg st)))) ->
  (size (git2hg st) <= fuel)%nat ->
  exists k st',
    (k <= size (git2hg st))%nat /\
    do_set fuel st [lit "changeset"; hg_sha; git_ref] = Ok st' /\
    (forall i, (i < k)%nat ->
       names_other st hg_id (candidate git_id body i)) /\
    unused_or_own st' hg_id (candidate git_id body k) /\
    (forall i, (1 <= i <= k)%nat ->
       is_Some (objects st' !! candidate git_id body i)) /\
    hg2git st' = <[hg_id := candidate git_id body k]> (hg2git st) /\
    git2hg st' = git2hg st /\
    (forall h g,
       h <> hg_id -> hg2git st !! h = Some g ->
       (exists note content,
          get_note (git2hg st) g = Some note /\
          read_object_file st note = Some content /\
          check_git2hg_note content = Some h) ->
       candidate git_id body k <> g) /\
    (hg2git_consistent st ->
     hg2git_consistent st' /\ hg2git_injective_on_noted st').
Proof.
  intros Hwf Hhg Hgit Hnull Hobj Hnodup Hfuel.
  assert (Hread : read_object_file st git_id = Some body).
  { unfold read_object_file. by rewrite Hobj. }
  destruct (handle_changeset_conflict_resolves st hg_id git_id body fuel
              Hwf Hread Hnodup Hfuel)
    as (k & st' & Hk & Hrun & Hext & Hother & Hown & Hobjs).
  exists k, (set_hg2git st' (add_note (hg2git st') hg_id
                               (candidate git_id body k))).
  split; [done|]. split.
  - unfold do_set.
    change (set_kind (lit "changeset"))
      with (Some (OBJ_COMMIT, NOTES_hg2git, false, true)).
    rewrite Hhg, Hgit. cbn [mbind result_mbind result_bind].
    rewrite Hnull. unfold oid_object_info. rewrite Hobj. cbn [fmap option_fmap option_map obj_type].
    rewrite bool_decide_eq_true_2 by done. cbn [negb].
    rewrite Hrun. reflexivity.
  - split; [done|]. split.
    { destruct Hown as [Hn|(note & content & Hn & Hr & Hc)].
      - by left.
      - right. by exists note, content. }
    split; [done|].
    assert (Hfinal : forall h g,
              unused_or_own st' h g ->
              unused_or_own
                (set_hg2git st' (add_note (hg2git st') hg_id
                                   (candidate git_id body k))) h g).
    { intros h g [Hn|(note & content & Hn & Hr & Hc)].
      - by left.
      - right. by exists note, content. }
    assert (Hhg2git : hg2git (set_hg2git st' (add_note (hg2git st') hg_id
                                                (candidate git_id body k)))
                      = <[hg_id := candidate git_id body k]> (hg2git st)).
    { destruct Hext as [Hst' _]. cbn. unfold add_note. by rewrite Hst'. }
    split; [exact Hhg2git|].
    split; [destruct Hext as [Hst' _]; by rewrite Hst'|].
    split.
    + intros h g Hne Hentry (note & content & Hn & Hr & Hc) Heq.
      rewrite Heq in Hown.
      pose proof (extends_git2hg _ _ Hext) as Hg.
      pose proof (extends_read _ _ _ _ Hext Hr) as Hr'.
      destruct Hown as [Hnone|(n1 & c1 & Hn1 & Hr1 & Hc1)];
        unfold get_note in *; rewrite Hg in *; congruence.
    + intros Hcons.
      assert (Hcons' : hg2git_consistent
                (set_hg2git st' (add_note (hg2git st') hg_id
                                   (candidate git_id body k)))).
      { intros h g. rewrite Hhg2git. intros Hentry. apply Hfinal.
        destruct (decide (h = hg_id)) as [->|Hne].
        - rewrite lookup_insert_eq in Hentry. by injection Hentry as <-.
        - rewrite lookup_insert_ne in Hentry by done.
          eapply extends_unused_or_own; [done|]. by apply Hcons. }
      split; [done|]. by apply consistent_injective_on_noted.
Qed.

(** C9: a [set] command whose third argument resolves to the null oid
    removes the note of the given key from the tree the kind selects
    (hg2git; git2hg through the hg2git entry of the key, when there is one;
    files_meta) and returns: no object type is checked, no conflict is
    handled, and objects and heads stay as they are. *)
Theorem do_set_null_removes
  fuel st kind hg_sha git_ref type notes is_manifest is_changeset hg_id :
  set_kind kind = Some (type, notes, is_manifest, is_changeset) ->
  get_sha1_hex hg_sha = Some hg_id ->
  set_git_id st git_ref = Ok 0%N ->
  exists st',
    do_set fuel st [kind; hg_sha; git_ref] = Ok st' /\
    st' = match notes with
          | NOTES_hg2git => set_hg2git st (delete hg_id (hg2git st))
          | NOTES_files_meta => set_files_meta st (delete hg_id (files_meta st))
          | NOTES_git2hg =>
            match hg2git st !! hg_id with
            | Some note => set_git2hg st (delete note (git2hg st))
            | None => st
            end
          end /\
    objects st' = objects st /\
    manifest_heads st' = manifest_heads st /\
    changeset_heads st' = changeset_heads st.
Proof.
  intros Hkind Hhg Hgit. unfold do_set. rewrite Hkind, Hhg, Hgit.
  cbn [mbind result_mbind result_bind is_null_oid N.eqb].
  destruct notes; cbn.
  - eexists. split; [done|]. done.
  - unfold get_note. destruct (hg2git st !! hg_id); eexists; (split; [done|]); done.
  - eexists. split; [done|]. done.
Qed.

(** *** [store_file]: rejection and reconstruction *)

(** [store_file] from the loop on: build the data, check the last end,
    append the rest of the base. *)
Definition rebuild (base : bytes) (ds : list rev_diff_part)
  (data : bytes) (last_end : nat) : result bytes :=
  r ← store_file_loop base ds data last_end;
  if (length base <? r.2)%nat then Die "Malformed file chunk"
  else Ok (r.1 ++ drop r.2 base).

Lemma rebuild_nil base data last_end :
  rebuild base [] data last_end =
    if (length base <? last_end)%nat then Die "Malformed file chunk"
    else Ok (data ++ drop last_end base).
Proof. reflexivity. Qed.

Lemma rebuild_cons base d ds data last_end :
  rebuild base (d :: ds) data last_end =
    if (length base <? diff_start d)%nat || (diff_start d <? last_end)%nat
    then Die "Malformed file chunk"
    else rebuild base ds
           (data ++ take (diff_start d - last_end) (drop last_end base)
                 ++ diff_data d) (diff_end d).
Proof.
  unfold rebuild. cbn [store_file_loop].
  by destruct (_ || _).
Qed.

Lemma rebuild_malformed base ds :
  forall data last_end,
    rebuild base ds data last_end = Die "Malformed file chunk" <->
    (length base < last_end)%nat \/
    some_diff_malformed (length base) last_end ds.
Proof.
  induction ds as [|d ds IH]; intros data last_end.
  - rewrite rebuild_nil. cbn [some_diff_malformed].
    destruct (Nat.ltb_spec (length base) last_end).
    + split; [by left|done].
    + split; [done|]. intros [?|[]]. lia.
  - rewrite rebuild_cons. cbn [some_diff_malformed].
    destruct (Nat.ltb_spec (length base) (diff_start d)); cbn [orb].
    { split; [intros _|done]. right. by left. }
    destruct (Nat.ltb_spec (diff_start d) last_end).
    { split; [intros _|done]. right. right. by left. }
    rewrite IH. split.
    + intros [?|?]; right; right; right; [by left|by right].
    + intros [?|[?|[?|[?|?]]]]; [lia|lia|lia|by left|by right].
Qed.

Lemma rebuild_replaces base ds :
  forall data last_end,
    ~ ((length base < last_end)%nat \/
       some_diff_malformed (length base) last_end ds) ->
    rebuild base ds data last_end
    = Ok (data ++ replace_ranges base last_end ds).
Proof.
  induction ds as [|d ds IH]; intros data last_end Hok.
  - rewrite rebuild_nil. cbn [replace_ranges].
    destruct (Nat.ltb_spec (length base) last_end); [|done].
    exfalso. apply Hok. by left.
  - rewrite rebuild_cons. cbn [some_diff_malformed replace_ranges] in *.
    destruct (Nat.ltb_spec (length base) (diff_start d)); cbn [orb].
    { exfalso. apply Hok. right. by left. }
    destruct (Nat.ltb_spec (diff_start d) last_end).
    { exfalso. apply Hok. right. right. by left. }
    rewrite IH.
    + by rewrite <- !app_assoc.
    + intros [?|?]; apply Hok; right; right; right; [by left|by right].
Qed.

(** Replacing the ranges one after the other, the last one first so that
    the offsets of the earlier ones still hold, gives the same bytes. *)
Lemma replace_ranges_in_order base ds :
  forall last_end,
    ranges_in_order (length base) last_end ds ->
    foldr (fun d buf => replace_range buf d) base ds
    = take last_end base ++ replace_ranges base last_end ds.
Proof.
  induction ds as [|d ds IH]; intros last_end Hord.
  - cbn. by rewrite take_drop.
  - cbn [foldr replace_ranges ranges_in_order] in *.
    destruct Hord as ([Hs He] & Hlen & Hord).
    rewrite (IH _ Hord). unfold replace_range.
    rewrite take_app_le by (rewrite length_take; lia).
    rewrite take_take, Nat.min_l by lia.
    rewrite drop_app_length' by (rewrite length_take; lia).
    rewrite (app_assoc (take last_end base)). f_equal.
    rewrite take_drop_commute.
    replace (last_end + (diff_start d - last_end))%nat
      with (diff_start d) by lia.
    rewrite <- (take_drop last_end (take (diff_start d) base)) at 1.
    by rewrite take_take, Nat.min_l by lia.
Qed.

Lemma store_file_unfold st chunk st1 :
  is_empty_hg_file (node chunk) = false ->
  load_delta_base st chunk = Ok st1 ->
  store_file st chunk =
    data ← rebuild (hf_file (last_file st1)) (diffs chunk) [] 0;
    let file := hg_file_from_memory (node chunk) data in
    Ok (set_last_file (hg_file_store st1 file) file).
Proof.
  intros Hne Hload. unfold store_file, rebuild. rewrite Hne, Hload.
  cbn [mbind result_mbind result_bind].
  destruct (store_file_loop _ _ _ _) as [r| | |];
    cbn [mbind result_mbind result_bind]; try done.
  by destruct (length (hf_file (last_file st1)) <? r.2)%nat.
Qed.

Lemma hg_file_store_hg2git st file :
  hg2git (hg_file_store st file) !! hf_oid file
    = Some (hash_object OBJ_BLOB (hf_content file)) /\
  is_Some (objects (hg_file_store st file)
             !! hash_object OBJ_BLOB (hf_content file)).
Proof.
  unfold hg_file_store.
  set (st0 := match hf_metadata file with
              | Some metadata =>
                let '(st, o) := store_object st OBJ_BLOB metadata in
                set_files_meta st (add_note (files_meta st) (hf_oid file) o)
              | None => st
              end).
  destruct (store_object_extends st0 OBJ_BLOB (hf_content file))
    as (_ & Hoid & Hobj).
  destruct (store_object st0 OBJ_BLOB (hf_content file)) as [st1 o].
  cbn in *. subst o. split; [|done].
  unfold add_note. by rewrite lookup_insert_eq.
Qed.

Lemma hg_file_store_effect st file :
  hg2git (hg_file_store st file)
  = <[hf_oid file := hash_object OBJ_BLOB (hf_content file)]> (hg2git st) /\
  files_meta (hg_file_store st file)
  = match hf_metadata file with
    | Some metadata =>
      <[hf_oid file := hash_object OBJ_BLOB metadata]> (files_meta st)
    | None => files_meta st
    end /\
  is_Some (objects (hg_file_store st file)
             !! hash_object OBJ_BLOB (hf_content file)).
Proof.
  unfold hg_file_store.
  destruct (hf_metadata file) as [metadata|].
  - pose proof (store_object_extends st OBJ_BLOB metadata)
      as ([Heq1 _] & Ho1 & _).
    destruct (store_object st OBJ_BLOB metadata) as [st1 o1].
    cbn [fst snd] in *. subst o1.
    set (st2 := set_files_meta st1 _).
    pose proof (store_object_extends st2 OBJ_BLOB (hf_content file))
      as ([Heq2 _] & Ho2 & Hin2).
    destruct (store_object st2 OBJ_BLOB (hf_content file)) as [st3 o3].
    cbn [fst snd] in *. subst o3. rewrite Heq2. subst st2. rewrite Heq1.
    cbn. repeat split; done.
  - pose proof (store_object_extends st OBJ_BLOB (hf_content file))
      as ([Heq2 _] & Ho2 & Hin2).
    destruct (store_object st OBJ_BLOB (hf_content file)) as [st3 o3].
    cbn [fst snd] in *. subst o3. rewrite Heq2. cbn. repeat split; done.
Qed.

Lemma accepted_ranges_in_order len ds :
  forall last_end,
    ~ some_diff_malformed len last_end ds ->
    Forall (fun d => (diff_start d <= diff_end d)%nat) ds ->
    ranges_in_order len last_end ds.
Proof.
  induction ds as [|d ds IH]; intros last_end Hok Hall; [done|].
  apply Forall_cons in Hall as [Hd Hall].
  cbn [some_diff_malformed ranges_in_order] in *.
  split; [|split].
  - split; [|done].
    destruct (Nat.le_gt_cases last_end (diff_start d)); [done|].
    exfalso. apply Hok. right. by left.
  - destruct (Nat.le_gt_cases (diff_end d) len); [done|].
    exfalso. apply Hok. right. right. by left.
  - apply IH; [|done]. intros H. apply Hok. by repeat right.
Qed.

(** The first step of [store_file], case by case: the last file stays
    when the chunk is a delta against it; otherwise it is released, and
    replaced by what [hg_file_load] gives unless the delta node is null. *)
Lemma load_delta_base_cases st chunk base_file :
  (delta_node chunk = hf_oid (last_file st) /\ base_file = last_file st) \/
  (delta_node chunk <> hf_oid (last_file st) /\
   ((delta_node chunk = 0%N /\ base_file = hg_file_init) \/
    (delta_node chunk <> 0%N /\
     hg_file_load (set_last_file st hg_file_init) (delta_node chunk)
     = Ok base_file))) ->
  load_delta_base st chunk = Ok (set_last_file st base_file).
Proof.
  unfold load_delta_base, is_null_oid.
  intros [[Heq ->]|[Hne [[Hnull ->]|[Hnn Hload]]]].
  - rewrite Heq, N.eqb_refl. by destruct st.
  - destruct (N.eqb_spec (delta_node chunk) (hf_oid (last_file st)));
      [done|]. by rewrite Hnull.
  - destruct (N.eqb_spec (delta_node chunk) (hf_oid (last_file st)));
      [done|].
    destruct (N.eqb_spec (delta_node chunk) 0); [done|].
    rewrite Hload. reflexivity.
Qed.

(** C4, as amended: for a chunk whose node is not the empty-file node,
    [store_file] dies with "Malformed file chunk" exactly when some diff
    part, taken in order with [last_end] the end of the part before it (0
    at first), starts beyond the base, starts before [last_end], or ends
    beyond the base. The base is the revlog data of the last file stored
    when the chunk is a delta against its node, empty when the delta node
    is null, and what [hg_file_load] gives otherwise. With no such part
    [store_file] returns: the revlog data of the new file is the base
    with, part after part, the bytes up to the start of the part kept and
    its data put in, which for parts that start no later than they end is
    the replacement of each range by its data (the ranges are then in
    ascending order inside the base); the file is kept as the
    last file; the blob that hg2git records for the node is the one of
    the content part of that data, and the metadata part, when there is
    one, is the blob that files_meta records. *)
Theorem store_file_rejects_exactly st chunk base_file :
  is_empty_hg_file (node chunk) = false ->
  (delta_node chunk = hf_oid (last_file st) /\ base_file = last_file st) \/
  (delta_node chunk <> hf_oid (last_file st) /\
   ((delta_node chunk = 0%N /\ base_file = hg_file_init) \/
    (delta_node chunk <> 0%N /\
     hg_file_load (set_last_file st hg_file_init) (delta_node chunk)
     = Ok base_file))) ->
  let base := hf_file base_file in
  (store_file st chunk = Die "Malformed file chunk" <->
   some_diff_malformed (length base) 0 (diffs chunk)) /\
  (~ some_diff_malformed (length base) 0 (diffs chunk) ->
   let data := replace_ranges base 0 (diffs chunk) in
   exists st',
     store_file st chunk = Ok st' /\
     last_file st' = hg_file_from_memory (node chunk) data /\
     hg2git st'
     = <[node chunk := hash_object OBJ_BLOB (hg_file_split data).2]>
         (hg2git st) /\
     files_meta st'
     = match (hg_file_split data).1 with
       | Some metadata =>
         <[node chunk := hash_object OBJ_BLOB metadata]> (files_meta st)
       | None => files_meta st
       end /\
     is_Some (objects st' !! hash_object OBJ_BLOB (hg_file_split data).2) /\
     (Forall (fun d => (diff_start d <= diff_end d)%nat) (diffs chunk) ->
      ranges_in_order (length base) 0 (diffs chunk) /\
      data = foldr (fun d buf => replace_range buf d) base (diffs chunk))).
Proof.
  intros Hne Hcases base.
  pose proof (load_delta_base_cases st chunk base_file Hcases) as Hload.
  rewrite (store_file_unfold st chunk _ Hne Hload).
  cbn [last_file set_last_file]. fold base.
  pose proof (rebuild_malformed base (diffs chunk) [] 0%nat) as Hmal.
  split.
  - rewrite <- (or_r (length base < 0)%nat
                  (some_diff_malformed (length base) 0 (diffs chunk)))
      by lia.
    rewrite <- Hmal.
    destruct (rebuild base (diffs chunk) [] 0) as [data|msg| |];
      cbn [mbind result_mbind result_bind]; split; intros [=]; congruence.
  - intros Hok.
    rewrite (rebuild_replaces base (diffs chunk) [] 0%nat)
      by (intros [?|?]; [lia|done]).
    cbn [mbind result_mbind result_bind app].
    set (data := replace_ranges base 0 (diffs chunk)).
    set (file := hg_file_from_memory (node chunk) data).
    destruct (hg_file_store_effect (set_last_file st base_file) file)
      as (Hhg & Hmeta & Hobj).
    eexists. split; [reflexivity|].
    cbn [last_file hg2git files_meta objects set_last_file].
    split; [done|]. split; [exact Hhg|]. split; [exact Hmeta|].
    split; [exact Hobj|].
    intros Hall.
    pose proof (accepted_ranges_in_order _ _ _ Hok Hall) as Hord.
    split; [exact Hord|]. subst data.
    rewrite (replace_ranges_in_order base (diffs chunk) 0%nat Hord).
    by rewrite take_0.
Qed.

(** C8: for a chunk whose node is the empty-file node, [store_file]
    returns at once and leaves the whole state as it was: no object is
    stored, hg2git, files_meta and the last-file cache are unchanged. *)
Theorem store_file_empty_node st chunk :
  is_empty_hg_file (node chunk) = true ->
  exists st',
    store_file st chunk = Ok st' /\ st' = st /\
    objects st' = objects st /\ hg2git st' = hg2git st /\
    files_meta st' = files_meta st /\ last_file st' = last_file st.
Proof.
  intros Hempty. exists st. unfold store_file. by rewrite Hempty.
Qed.

End WithEnvironment.

(** *** A concrete environment *)

(** A stand-in for SHA-1: the bytes of the object, after its type code,
    read as a number and cut to 160 bits. *)
Definition example_hash (t : object_type) (data : bytes) : oid :=
  (fold_left (fun acc c => acc * 256 + N_of_ascii c) data
     match t with
     | OBJ_COMMIT => 1 | OBJ_TREE => 2 | OBJ_BLOB => 3 | OBJ_TAG => 4
     end mod 2 ^ 160)%N.

(** A session without marks. *)
Definition no_marks (st : state) (ref : bytes) : result oid :=
  Die "mark not declared".

Definition hg_node_1 : bytes := lit "1111111111111111111111111111111111111111".
Definition hg_node_2 : bytes := lit "2222222222222222222222222222222222222222".
Definition null_sha : bytes := lit "0000000000000000000000000000000000000000".

(** A changeset commit, and the metadata blob of the changeset
    [hg_node_1] that it was stored for. *)
Definition example_commit : bytes :=
  Heads.commit_buffer (lit "a changeset").
Definition example_metadata : bytes :=
  lit "changeset " ++ hg_node_1 ++ [LF].

Definition example_commit_oid : oid := example_hash OBJ_COMMIT example_commit.
Definition example_metadata_oid : oid := example_hash OBJ_BLOB example_metadata.

(** The state after [hg_node_1] was stored as [example_commit]. *)
Definition stored_changeset : state :=
  let st := empty_state in
  let st := set_objects st
              {[ example_commit_oid :=
                   {| obj_type := OBJ_COMMIT; obj_data := example_commit |};
                 example_metadata_oid :=
                   {| obj_type := OBJ_BLOB; obj_data := example_metadata |} ]} in
  let st := set_hg2git st {[ 0x1111111111111111111111111111111111111111%N
                             := example_commit_oid ]} in
  set_git2hg st {[ example_commit_oid := example_metadata_oid ]}.

Lemma stored_changeset_well_formed : git2hg_well_formed stored_changeset.
Proof.
  intros g note Hn. cbn in Hn. apply lookup_singleton_Some in Hn as [<- <-].
  exists example_metadata. split; [reflexivity|].
  exists hg_node_1, []. split; [reflexivity|]. split; [reflexivity|].
  apply (bool_decide_unpack _). vm_compute. exact I.
Qed.

Lemma stored_changeset_consistent : hg2git_consistent stored_changeset.
Proof.
  intros h g Hentry. cbn in Hentry.
  apply lookup_singleton_Some in Hentry as [<- <-].
  right. exists example_metadata_oid, example_metadata.
  split; [reflexivity|]. split; [reflexivity|]. vm_compute. reflexivity.
Qed.

Lemma do_set_changeset_resolves_conflict_witness :
  hg2git_consistent stored_changeset /\
  exists k st',
    (k <= size (git2hg stored_changeset))%nat /\
    do_set example_hash no_marks 1 stored_changeset
      [lit "changeset"; hg_node_2; oid_to_hex example_commit_oid] = Ok st' /\
    (forall i, (i < k)%nat ->
       names_other stored_changeset
         0x2222222222222222222222222222222222222222%N
         (candidate example_hash example_commit_oid example_commit i)) /\
    unused_or_own st' 0x2222222222222222222222222222222222222222%N
      (candidate example_hash example_commit_oid example_commit k) /\
    (forall i, (1 <= i <= k)%nat ->
       is_Some (objects st' !!
                  candidate example_hash example_commit_oid example_commit i)) /\
    hg2git st' =
      <[0x2222222222222222222222222222222222222222%N :=
          candidate example_hash example_commit_oid example_commit k]>
        (hg2git stored_changeset) /\
    git2hg st' = git2hg stored_changeset /\
    (forall h g,
       h <> 0x2222222222222222222222222222222222222222%N ->
       hg2git stored_changeset !! h = Some g ->
       (exists note content,
          get_note (git2hg stored_changeset) g = Some note /\
          read_object_file stored_changeset note = Some content /\
          check_git2hg_note content = Some h) ->
       candidate example_hash example_commit_oid example_commit k <> g) /\
    (hg2git_consistent stored_changeset ->
     hg2git_consistent st' /\ hg2git_injective_on_noted st').
Proof.
  split; [exact stored_changeset_consistent|].
  apply (do_set_changeset_resolves_conflict example_hash no_marks
           stored_changeset hg_node_2 (oid_to_hex example_commit_oid)
           0x2222222222222222222222222222222222222222%N
           example_commit_oid example_commit 1).
  - exact stored_changeset_well_formed.
  - vm_compute. reflexivity.
  - vm_compute. reflexivity.
  - vm_compute. reflexivity.
  - vm_compute. reflexivity.
  - apply (bool_decide_unpack _). vm_compute. exact I.
  - vm_compute. lia.
Defined.

(** Scenario S5: the second changeset that produces [example_commit] is
    recorded under the oid of the commit with one NUL appended. *)
Example second_changeset_gets_padded_commit :
  exists st',
    do_set example_hash no_marks 1 stored_changeset
      [lit "changeset"; hg_node_2; oid_to_hex example_commit_oid] = Ok st' /\
    hg2git st' !! 0x2222222222222222222222222222222222222222%N
      = Some (example_hash OBJ_COMMIT (example_commit ++ [NUL])) /\
    read_object_file st' (example_hash OBJ_COMMIT (example_commit ++ [NUL]))
      = Some (example_commit ++ [NUL]) /\
    example_hash OBJ_COMMIT (example_commit ++ [NUL]) <> example_commit_oid.
Proof.
  eexists. split; [vm_compute; reflexivity|].
  split; [vm_compute; reflexivity|]. split; [vm_compute; reflexivity|].
  vm_compute. discriminate.
Qed.

(** C1 as first stated fails: hg2git is not injective. Two file nodes with
    the same content are mapped to the one blob of that content; and two
    changesets set to the same commit before the metadata of the first is
    recorded are both mapped to it. *)
Lemma hg2git_not_injective_counterexample :
  let blob := example_hash OBJ_BLOB (lit "hello") in
  let st0 := set_objects empty_state
               {[ blob := {| obj_type := OBJ_BLOB; obj_data := lit "hello" |};
                  example_commit_oid :=
                    {| obj_type := OBJ_COMMIT; obj_data := example_commit |} ]} in
  (exists st1 st2,
     do_set example_hash no_marks 0 st0
       [lit "file"; hg_node_1; oid_to_hex blob] = Ok st1 /\
     do_set example_hash no_marks 0 st1
       [lit "file"; hg_node_2; oid_to_hex blob] = Ok st2 /\
     hg2git st2 !! 0x1111111111111111111111111111111111111111%N = Some blob /\
     hg2git st2 !! 0x2222222222222222222222222222222222222222%N = Some blob /\
     ~ hg2git_injective st2) /\
  (exists st1 st2,
     do_set example_hash no_marks 0 st0
       [lit "changeset"; hg_node_1; oid_to_hex example_commit_oid] = Ok st1 /\
     do_set example_hash no_marks 0 st1
       [lit "changeset"; hg_node_2; oid_to_hex example_commit_oid] = Ok st2 /\
     hg2git st2 !! 0x1111111111111111111111111111111111111111%N
       = Some example_commit_oid /\
     hg2git st2 !! 0x2222222222222222222222222222222222222222%N
       = Some example_commit_oid /\
     ~ hg2git_injective st2).
Proof.
  split.
  - eexists _, _. split; [vm_compute; reflexivity|].
    split; [vm_compute; reflexivity|].
    split; [vm_compute; reflexivity|]. split; [vm_compute; reflexivity|].
    intros Hinj.
    specialize (Hinj 0x1111111111111111111111111111111111111111%N
                  0x2222222222222222222222222222222222222222%N
                  (example_hash OBJ_BLOB (lit "hello"))).
    discriminate Hinj; vm_compute; reflexivity.
  - eexists _, _. split; [vm_compute; reflexivity|].
    split; [vm_compute; reflexivity|].
    split; [vm_compute; reflexivity|]. split; [vm_compute; reflexivity|].
    intros Hinj.
    specialize (Hinj 0x1111111111111111111111111111111111111111%N
                  0x2222222222222222222222222222222222222222%N
                  example_commit_oid).
    discriminate Hinj; vm_compute; reflexivity.
Qed.

Lemma do_set_null_removes_witness :
  exists st',
    do_set example_hash no_marks 0 stored_changeset
      [lit "manifest"; hg_node_1; null_sha] = Ok st' /\
    st' = set_hg2git stored_changeset
            (delete 0x1111111111111111111111111111111111111111%N
               (hg2git stored_changeset)) /\
    objects st' = objects stored_changeset /\
    manifest_heads st' = manifest_heads stored_changeset /\
    changeset_heads st' = changeset_heads stored_changeset.
Proof.
  apply (do_set_null_removes example_hash no_marks 0 stored_changeset
           (lit "manifest") hg_node_1 null_sha
           OBJ_COMMIT NOTES_hg2git true false
           0x1111111111111111111111111111111111111111%N).
  - vm_compute. reflexivity.
  - vm_compute. reflexivity.
  - vm_compute. reflexivity.
Defined.

(** Removal of a changeset's metadata goes through its hg2git entry. *)
Example do_set_null_removes_metadata :
  exists st',
    do_set example_hash no_marks 0 stored_changeset
      [lit "changeset-metadata"; hg_node_1; null_sha] = Ok st' /\
    git2hg st' = ∅ /\ hg2git st' = hg2git stored_changeset.
Proof.
  eexists. split; [vm_compute; reflexivity|]. split; reflexivity.
Qed.

(** A git2hg tree whose note for [example_commit] is cut short. *)
Definition truncated_metadata : state :=
  set_objects stored_changeset
    {[ example_commit_oid :=
         {| obj_type := OBJ_COMMIT; obj_data := example_commit |};
       example_metadata_oid :=
         {| obj_type := OBJ_BLOB; obj_data := lit "changeset 1111" |} ]}.

Lemma git2hg_note_validation_witness :
  handle_changeset_conflict_loop example_hash 1 truncated_metadata
    0x2222222222222222222222222222222222222222%N example_commit_oid []
  = Die "Invalid git2hg note" /\
  dies_with "Invalid git2hg note"
    (handle_changeset_conflict_loop example_hash 1 stored_changeset
       0x2222222222222222222222222222222222222222%N example_commit_oid [])
  = false.
Proof.
  split.
  - apply (proj1 (git2hg_note_validation example_hash) 1%nat
             truncated_metadata _ example_commit_oid []
             example_metadata_oid (lit "changeset 1111")).
    + vm_compute. reflexivity.
    + vm_compute. reflexivity.
    + left. cbn. lia.
  - apply (proj2 (git2hg_note_validation example_hash)).
    exact stored_changeset_well_formed.
Defined.

(** *** File chunks in the concrete environment *)

(** Modelled from the spec: [is_empty_hg_file] of [hg-data.h] compares the
    node with Mercurial's well-known node of the empty file. *)
Definition empty_hg_file : oid := 0xb80de5d138758541c5f05265ad144ab9fa86d1db%N.
Definition example_is_empty_hg_file (o : oid) : bool := N.eqb o empty_hg_file.

(** The two bytes that frame file metadata in revlog data. *)
Definition metadata_marker : bytes := ["001"%char; LF].

(** The bytes before and after the first [metadata_marker] in [s]. *)
Fixpoint split_at_marker (s : bytes) : option (bytes * bytes) :=
  match s with
  | [] => None
  | c :: tl =>
    match strip_prefix metadata_marker s with
    | Some rest => Some ([], rest)
    | None =>
      match split_at_marker tl with
      | Some (before, after) => Some (c :: before, after)
      | None => None
      end
    end
  end.

(** Modelled from the spec: [hg_file_from_memory] of [hg-data.c] splits
    off the metadata, a Mercurial-specific prefix inside the reconstructed
    data, framed by two [metadata_marker]s. *)
Definition example_hg_file_split (data : bytes) : option bytes * bytes :=
  match strip_prefix metadata_marker data with
  | Some rest =>
    match split_at_marker rest with
    | Some (metadata, content) => (Some metadata, content)
    | None => (None, data)
    end
  | None => (None, data)
  end.

(** Modelled from the spec: [hg_file_load] of [hg-data.c] loads the content
    of the node through hg2git, and the metadata through files_meta. *)
Definition example_hg_file_load (st : state) (o : oid) : result hg_file :=
  match get_note (hg2git st) o with
  | None => Die "Missing data"
  | Some g =>
    match read_object_file st g with
    | None => Undefined
    | Some content =>
      let metadata := get_note (files_meta st) o ≫= read_object_file st in
      Ok {| hf_oid := o;
            hf_file := match metadata with
                       | Some m => metadata_marker ++ m ++ metadata_marker
                                   ++ content
                       | None => content
                       end;
            hf_metadata := metadata;
            hf_content := content |}
    end
  end.

Definition example_store_file : state -> rev_chunk -> result state :=
  store_file example_hash example_is_empty_hg_file example_hg_file_load
    example_hg_file_split.

(** Scenario S1: a file without history. *)
Definition chunk_hello : rev_chunk :=
  {| node := 0x1111111111111111111111111111111111111111%N;
     parent1 := 0%N; parent2 := 0%N; delta_node := 0%N;
     diffs := [{| diff_start := 0; diff_end := 0;
                  diff_data := lit "hello" ++ [LF] |}] |}.

(** Scenario S2: a delta against the file of S1. *)
Definition chunk_HELLO : rev_chunk :=
  {| node := 0x2222222222222222222222222222222222222222%N;
     parent1 := 0x1111111111111111111111111111111111111111%N;
     parent2 := 0%N;
     delta_node := 0x1111111111111111111111111111111111111111%N;
     diffs := [{| diff_start := 0; diff_end := 6;
                  diff_data := lit "HELLO" ++ [LF] |}] |}.

Definition after_hello : state :=
  match example_store_file empty_state chunk_hello with
  | Ok st => st
  | _ => empty_state
  end.

Example store_file_S1 :
  example_store_file empty_state chunk_hello = Ok after_hello /\
  (hg2git after_hello !! 0x1111111111111111111111111111111111111111%N)
    ≫= read_object_file after_hello = Some (lit "hello" ++ [LF]).
Proof. split; vm_compute; reflexivity. Qed.

Example store_file_S2 :
  exists st,
    example_store_file after_hello chunk_HELLO = Ok st /\
    (hg2git st !! 0x2222222222222222222222222222222222222222%N)
      ≫= read_object_file st = Some (lit "HELLO" ++ [LF]).
Proof. eexists. split; vm_compute; reflexivity. Qed.

(** A delta whose second part starts before the end of the first. *)
Definition chunk_overlapping : rev_chunk :=
  {| node := 0x3333333333333333333333333333333333333333%N;
     parent1 := 0x1111111111111111111111111111111111111111%N;
     parent2 := 0%N;
     delta_node := 0x1111111111111111111111111111111111111111%N;
     diffs := [{| diff_start := 0; diff_end := 4; diff_data := lit "J" |};
               {| diff_start := 2; diff_end := 6; diff_data := [] |}] |}.

Example store_file_overlapping :
  example_store_file after_hello chunk_overlapping
  = Die "Malformed file chunk".
Proof. vm_compute. reflexivity. Qed.

Lemma store_file_rejects_exactly_witness :
  let base := hf_file (last_file after_hello) in
  (example_is_empty_hg_file (node chunk_HELLO) = false /\
   delta_node chunk_HELLO = hf_oid (last_file after_hello)) /\
  (example_store_file after_hello chunk_HELLO = Die "Malformed file chunk" <->
   some_diff_malformed (length base) 0 (diffs chunk_HELLO)) /\
  (~ some_diff_malformed (length base) 0 (diffs chunk_HELLO) ->
   let data := replace_ranges base 0 (diffs chunk_HELLO) in
   exists st',
     example_store_file after_hello chunk_HELLO = Ok st' /\
     last_file st'
     = hg_file_from_memory example_hg_file_split (node chunk_HELLO) data /\
     hg2git st'
     = <[node chunk_HELLO :=
           example_hash OBJ_BLOB (example_hg_file_split data).2]>
         (hg2git after_hello) /\
     files_meta st'
     = match (example_hg_file_split data).1 with
       | Some metadata =>
         <[node chunk_HELLO := example_hash OBJ_BLOB metadata]>
           (files_meta after_hello)
       | None => files_meta after_hello
       end /\
     is_Some (objects st'
                !! example_hash OBJ_BLOB (example_hg_file_split data).2) /\
     (Forall (fun d => (diff_start d <= diff_end d)%nat)
        (diffs chunk_HELLO) ->
      ranges_in_order (length base) 0 (diffs chunk_HELLO) /\
      data = foldr (fun d buf => replace_range buf d) base
               (diffs chunk_HELLO))).
Proof.
  intros base.
  assert (example_is_empty_hg_file (node chunk_HELLO) = false) as Hne
    by (vm_compute; reflexivity).
  assert (delta_node chunk_HELLO = hf_oid (last_file after_hello)) as Hdelta
    by (vm_compute; reflexivity).
  split; [exact (conj Hne Hdelta)|].
  apply (store_file_rejects_exactly example_hash example_is_empty_hg_file
           example_hg_file_load example_hg_file_split
           after_hello chunk_HELLO (last_file after_hello) Hne).
  left. split; [exact Hdelta|reflexivity].
Defined.

(** A chunk for the node of the empty file whose only part starts beyond
    the (empty) base. *)
Definition chunk_empty_out_of_range : rev_chunk :=
  {| node := empty_hg_file; parent1 := 0%N; parent2 := 0%N;
     delta_node := 0%N;
     diffs := [{| diff_start := 5; diff_end := 5; diff_data := [] |}] |}.

(** The revlog data of a file with a metadata header. *)
Definition copied_hello : bytes :=
  metadata_marker ++ lit "copy: a" ++ [LF] ++ metadata_marker
  ++ lit "hello" ++ [LF].

Definition chunk_copied_hello : rev_chunk :=
  {| node := 0x4444444444444444444444444444444444444444%N;
     parent1 := 0%N; parent2 := 0%N; delta_node := 0%N;
     diffs := [{| diff_start := 0; diff_end := 0;
                  diff_data := copied_hello |}] |}.

(** C4 as first stated fails, twice. A chunk for the empty-file node is
    never rejected, whatever its parts. And the blob stored for a file
    whose data has a metadata header holds the content behind the header,
    not the base with the ranges replaced. *)
Lemma store_file_claim_counterexample :
  (some_diff_malformed (length (hf_file (last_file empty_state))) 0
     (diffs chunk_empty_out_of_range) /\
   example_store_file empty_state chunk_empty_out_of_range = Ok empty_state) /\
  (~ some_diff_malformed (length (hf_file (last_file empty_state))) 0
       (diffs chunk_copied_hello) /\
   replace_ranges (hf_file (last_file empty_state)) 0
     (diffs chunk_copied_hello) = copied_hello /\
   exists st',
     example_store_file empty_state chunk_copied_hello = Ok st' /\
     (hg2git st' !! node chunk_copied_hello) ≫= read_object_file st'
     = Some (lit "hello" ++ [LF]) /\
     lit "hello" ++ [LF] <> copied_hello).
Proof.
  split.
  - split; [left; cbn; lia|]. vm_compute. reflexivity.
  - split.
    { cbn. intros [H|[H|[H|H]]]; [lia|lia|lia|done]. }
    split; [vm_compute; reflexivity|].
    eexists. split; [vm_compute; reflexivity|].
    split; [vm_compute; reflexivity|]. discriminate.
Qed.

(** The empty file of Mercurial, as a chunk. *)
Definition chunk_empty_file : rev_chunk :=
  {| node := empty_hg_file; parent1 := 0%N; parent2 := 0%N;
     delta_node := 0%N; diffs := [] |}.

Lemma store_file_empty_node_witness :
  exists st',
    example_store_file after_hello chunk_empty_file = Ok st' /\
    st' = after_hello /\
    objects st' = objects after_hello /\ hg2git st' = hg2git after_hello /\
    files_meta st' = files_meta after_hello /\
    last_file st' = last_file after_hello.
Proof.
  apply (store_file_empty_node example_hash example_is_empty_hg_file
           example_hg_file_load example_hg_file_split
           after_hello chunk_empty_file).
  vm_compute. reflexivity.
Defined.

End Core.

(** ** ManifestStore: the mirror tree and the two strategies *)

Module Manifest.

(** *** String slices ([strslice.h]) *)

(** The bytes before and after the first [c] in [s]. *)
Fixpoint split_at (c : ascii) (s : bytes) : option (bytes * bytes) :=
  match s with
  | [] => None
  | x :: tl =>
    if Ascii.eqb x c then Some ([], tl)
    else match split_at c tl with
         | Some (before, after) => Some (x :: before, after)
         | None => None
         end
  end.

(** [strslice_split_once]: the part before the first [c], and the slice
    moved past that [c]; an empty part and the slice as it was when there
    is none. *)
Definition strslice_split_once (slice : bytes) (c : ascii) : bytes * bytes :=
  match split_at c slice with
  | Some r => r
  | None => ([], slice)
  end.

(** *** Manifest lines *)

(** [struct manifest_line]. *)
Record manifest_line := {
  path : bytes;
  line_oid : oid;
  attr : ascii
}.

(** [split_manifest_line]: the line at the head of the slice and the slice
    after it; [None] is the [-1] of the C function. *)
Definition split_manifest_line (slice : bytes)
  : option (manifest_line * bytes) :=
  let '(path, slice) := strslice_split_once slice NUL in
  if (length path =? 0)%nat then None
  else if (length slice <? 41)%nat then None
  else
    match get_sha1_hex slice with
    | None => None
    | Some o =>
      let slice := drop 40 slice in
      match slice with
      | [] => None
      | a :: _ =>
        let r :=
          if Ascii.eqb a "l" || Ascii.eqb a "x" then Some (a, drop 1 slice)
          else if Ascii.eqb a LF then Some (NUL, slice)
          else None in
        match r with
        | None => None
        | Some (a, slice) =>
          match slice with
          | c :: slice' =>
            if Ascii.eqb c LF then
              Some ({| path := path; line_oid := o; attr := a |}, slice')
            else None
          | [] => None
          end
        end
      end
    end.

(** The lines [split_manifest_line] yields from a slice until it fails. *)
Fixpoint manifest_lines (fuel : nat) (slice : bytes) : list manifest_line :=
  match fuel with
  | O => []
  | S fuel =>
    match split_manifest_line slice with
    | Some (line, rest) => line :: manifest_lines fuel rest
    | None => []
    end
  end.

(** [manifest_metadata_path]: every component of the path gets the prefix
    [_]. *)
Fixpoint manifest_metadata_path_loop (fuel : nat) (out inp : bytes) : bytes :=
  match fuel with
  | O => out
  | S fuel =>
    match split_at "/" inp with
    | Some (part, rest) =>
      manifest_metadata_path_loop fuel (out ++ "_"%char :: part ++ ["/"%char])
        rest
    | None => out ++ "_"%char :: inp
    end
  end.

Definition manifest_metadata_path (inp : bytes) : bytes :=
  manifest_metadata_path_loop (S (length inp)) [] inp.

(** *** fast-import's tree entries *)

(** [0170000], [0040000] and the gitlink modes of manifest entries:
    [0160644], [0160755], [0160000]. *)
Definition S_IFMT : N := 61440.
Definition S_IFDIR : N := 16384.
Definition MODE_REGULAR : N := 57764.
Definition MODE_EXEC : N := 57837.
Definition MODE_LINK : N := 57344.

Definition S_ISDIR (m : N) : bool := N.eqb (N.land m S_IFMT) S_IFDIR.

(** [struct tree_entry]: the name, [versions[1].mode], [versions[1].oid],
    and the entries of [tree] when it is loaded. *)
#[local] Set Warnings "-register-all".
Inductive tree_entry := TreeEntry {
  te_name : bytes;
  te_mode : N;
  te_oid : oid;
  te_tree : option (list tree_entry)
}.

Definition set_mode (e : tree_entry) (m : N) : tree_entry :=
  TreeEntry (te_name e) m (te_oid e) (te_tree e).
Definition set_oid (e : tree_entry) (o : oid) : tree_entry :=
  TreeEntry (te_name e) (te_mode e) o (te_tree e).
Definition set_tree (e : tree_entry) (t : option (list tree_entry))
  : tree_entry :=
  TreeEntry (te_name e) (te_mode e) (te_oid e) t.

(** The components of a path between its slashes, as [strchrnul] cuts
    them. *)
Fixpoint path_components (fuel : nat) (p : bytes) : list bytes :=
  match fuel with
  | O => [p]
  | S fuel =>
    match split_at "/" p with
    | Some (c, rest) => c :: path_components fuel rest
    | None => [p]
    end
  end.

(** The first entry named [n], with its index. *)
Fixpoint find_entry (n : bytes) (i : nat) (es : list tree_entry)
  : option (nat * tree_entry) :=
  match es with
  | [] => None
  | e :: es' =>
    if bool_decide (te_name e = n) then Some (i, e)
    else find_entry n (S i) es'
  end.

(** [struct tree_iter]. The entries of the directory under iteration are
    held here; [manifest_tree_leave_dir] hands them back to the entry of
    the parent, which in C shares them by pointer. *)
Record tree_iter := {
  it_tree : option (list tree_entry);
  next_entry : nat;
  remaining_entry_count : nat;
  modified : bool
}.

(** [struct manifest_tree]; the head of [stack] is its top. *)
Record manifest_tree := {
  root : tree_entry;
  stack : list tree_iter;
  prefix_len : nat;
  iter : tree_iter
}.

(** [struct branch] as the manifest store uses it. *)
Record branch := { b_oid : oid; branch_tree : tree_entry }.

(** [new_branch]: no commit, an unloaded root directory. *)
Definition new_branch : branch :=
  {| b_oid := 0%N;
     branch_tree := TreeEntry [] S_IFDIR 0%N None |}.

(** The state of the manifest store: the engine and the statics
    [last_manifest_oid], [last_manifest], [last_manifest_content]. *)
Record mstate := {
  core : Core.state;
  last_manifest_oid : oid;
  last_manifest : branch;
  last_manifest_content : bytes
}.

Definition initial_mstate (c : Core.state) : mstate :=
  {| core := c; last_manifest_oid := 0%N; last_manifest := new_branch;
     last_manifest_content := [] |}.

Section WithStore.

Variable hash_object : Core.object_type -> bytes -> oid.

(** [load_tree]'s reading of a tree object: its entries, none of them
    loaded; the process dies when the object is missing or no tree. *)
Variable read_tree : Core.state -> oid -> result (list tree_entry).

(** [generate_manifest]: the manifest text of a stored manifest commit. *)
Variable generate_manifest : Core.state -> oid -> bytes.

(** [(cinnabar_check & CHECK_MANIFESTS) && !check_manifest(oid, NULL)]. *)
Variable check_manifest_fails : Core.state -> oid -> bool.

(** The byte at a position past the end of [last_manifest_content] and its
    terminating NUL, which the line checks of [old_store_manifest] may
    read. *)
Variable slack : nat -> ascii.

(** [load_tree]: the entries of the tree object, none for the null oid. *)
Definition load_tree (st : Core.state) (e : tree_entry)
  : result (list tree_entry) :=
  if is_null_oid (te_oid e) then Ok [] else read_tree st (te_oid e).

(** [if (!e->tree) load_tree(e);] *)
Definition loaded (st : Core.state) (e : tree_entry)
  : result (list tree_entry) :=
  match te_tree e with
  | Some es => Ok es
  | None => load_tree st e
  end.

(** [tree_content_set(root, p, oid, mode, NULL)] along the components of
    [p]; the boolean is its return value. *)
Fixpoint tree_content_set (st : Core.state) (comps : list bytes)
  (root : tree_entry) (o : oid) (mode : N) : result (bool * tree_entry) :=
  match comps with
  | [] => Die "Empty path component found in input"
  | c :: rest =>
    if (length c =? 0)%nat then Die "Empty path component found in input"
    else
      let* es := loaded st root in
      match find_entry c 0 es with
      | Some (i, e) =>
        match rest with
        | [] =>
          if negb (S_ISDIR mode) && N.eqb (te_mode e) mode
             && N.eqb (te_oid e) o
          then Ok (false, set_tree root (Some es))
          else
            Ok (true,
                set_oid (set_tree root
                           (Some (<[i := TreeEntry (te_name e) mode o None]> es)))
                  0%N)
        | _ =>
          let e := if S_ISDIR (te_mode e) then e
                   else set_mode (set_tree e (Some [])) S_IFDIR in
          let* (changed, e') := tree_content_set st rest e o mode in
          let root := set_tree root (Some (<[i := e']> es)) in
          if changed then Ok (true, set_oid root 0%N) else Ok (false, root)
        end
      | None =>
        match rest with
        | [] =>
          Ok (true,
              set_oid (set_tree root (Some (es ++ [TreeEntry c mode o None])))
                0%N)
        | _ =>
          let* (_, e') :=
            tree_content_set st rest (TreeEntry c S_IFDIR 0%N (Some []))
              o mode in
          Ok (true, set_oid (set_tree root (Some (es ++ [e']))) 0%N)
        end
      end
  end.

(** [del_entry:] of [tree_content_remove]. *)
Definition del_entry (e : tree_entry) : tree_entry :=
  TreeEntry (te_name e) 0%N 0%N None.

(** [tree_content_remove(root, p, NULL, allow_root)]; the boolean is its
    return value. *)
Fixpoint tree_content_remove (st : Core.state) (comps : list bytes)
  (root : tree_entry) (allow_root : bool) : result (bool * tree_entry) :=
  match comps with
  | [] => Ok (false, root)
  | c :: rest =>
    let* es := loaded st root in
    let root := set_tree root (Some es) in
    if (length c =? 0)%nat && bool_decide (rest = []) && allow_root
    then Ok (true, set_oid (del_entry root) 0%N)
    else
      match find_entry c 0 es with
      | None => Ok (false, root)
      | Some (i, e) =>
        match rest with
        | [] =>
          Ok (true, set_oid (set_tree root (Some (<[i := del_entry e]> es)))
                      0%N)
        | _ =>
          if negb (S_ISDIR (te_mode e)) then Ok (true, root)
          else
            let* (removed, e') := tree_content_remove st rest e false in
            if removed then
              let live :=
                existsb (fun x => negb (N.eqb (te_mode x) 0))
                  (default [] (te_tree e')) in
              let e' := if live then e' else del_entry e' in
              Ok (true, set_oid (set_tree root (Some (<[i := e']> es))) 0%N)
            else Ok (false, set_tree root (Some (<[i := e']> es)))
        end
      end
  end.

(** *** Writing a tree out *)

(** [base_name_compare] on the byte after the common prefix: a directory
    name counts as ending in a slash. *)
Fixpoint base_name_compare (n1 : bytes) (dir1 : bool) (n2 : bytes)
  (dir2 : bool) : comparison :=
  match n1, n2 with
  | c1 :: t1, c2 :: t2 =>
    match N.compare (N_of_ascii c1) (N_of_ascii c2) with
    | Eq => base_name_compare t1 dir1 t2 dir2
    | r => r
    end
  | _, _ =>
    let end_byte (n : bytes) (dir : bool) : N :=
      match n with
      | c :: _ => N_of_ascii c
      | [] => if dir then 47%N else 0%N
      end in
    N.compare (end_byte n1 dir1) (end_byte n2 dir2)
  end.

(** [tecmp1]. *)
Definition tecmp1 (a b : tree_entry) : comparison :=
  base_name_compare (te_name a) (S_ISDIR (te_mode a))
    (te_name b) (S_ISDIR (te_mode b)).

(** [QSORT(t->entries, t->entry_count, tecmp1)], as an insertion sort. *)
Fixpoint sort_insert (e : tree_entry) (es : list tree_entry)
  : list tree_entry :=
  match es with
  | [] => [e]
  | x :: es' =>
    match tecmp1 e x with
    | Gt => x :: sort_insert e es'
    | _ => e :: es
    end
  end.

Definition sort_entries (es : list tree_entry) : list tree_entry :=
  foldr sort_insert [] es.

(** The digits of [printf("%o")]. *)
Fixpoint octal_digits (fuel : nat) (v : N) (acc : bytes) : bytes :=
  match fuel with
  | O => acc
  | S fuel =>
    let acc := ascii_of_N (48 + v mod 8) :: acc in
    if N.eqb (v / 8) 0 then acc else octal_digits fuel (v / 8)%N acc
  end.

(** The 20 raw bytes of an oid. *)
Fixpoint raw_bytes (n : nat) (v : N) (acc : bytes) : bytes :=
  match n with
  | O => acc
  | S n => raw_bytes n (v / 256)%N (ascii_of_N (v mod 256) :: acc)
  end.

(** [mktree(t, 1, b)] after the sort: the entries with a mode, as
    [<octal mode> <name>\0<raw oid>]. *)
Definition mktree (es : list tree_entry) : bytes :=
  flat_map
    (fun e =>
       if N.eqb (te_mode e) 0 then []
       else octal_digits 6 (te_mode e) [] ++ " "%char :: te_name e
            ++ NUL :: raw_bytes 20 (te_oid e) [])
    es.

(** [store_tree(root)]: a directory whose oid was cleared is written out,
    its loaded subdirectories first; its entries end up sorted, the
    deleted ones dropped. *)
Fixpoint store_tree (st : Core.state) (e : tree_entry)
  : result (Core.state * tree_entry) :=
  if negb (is_null_oid (te_oid e)) then Ok (st, e)
  else
    let* (st, es) :=
      match e with
      | TreeEntry _ _ _ (Some es) =>
        (fix store_entries (st : Core.state) (es : list tree_entry)
           : result (Core.state * list tree_entry) :=
           match es with
           | [] => Ok (st, [])
           | x :: es' =>
             let* (st, x') := match te_tree x with
                              | Some _ => store_tree st x
                              | None => Ok (st, x)
                              end in
             let* (st, es'') := store_entries st es' in
             Ok (st, x' :: es'')
           end) st es
      | TreeEntry _ _ _ None =>
        (* if (!root->tree) load_tree(root): no entry of it is loaded *)
        let* es := load_tree st e in Ok (st, es)
      end in
    let sorted := sort_entries es in
    let '(st, o) := Core.store_object hash_object st Core.OBJ_TREE
                      (mktree sorted) in
    Ok (st,
        TreeEntry (te_name e) (te_mode e) o
          (Some (filter (fun x => te_mode x <> 0%N) sorted))).

(** *** The tree iterators of the tree-walk strategy *)

(** [tree_start_iter]. *)
Definition tree_start_iter (t : option (list tree_entry)) : tree_iter :=
  {| it_tree := t; next_entry := 0; remaining_entry_count := 0;
     modified := false |}.

(** [iter->tree->entry_count], 0 for a null tree. *)
Definition entry_count (it : tree_iter) : nat :=
  length (default [] (it_tree it)).

(** [tree_next_entry]: the entry at [next_entry], and the iterator moved
    past it. *)
Definition tree_next_entry (it : tree_iter) : option (tree_entry * tree_iter) :=
  match it_tree it with
  | None => None
  | Some es =>
    match es !! next_entry it with
    | None => None
    | Some e =>
      Some (e, {| it_tree := it_tree it; next_entry := S (next_entry it);
                  remaining_entry_count := remaining_entry_count it;
                  modified := modified it |})
    end
  end.

(** [tree_current_entry]: the entry [tree_next_entry] returned last;
    [None] where the C code would fail its [assert] or read no entry. *)
Definition tree_current_entry (it : tree_iter) : option tree_entry :=
  match next_entry it with
  | O => None
  | S i => default [] (it_tree it) !! i
  end.

(** Writes through the pointer [tree_current_entry] returns. *)
Definition set_current_entry (it : tree_iter) (e : tree_entry) : tree_iter :=
  {| it_tree := (fun es => <[pred (next_entry it) := e]> es) <$> it_tree it;
     next_entry := next_entry it;
     remaining_entry_count := remaining_entry_count it;
     modified := modified it |}.

Definition set_modified (it : tree_iter) : tree_iter :=
  {| it_tree := it_tree it; next_entry := next_entry it;
     remaining_entry_count := remaining_entry_count it; modified := true |}.

Definition add_remaining (it : tree_iter) (n : nat) : tree_iter :=
  {| it_tree := it_tree it; next_entry := next_entry it;
     remaining_entry_count := remaining_entry_count it + n;
     modified := modified it |}.

(** [manifest_tree_init]. *)
Definition manifest_tree_init (r : tree_entry) : manifest_tree :=
  {| root := r; stack := []; prefix_len := 0;
     iter := tree_start_iter (te_tree r) |}.

(** [manifest_tree_enter_dir(tree, e)], for the entry [e] that
    [tree_next_entry] just returned. *)
Definition manifest_tree_enter_dir (st : Core.state) (t : manifest_tree)
  (e : tree_entry) : result manifest_tree :=
  if negb (S_ISDIR (te_mode e)) then Undefined
  else
    let* es := loaded st e in
    Ok {| root := root t; stack := iter t :: stack t;
          prefix_len := prefix_len t + length (te_name e);
          iter := tree_start_iter (Some es) |}.

(** [manifest_tree_leave_dir]: the return value, and the tree. At the
    root the entries go back to [root]; in a directory they go back to
    its entry in the parent, with the marks of a change. *)
Definition manifest_tree_leave_dir (t : manifest_tree)
  : result (bool * manifest_tree) :=
  match stack t with
  | [] =>
    let r := set_tree (root t) (it_tree (iter t)) in
    let r := if modified (iter t) then set_oid r 0%N else r in
    Ok (false, {| root := r; stack := []; prefix_len := prefix_len t;
                  iter := iter t |})
  | parent :: stack' =>
    let it := iter t in
    if negb (next_entry it =? entry_count it)%nat then Undefined
    else
      match tree_current_entry parent with
      | None => Undefined
      | Some e =>
        let e := set_tree e (it_tree it) in
        let e := if modified it then
                   let e := set_oid e 0%N in
                   if (remaining_entry_count it =? 0)%nat
                   then set_mode e 0%N else e
                 else e in
        let parent := set_current_entry parent e in
        let parent := if modified it then set_modified parent else parent in
        let parent := if (remaining_entry_count it =? 0)%nat then parent
                      else add_remaining parent 1 in
        Ok (true, {| root := root t; stack := stack';
                     prefix_len := prefix_len t - length (te_name e);
                     iter := parent |})
      end
  end.

(** The manifest line of a file entry under a prefix of [prefix_len]
    bytes: path with its NUL, 40 digits, the attribute, the newline. *)
Definition line_length (prefix_len : nat) (e : tree_entry) : nat :=
  prefix_len + length (te_name e) + 40
  + (if N.eqb (N.land (te_mode e) 511) 420 then 0 else 1) + 1.

(** [manifest_tree_advance(tree, length, delete)], with the step budget
    [fuel] of the model. *)
Fixpoint manifest_tree_advance (fuel : nat) (st : Core.state)
  (t : manifest_tree) (len : nat) (delete : bool)
  : result (bool * manifest_tree) :=
  if (len =? 0)%nat then Ok (true, t)
  else
    match fuel with
    | O => OutOfFuel
    | S fuel =>
      match tree_next_entry (iter t) with
      | None =>
        let* (went_up, t) := manifest_tree_leave_dir t in
        if went_up then manifest_tree_advance fuel st t len delete
        else Ok (false, t)
      | Some (e, it) =>
        let t := {| root := root t; stack := stack t;
                    prefix_len := prefix_len t; iter := it |} in
        if S_ISDIR (te_mode e) then
          let* t := manifest_tree_enter_dir st t e in
          manifest_tree_advance fuel st t len delete
        else
          let line_len := line_length (prefix_len t) e in
          if (len <? line_len)%nat then Ok (false, t)
          else
            let it :=
              if delete then
                set_modified
                  (set_current_entry it
                     (set_oid (set_mode e 0%N) 0%N))
              else add_remaining it 1 in
            manifest_tree_advance fuel st
              {| root := root t; stack := stack t;
                 prefix_len := prefix_len t; iter := it |}
              (len - line_len) delete
      end
    end.

(** [manifest_tree_finish]: the rest of every open directory counts as
    remaining, and every directory is left; the root comes back. *)
Fixpoint manifest_tree_finish (fuel : nat) (t : manifest_tree)
  : result tree_entry :=
  let it := iter t in
  let it := match it_tree it with
            | Some es =>
              {| it_tree := it_tree it; next_entry := length es;
                 remaining_entry_count :=
                   remaining_entry_count it + (length es - next_entry it);
                 modified := modified it |}
            | None => it
            end in
  let* (went_up, t) :=
    manifest_tree_leave_dir
      {| root := root t; stack := stack t; prefix_len := prefix_len t;
         iter := it |} in
  if went_up then
    match fuel with
    | O => OutOfFuel
    | S fuel => manifest_tree_finish fuel t
    end
  else Ok (root t).

(** *** Both strategies: reload, additions, commit *)

(** [parse_from_existing]: the tree a branch's commit names. *)
Definition parse_from_existing (st : Core.state) (b : branch) : result branch :=
  if is_null_oid (b_oid b) then
    Ok {| b_oid := b_oid b; branch_tree := set_oid (branch_tree b) 0%N |}
  else
    match Core.objects st !! b_oid b with
    | Some {| Core.obj_type := Core.OBJ_COMMIT; Core.obj_data := buf |} =>
      if (length buf <? 46)%nat then Die "Not a valid commit"
      else
        match Core.strip_prefix (lit "tree ") buf with
        | Some rest =>
          match get_sha1_hex rest with
          | Some o =>
            Ok {| b_oid := b_oid b; branch_tree := set_oid (branch_tree b) o |}
          | None => Die "The commit is corrupt"
          end
        | None => Die "The commit is corrupt"
        end
    | _ => Die "Not a valid commit"
    end.

(** The reload both strategies start with, when the chunk is a delta
    against a manifest other than the last one; [with_content] tells
    whether the manifest text is regenerated (the text-rebuild strategy). *)
Definition reload_manifest (with_content : bool) (ms : mstate)
  (delta : oid) : result mstate :=
  if negb (is_null_oid delta) && negb (N.eqb delta (last_manifest_oid ms))
  then
    match Core.get_note (Core.hg2git (core ms)) delta with
    | None => Die "Cannot find delta node"
    | Some note =>
      let b := {| b_oid := note;
                  branch_tree := set_tree (branch_tree (last_manifest ms))
                                   None |} in
      let* b := parse_from_existing (core ms) b in
      let* es := load_tree (core ms) (branch_tree b) in
      Ok {| core := core ms; last_manifest_oid := delta;
            last_manifest :=
              {| b_oid := b_oid b;
                 branch_tree := set_tree (branch_tree b) (Some es) |};
            last_manifest_content :=
              if with_content then generate_manifest (core ms) note
              else last_manifest_content ms |}
    end
  else Ok ms.

(** The mode of the entry a manifest line adds. *)
Definition mode_of_attr (a : ascii) : option N :=
  if Ascii.eqb a NUL then Some MODE_REGULAR
  else if Ascii.eqb a "x" then Some MODE_EXEC
  else if Ascii.eqb a "l" then Some MODE_LINK
  else None.

(** The path [tree_content_set] and [tree_content_remove] get for a
    manifest path. *)
Definition tree_path (p : bytes) : list bytes :=
  let p := manifest_metadata_path p in path_components (length p) p.

(** The inner [while] of the second loop: the lines of one diff are set. *)
Fixpoint add_lines (st : Core.state) (lines : list manifest_line)
  (tree : tree_entry) : result tree_entry :=
  match lines with
  | [] => Ok tree
  | line :: lines =>
    match mode_of_attr (attr line) with
    | None => Die "Malformed manifest chunk"
    | Some mode =>
      let* (_, tree) :=
        tree_content_set st (tree_path (path line)) tree (line_oid line)
          mode in
      add_lines st lines tree
    end
  end.

(** The second loop over the diffs: "Process added files". *)
Fixpoint add_files (st : Core.state) (ds : list Core.rev_diff_part)
  (tree : tree_entry) : result tree_entry :=
  match ds with
  | [] => Ok tree
  | d :: ds =>
    let data := Core.diff_data d in
    let* tree := add_lines st (manifest_lines (length data) data) tree in
    add_files st ds tree
  end.

(** [add_parent]: the [parent] line of a non-null parent; [None] is its
    [-1]. *)
Definition add_parent (ms : mstate) (data : bytes) (parent : oid)
  : option bytes :=
  if is_null_oid parent then Some data
  else
    let note := if N.eqb parent (last_manifest_oid ms)
                then Some (b_oid (last_manifest ms))
                else Core.get_note (Core.hg2git (core ms)) parent in
    match note with
    | None => None
    | Some note => Some (data ++ lit "parent " ++ oid_to_hex note ++ [LF])
    end.

(** From [store_tree] to the end of either strategy: the tree is written,
    the commit built and stored, hg2git and the manifest heads updated;
    [content] is the manifest text kept for the next chunk. *)
Definition emit_commit (ms : mstate) (chunk : Core.rev_chunk)
  (tree : tree_entry) (content : bytes) : result mstate :=
  let* (st, tree) := store_tree (core ms) tree in
  let data := lit "tree " ++ oid_to_hex (te_oid tree) ++ [LF] in
  match add_parent ms data (Core.parent1 chunk) with
  | None => Die "Malformed manifest chunk"
  | Some data =>
    match add_parent ms data (Core.parent2 chunk) with
    | None => Die "Malformed manifest chunk"
    | Some data =>
      let data := data ++ lit "author  <cinnabar@git> 0 +0000" ++ [LF]
                  ++ lit "committer  <cinnabar@git> 0 +0000" ++ [LF; LF]
                  ++ oid_to_hex (Core.node chunk) in
      let '(st, commit) :=
        Core.store_object hash_object st Core.OBJ_COMMIT data in
      let st := Core.set_hg2git st
                  (Core.add_note (Core.hg2git st) (Core.node chunk) commit) in
      let* st := Core.add_manifest_head st commit in
      if check_manifest_fails st commit then Die "sha1 mismatch"
      else
        Ok {| core := st; last_manifest_oid := Core.node chunk;
              last_manifest := {| b_oid := commit; branch_tree := tree |};
              last_manifest_content := content |}
    end
  end.

(** *** The text-rebuild strategy *)

(** [last_manifest_content.buf[i]]. *)
Definition byte_at (content : bytes) (i : nat) : ascii :=
  match content !! i with
  | Some c => c
  | None => if (i =? length content)%nat then NUL else slack i
  end.

(** The inner [while] of the first loop: the lines of a removed slice are
    removed from the tree. *)
Fixpoint remove_lines (st : Core.state) (lines : list manifest_line)
  (tree : tree_entry) : result tree_entry :=
  match lines with
  | [] => Ok tree
  | line :: lines =>
    let* (_, tree) :=
      tree_content_remove st (tree_path (path line)) tree true in
    remove_lines st lines tree
  end.

(** The first loop of [old_store_manifest] over the diffs: the new text is
    built in [data], and the removed files leave the tree. *)
Fixpoint old_remove_files (st : Core.state) (content : bytes)
  (ds : list Core.rev_diff_part) (data : bytes) (last_end : nat)
  (tree : tree_entry) : result (bytes * nat * tree_entry) :=
  match ds with
  | [] => Ok (data, last_end, tree)
  | d :: ds =>
    let start := Core.diff_start d in
    let end_ := Core.diff_end d in
    if (length content <? start)%nat || (start <? last_end)%nat
       || (end_ <? start)%nat
    then Die "Malformed manifest chunk"
    else
      let data := data ++ take (start - last_end) (drop last_end content)
                       ++ Core.diff_data d in
      if (0 <? start)%nat && negb (Ascii.eqb (byte_at content (start - 1)) LF)
      then Die "Malformed manifest chunk"
      else if (0 <? end_)%nat
              && negb (Ascii.eqb (byte_at content (end_ - 1)) LF)
      then Die "Malformed manifest chunk"
      else
        let slice := take (end_ - start) (drop start content) in
        let* tree :=
          remove_lines st (manifest_lines (length slice) slice) tree in
        old_remove_files st content ds data end_ tree
  end.

(** [old_store_manifest(chunk)]. *)
Definition old_store_manifest (ms : mstate) (chunk : Core.rev_chunk)
  : result mstate :=
  let* ms := reload_manifest true ms (Core.delta_node chunk) in
  let content := last_manifest_content ms in
  let* (data, last_end, tree) :=
    old_remove_files (core ms) content (Core.diffs chunk) [] 0
      (branch_tree (last_manifest ms)) in
  let* tree := add_files (core ms) (Core.diffs chunk) tree in
  if (length content <? last_end)%nat then Die "Malformed manifest chunk"
  else
    let data := data ++ drop last_end content in
    emit_commit ms chunk tree data.

(** *** The tree-walk strategy *)

(** The first loop of [new_store_manifest] over the diffs. *)
Fixpoint new_remove_files (fuel : nat) (st : Core.state)
  (ds : list Core.rev_diff_part) (last_end : nat) (t : manifest_tree)
  : result manifest_tree :=
  match ds with
  | [] => Ok t
  | d :: ds =>
    let start := Core.diff_start d in
    let end_ := Core.diff_end d in
    if (start <? last_end)%nat || (end_ <? start)%nat
    then Die "Malformed manifest chunk"
    else
      let* (ok, t) :=
        manifest_tree_advance fuel st t (start - last_end) false in
      if negb ok then Die "Malformed manifest chunk"
      else
        let* (ok, t) := manifest_tree_advance fuel st t (end_ - start) true in
        if negb ok then Die "Malformed manifest chunk"
        else new_remove_files fuel st ds end_ t
  end.

(** [new_store_manifest(chunk)]. *)
Definition new_store_manifest (fuel : nat) (ms : mstate)
  (chunk : Core.rev_chunk) : result mstate :=
  let* ms := reload_manifest false ms (Core.delta_node chunk) in
  let t := manifest_tree_init (branch_tree (last_manifest ms)) in
  let* t := new_remove_files fuel (core ms) (Core.diffs chunk) 0 t in
  let* tree := manifest_tree_finish (length (stack t)) t in
  let* tree := add_files (core ms) (Core.diffs chunk) tree in
  emit_commit ms chunk tree (last_manifest_content ms).

(** [store_manifest]: [experiment] is
    [cinnabar_experiments & EXPERIMENT_STORE]. *)
Definition store_manifest (experiment : bool) (fuel : nat) (ms : mstate)
  (chunk : Core.rev_chunk) : result mstate :=
  if experiment then new_store_manifest fuel ms chunk
  else old_store_manifest ms chunk.

(** *** The two passes *)

(** The diffs without their added data: what the first pass may look at. *)
Definition ranges_only (ds : list Core.rev_diff_part)
  : list Core.rev_diff_part :=
  map (fun d => {| Core.diff_start := Core.diff_start d;
                   Core.diff_end := Core.diff_end d;
                   Core.diff_data := [] |}) ds.

(** The mirror tree after the first pass of either strategy. *)
Definition removal_pass (experiment : bool) (fuel : nat) (ms : mstate)
  (ds : list Core.rev_diff_part) : result tree_entry :=
  if experiment then
    let* t := new_remove_files fuel (core ms) ds 0
                (manifest_tree_init (branch_tree (last_manifest ms))) in
    manifest_tree_finish (length (stack t)) t
  else
    let* (_, tree) :=
      old_remove_files (core ms) (last_manifest_content ms) ds [] 0
        (branch_tree (last_manifest ms)) in
    Ok tree.

(** The manifest text the text-rebuild strategy keeps. *)
Definition rebuilt_text (ms : mstate) (ds : list Core.rev_diff_part)
  : result bytes :=
  let content := last_manifest_content ms in
  let* (data, last_end, _) :=
    old_remove_files (core ms) content ds [] 0
      (branch_tree (last_manifest ms)) in
  if (length content <? last_end)%nat then Die "Malformed manifest chunk"
  else Ok (data ++ drop last_end content).

Lemma old_remove_files_ranges st content ds :
  forall data data' last_end tree,
    match old_remove_files st content ds data last_end tree,
          old_remove_files st content (ranges_only ds) data' last_end tree with
    | Ok (_, e, t), Ok (_, e', t') => e = e' /\ t = t'
    | Die m, Die m' => m = m'
    | Undefined, Undefined => True
    | OutOfFuel, OutOfFuel => True
    | _, _ => False
    end.
Proof.
  induction ds as [|d ds IH]; intros data data' last_end tree; [done|].
  cbn [ranges_only map old_remove_files Core.diff_start Core.diff_end
       Core.diff_data].
  destruct (_ || _); [done|].
  destruct (_ && _); [done|].
  destruct (_ && _); [done|].
  destruct (remove_lines _ _ _) as [tree'| | |]; cbn; try done.
  apply IH.
Qed.

Lemma new_remove_files_ranges fuel st ds :
  forall last_end t,
    new_remove_files fuel st (ranges_only ds) last_end t
    = new_remove_files fuel st ds last_end t.
Proof.
  induction ds as [|d ds IH]; intros last_end t; [done|].
  cbn [ranges_only map new_remove_files Core.diff_start Core.diff_end].
  destruct (_ || _); [done|].
  destruct (manifest_tree_advance _ _ _ _ _) as [[[] t1]| | |];
    cbn; try reflexivity.
  destruct (manifest_tree_advance _ _ _ _ _) as [[[] t2]| | |];
    cbn; try reflexivity.
  apply IH.
Qed.

Lemma store_manifest_passes experiment fuel ms chunk :
  store_manifest experiment fuel ms chunk =
    let* ms1 := reload_manifest (negb experiment) ms (Core.delta_node chunk) in
    let* tree1 :=
      removal_pass experiment fuel ms1 (ranges_only (Core.diffs chunk)) in
    let* tree2 := add_files (core ms1) (Core.diffs chunk) tree1 in
    let* content := if experiment then Ok (last_manifest_content ms1)
                    else rebuilt_text ms1 (Core.diffs chunk) in
    emit_commit ms1 chunk tree2 content.
Proof.
  unfold store_manifest, new_store_manifest, old_store_manifest, removal_pass,
    rebuilt_text.
  destruct experiment; cbn [negb].
  - destruct (reload_manifest _ _ _) as [ms1| | |]; cbn; try reflexivity.
    rewrite new_remove_files_ranges.
    destruct (new_remove_files _ _ _ _ _) as [t| | |]; cbn; reflexivity.
  - destruct (reload_manifest _ _ _) as [ms1| | |]; cbn; try reflexivity.
    pose proof (old_remove_files_ranges (core ms1) (last_manifest_content ms1)
                  (Core.diffs chunk) [] [] 0
                  (branch_tree (last_manifest ms1))) as H.
    destruct (old_remove_files _ _ (Core.diffs chunk) _ _ _)
      as [[[data last_end] tree]|m | |];
      destruct (old_remove_files _ _ (ranges_only _) _ _ _)
      as [[[data' last_end'] tree']|m' | |]; cbn; try done.
    + destruct H as [-> ->].
      destruct (add_files _ _ _) as [tree2| | |]; cbn; try done.
      destruct last_end' as [|m]; [done|].
      destruct (_ <=? _)%nat; done.
    + by subst.
Qed.

(** *** A removal and an addition at the same offset *)

Lemma get_hex_app n : forall s s' acc,
  length s = n -> get_hex n (s ++ s') acc = get_hex n s acc.
Proof.
  induction n as [|n IH]; intros [|c s] s' acc Hlen; try done.
  cbn. destruct (hexval c); [|done]. apply IH. by injection Hlen.
Qed.

Lemma split_at_app c p rest :
  c ∉ p -> split_at c (p ++ c :: rest) = Some (p, rest).
Proof.
  induction p as [|x p IH]; intros Hc; cbn.
  - by rewrite Ascii.eqb_refl.
  - destruct (Ascii.eqb_spec x c) as [->|_]; [set_solver|].
    rewrite IH; [done|set_solver].
Qed.

(** The manifest line of a file: path, NUL, 40 digits, attribute, LF. *)
Definition attr_bytes (a : ascii) : bytes :=
  if Ascii.eqb a NUL then [] else [a].

Lemma split_manifest_line_line p hex o a rest :
  p <> [] -> NUL ∉ p -> length hex = 40%nat -> get_sha1_hex hex = Some o ->
  a = NUL \/ a = "l"%char \/ a = "x"%char ->
  split_manifest_line (p ++ NUL :: hex ++ attr_bytes a ++ LF :: rest)
  = Some ({| path := p; line_oid := o; attr := a |}, rest).
Proof.
  intros Hp Hnul Hlen Hhex Ha. unfold split_manifest_line, strslice_split_once.
  rewrite split_at_app by done.
  destruct p as [|c p]; [done|]. cbn [length Nat.eqb].
  replace (length (hex ++ attr_bytes a ++ LF :: rest) <? 41)%nat with false.
  2:{ symmetry. apply Nat.ltb_ge. rewrite !length_app. cbn. lia. }
  unfold get_sha1_hex in *. rewrite get_hex_app, Hhex by done.
  rewrite drop_app_length' by done.
  destruct Ha as [->|[->| ->]]; reflexivity.
Qed.

Lemma manifest_tree_advance_0 fuel st t delete :
  manifest_tree_advance fuel st t 0 delete = Ok (true, t).
Proof. by destruct fuel. Qed.

Lemma manifest_tree_advance_S fuel st t len delete :
  len <> 0%nat ->
  manifest_tree_advance (S fuel) st t len delete =
    match tree_next_entry (iter t) with
    | None =>
      let* (went_up, t) := manifest_tree_leave_dir t in
      if went_up then manifest_tree_advance fuel st t len delete
      else Ok (false, t)
    | Some (e, it) =>
      let t := {| root := root t; stack := stack t;
                  prefix_len := prefix_len t; iter := it |} in
      if S_ISDIR (te_mode e) then
        let* t := manifest_tree_enter_dir st t e in
        manifest_tree_advance fuel st t len delete
      else
        let line_len := line_length (prefix_len t) e in
        if (len <? line_len)%nat then Ok (false, t)
        else
          let it :=
            if delete then
              set_modified
                (set_current_entry it (set_oid (set_mode e 0%N) 0%N))
            else add_remaining it 1 in
          manifest_tree_advance fuel st
            {| root := root t; stack := stack t;
               prefix_len := prefix_len t; iter := it |}
            (len - line_len) delete
    end.
Proof. by destruct len. Qed.

(** The manifest of the single file [a] with node [A], spelt [hexA]. *)
Definition line_of_a (hexA : bytes) : bytes :=
  lit "a" ++ NUL :: hexA ++ [LF].

Definition entry_a (A : oid) : tree_entry :=
  TreeEntry (lit "_a") MODE_REGULAR A None.

(** The mirror of that manifest, as held after the chunk of [node]. *)
Definition mirror_of_a (st : Core.state) (node commit tree : oid)
  (hexA : bytes) (A : oid) : mstate :=
  {| core := st; last_manifest_oid := node;
     last_manifest :=
       {| b_oid := commit;
          branch_tree := TreeEntry [] S_IFDIR tree (Some [entry_a A]) |};
     last_manifest_content := line_of_a hexA |}.

(** The chunk that adds the line of [a] at offset 0 and then removes the
    line that was there. *)
Definition add_then_remove_a (node p1 p2 delta : oid) (hexA : bytes)
  : Core.rev_chunk :=
  {| Core.node := node; Core.parent1 := p1; Core.parent2 := p2;
     Core.delta_node := delta;
     Core.diffs := [ {| Core.diff_start := 0; Core.diff_end := 0;
                        Core.diff_data := line_of_a hexA |};
                     {| Core.diff_start := 0; Core.diff_end := 43;
                        Core.diff_data := [] |} ] |}.

Lemma manifest_lines_a hexA A :
  length hexA = 40%nat -> get_sha1_hex hexA = Some A ->
  manifest_lines 43 (line_of_a hexA)
  = [ {| path := lit "a"; line_oid := A; attr := NUL |} ].
Proof.
  intros Hlen Hhex. unfold line_of_a.
  change 43%nat with (S 42). cbn [manifest_lines].
  change (lit "a" ++ NUL :: hexA ++ [LF])
    with (lit "a" ++ NUL :: hexA ++ attr_bytes NUL ++ [LF]).
  rewrite (split_manifest_line_line (lit "a") hexA A NUL []);
    [done|done| |done|done|by left].
  intros [=]%list_elem_of_singleton.
Qed.

#[local] Arguments emit_commit : simpl never.
#[local] Arguments line_of_a : simpl never.
#[local] Arguments manifest_lines : simpl never.
#[local] Arguments add_files : simpl never.

Lemma store_manifest_add_then_remove experiment fuel st last commit tree
  node p1 p2 hexA A :
  length hexA = 40%nat -> get_sha1_hex hexA = Some A -> (0 < fuel)%nat ->
  store_manifest experiment fuel (mirror_of_a st last commit tree hexA A)
    (add_then_remove_a node p1 p2 last hexA)
  = emit_commit (mirror_of_a st last commit tree hexA A)
      (add_then_remove_a node p1 p2 last hexA)
      (TreeEntry [] S_IFDIR 0%N (Some [entry_a A])) (line_of_a hexA).
Proof.
  intros Hlen Hhex Hfuel.
  assert (Hlen' : length (line_of_a hexA) = 43%nat).
  { unfold line_of_a. cbn. rewrite length_app. cbn. lia. }
  assert (Hadd :
    add_files st (Core.diffs (add_then_remove_a node p1 p2 last hexA))
      (TreeEntry [] S_IFDIR 0%N
         (Some [TreeEntry (lit "_a") 0%N 0%N None]))
    = Ok (TreeEntry [] S_IFDIR 0%N (Some [entry_a A]))).
  { unfold add_files. cbn [add_then_remove_a Core.diffs Core.diff_data].
    rewrite Hlen', (manifest_lines_a hexA A) by done. reflexivity. }
  set (ms := mirror_of_a st last commit tree hexA A) in *.
  set (chunk := add_then_remove_a node p1 p2 last hexA) in *.
  unfold store_manifest, new_store_manifest, old_store_manifest,
    reload_manifest.
  replace (negb (is_null_oid (Core.delta_node chunk))
           && negb (Core.delta_node chunk =? last_manifest_oid ms)%N)
    with false by (cbn; by rewrite N.eqb_refl, andb_false_r).
  cbn [and_then result_bind].
  destruct experiment.
  - destruct fuel as [|fuel]; [lia|].
    assert (Hrm :
      new_remove_files (S fuel) (core ms) (Core.diffs chunk) 0
        (manifest_tree_init (branch_tree (last_manifest ms)))
      = Ok {| root := TreeEntry [] S_IFDIR tree (Some [entry_a A]);
             stack := []; prefix_len := 0;
             iter := {| it_tree := Some [TreeEntry (lit "_a") 0%N 0%N None];
                        next_entry := 1; remaining_entry_count := 0;
                        modified := true |} |}).
    { cbn -[manifest_tree_advance].
      repeat (first [ rewrite manifest_tree_advance_0
                    | rewrite manifest_tree_advance_S by done ];
              cbn -[manifest_tree_advance]).
      reflexivity. }
    rewrite Hrm. cbn -[add_files].
    match goal with
    | |- and_then ?r _ = _ =>
      change r with
        (add_files st (Core.diffs chunk)
           (TreeEntry [] S_IFDIR 0%N
              (Some [TreeEntry (lit "_a") 0%N 0%N None])))
    end.
    by rewrite Hadd.
  - assert (Hbyte : byte_at (line_of_a hexA) 42 = LF).
    { unfold byte_at, line_of_a.
      change ((lit "a" ++ NUL :: hexA ++ [LF]) !! 42%nat)
        with ((hexA ++ [LF]) !! 40%nat).
      rewrite lookup_app_r by (rewrite Hlen; lia). by rewrite Hlen. }
    assert (Hrm :
      old_remove_files (core ms) (last_manifest_content ms)
        (Core.diffs chunk) [] 0 (branch_tree (last_manifest ms))
      = Ok (line_of_a hexA, 43%nat,
            TreeEntry [] S_IFDIR 0%N
              (Some [TreeEntry (lit "_a") 0%N 0%N None]))).
    { cbn [ms chunk mirror_of_a add_then_remove_a core last_manifest
           last_manifest_content branch_tree Core.diffs old_remove_files
           Core.diff_start Core.diff_end Core.diff_data].
      rewrite Hlen'. cbn [Nat.ltb Nat.leb orb andb Nat.sub negb].
      rewrite Hbyte. rewrite drop_0, take_0, (take_ge _ 43) by lia.
      rewrite Hlen', (manifest_lines_a hexA A) by done.
      change (manifest_lines (length (@nil ascii)) []) with (@nil manifest_line).
      cbn. by rewrite app_nil_r. }
    rewrite Hrm. cbn [and_then].
    change (core ms) with st. rewrite Hadd. cbn [and_then].
    change (last_manifest_content ms) with (line_of_a hexA).
    rewrite Hlen', Nat.ltb_irrefl, drop_ge, app_nil_r by lia. done.
Qed.

Lemma emit_commit_tree_a ms chunk A content ms' :
  emit_commit ms chunk (TreeEntry [] S_IFDIR 0%N (Some [entry_a A])) content
  = Ok ms' ->
  branch_tree (last_manifest ms')
  = TreeEntry [] S_IFDIR (hash_object Core.OBJ_TREE (mktree [entry_a A]))
      (Some [entry_a A]).
Proof.
  unfold emit_commit.
  change (store_tree (core ms) (TreeEntry [] S_IFDIR 0%N (Some [entry_a A])))
    with (let '(st, o) := Core.store_object hash_object (core ms)
                            Core.OBJ_TREE (mktree [entry_a A]) in
          Ok (st, TreeEntry [] S_IFDIR o (Some [entry_a A]))).
  assert (Ho : forall st d,
    (Core.store_object hash_object st Core.OBJ_TREE d).2
    = hash_object Core.OBJ_TREE d).
  { intros st d. unfold Core.store_object. by destruct (_ !! _). }
  specialize (Ho (core ms) (mktree [entry_a A])).
  destruct (Core.store_object hash_object (core ms) _ _) as [st o].
  cbn [snd] in Ho. subst o. cbn [and_then].
  destruct (add_parent _ _ _) as [d1|]; [|discriminate].
  destruct (add_parent _ _ _) as [d2|]; [|discriminate].
  destruct (Core.store_object hash_object st _ _) as [st' c].
  destruct (Core.add_manifest_head _ _) as [st''| | |]; cbn [and_then];
    try discriminate.
  destruct (check_manifest_fails _ _); [discriminate|].
  intros Heq.
  exact (eq_sym (f_equal (fun r => match r with
                                   | Ok m => branch_tree (last_manifest m)
                                   | _ => branch_tree new_branch
                                   end) Heq)).
Qed.

End WithStore.

(** *** The two passes, for every store *)

(** A store in which no tree can be read, no manifest is regenerated and
    none is checked ([cinnabar_check] without [CHECK_MANIFESTS]). *)
Definition no_trees (st : Core.state) (o : oid) : result (list tree_entry) :=
  Die "Can't load tree".
Definition no_text (st : Core.state) (o : oid) : bytes := [].
Definition no_check (st : Core.state) (o : oid) : bool := false.

(** What a read past the end of the manifest text may find. *)
Definition zero_slack (i : nat) : ascii := NUL.
Definition newline_slack (i : nat) : ascii := LF.

(** Object names for the examples. *)
Definition example_hash (t : Core.object_type) (data : bytes) : oid :=
  fold_left (fun acc c => (acc * 31 + N_of_ascii c + 1) mod (2 ^ 160 - 47))%N
    data
    match t with
    | Core.OBJ_COMMIT => 1 | Core.OBJ_TREE => 2 | Core.OBJ_BLOB => 3
    | Core.OBJ_TAG => 4
    end%N.

Definition hex_A : bytes := lit "1234567890123456789012345678901234567890".
Definition oid_A : oid := 0x1234567890123456789012345678901234567890%N.

Definition node_1 : oid := 0x1111111111111111111111111111111111111111%N.
Definition node_2 : oid := 0x2222222222222222222222222222222222222222%N.

(** The chunk that stores the manifest of the single file [a]. *)
Definition chunk_a : Core.rev_chunk :=
  {| Core.node := node_1; Core.parent1 := 0%N; Core.parent2 := 0%N;
     Core.delta_node := 0%N;
     Core.diffs := [ {| Core.diff_start := 0; Core.diff_end := 0;
                        Core.diff_data := line_of_a hex_A |} ] |}.

(** The state after [chunk_a], under either strategy. *)
Definition after_chunk_a (experiment : bool) : result mstate :=
  store_manifest example_hash no_trees no_text no_check zero_slack
    experiment 1 (initial_mstate Core.empty_state) chunk_a.

(** Two diffs over the same range 0 to 48, the first with the line of [a]
    as its data. *)
Definition chunk_same_range : Core.rev_chunk :=
  {| Core.node := node_2; Core.parent1 := node_1; Core.parent2 := 0%N;
     Core.delta_node := node_1;
     Core.diffs := [ {| Core.diff_start := 0; Core.diff_end := 48;
                        Core.diff_data := line_of_a hex_A |};
                     {| Core.diff_start := 0; Core.diff_end := 48;
                        Core.diff_data := [] |} ] |}.

(** The same with the length of the line, 43, for 48. *)
Definition chunk_same_range_43 : Core.rev_chunk :=
  {| Core.node := node_2; Core.parent1 := node_1; Core.parent2 := 0%N;
     Core.delta_node := node_1;
     Core.diffs := [ {| Core.diff_start := 0; Core.diff_end := 43;
                        Core.diff_data := line_of_a hex_A |};
                     {| Core.diff_start := 0; Core.diff_end := 43;
                        Core.diff_data := [] |} ] |}.

Definition outcome (r : result mstate) : result tree_entry :=
  let* ms := r in Ok (branch_tree (last_manifest ms)).

(** C2: in either strategy the tree that is stored comes from the mirror
    by a first pass that sees the ranges of the diffs only, followed by the
    insertion of the entries of all diffs; so for a manifest that is the
    line of [a] (43 bytes), the chunk with the diffs [{0, 0, line}] and
    [{0, 43, empty}] leaves exactly the entry [_a] pointing at [A]. *)
Theorem store_manifest_second_pass :
  (forall hash_object read_tree generate_manifest check_manifest_fails slack
          experiment fuel ms chunk,
     store_manifest hash_object read_tree generate_manifest
       check_manifest_fails slack experiment fuel ms chunk =
     let* ms1 := reload_manifest read_tree generate_manifest
                   (negb experiment) ms (Core.delta_node chunk) in
     let* tree1 := removal_pass read_tree slack experiment fuel ms1
                     (ranges_only (Core.diffs chunk)) in
     let* tree2 := add_files read_tree (core ms1) (Core.diffs chunk) tree1 in
     let* content := if experiment then Ok (last_manifest_content ms1)
                     else rebuilt_text read_tree slack ms1
                            (Core.diffs chunk) in
     emit_commit hash_object read_tree check_manifest_fails ms1 chunk tree2 content) /\
  (forall hash_object read_tree generate_manifest check_manifest_fails slack
          experiment fuel st last commit tree node p1 p2 hexA A,
     length hexA = 40%nat -> get_sha1_hex hexA = Some A -> (0 < fuel)%nat ->
     let ms := mirror_of_a st last commit tree hexA A in
     let chunk := add_then_remove_a node p1 p2 last hexA in
     let r := store_manifest hash_object read_tree generate_manifest
                check_manifest_fails slack experiment fuel ms chunk in
     r = emit_commit hash_object read_tree check_manifest_fails ms chunk
           (TreeEntry [] S_IFDIR 0%N (Some [entry_a A])) (line_of_a hexA) /\
     forall ms', r = Ok ms' ->
       branch_tree (last_manifest ms')
       = TreeEntry [] S_IFDIR (hash_object Core.OBJ_TREE (mktree [entry_a A]))
           (Some [entry_a A])).
Proof.
  split.
  - intros. apply store_manifest_passes.
  - intros * Hlen Hhex Hfuel ms chunk r.
    assert (Hr : r = emit_commit hash_object read_tree check_manifest_fails ms chunk
                       (TreeEntry [] S_IFDIR 0%N (Some [entry_a A]))
                       (line_of_a hexA))
      by (by apply store_manifest_add_then_remove).
    split; [done|]. intros ms'. rewrite Hr. apply emit_commit_tree_a.
Qed.

Lemma store_manifest_second_pass_witness :
  (length hex_A = 40%nat /\ get_sha1_hex hex_A = Some oid_A /\ (0 < 1)%nat) /\
  (forall experiment,
     let ms := mirror_of_a Core.empty_state node_1 0%N 0%N hex_A oid_A in
     let chunk := add_then_remove_a node_2 node_1 0%N node_1 hex_A in
     let r := store_manifest example_hash no_trees no_text no_check zero_slack
                experiment 1 ms chunk in
     r = emit_commit example_hash no_trees no_check ms chunk
           (TreeEntry [] S_IFDIR 0%N (Some [entry_a oid_A])) (line_of_a hex_A)
     /\ forall ms', r = Ok ms' ->
       branch_tree (last_manifest ms')
       = TreeEntry [] S_IFDIR
           (example_hash Core.OBJ_TREE (mktree [entry_a oid_A]))
           (Some [entry_a oid_A])).
Proof.
  split; [repeat split; lia|].
  intros experiment.
  apply (proj2 store_manifest_second_pass); [reflexivity|reflexivity|lia].
Defined.

(** C2, the chunk as stated: a second diff that starts before the end of
    the first is rejected by both strategies, whatever lies behind the
    text, and so is the same chunk with 43 for 48; the line has 43
    bytes. *)
Lemma store_manifest_same_range_counterexample :
  length (line_of_a hex_A) = 43%nat /\
  (let tree := TreeEntry [] S_IFDIR
                 (example_hash Core.OBJ_TREE (mktree [entry_a oid_A]))
                 (Some [entry_a oid_A]) in
   outcome (after_chunk_a false) = Ok tree /\
   outcome (after_chunk_a true) = Ok tree) /\
  (let run slack experiment chunk :=
     outcome (let* ms := after_chunk_a experiment in
              store_manifest example_hash no_trees no_text no_check slack
                experiment 100 ms chunk) in
   run zero_slack false chunk_same_range = Die "Malformed manifest chunk" /\
   run newline_slack false chunk_same_range = Die "Malformed manifest chunk" /\
   run zero_slack true chunk_same_range = Die "Malformed manifest chunk" /\
   run zero_slack false chunk_same_range_43
     = Die "Malformed manifest chunk" /\
   run zero_slack true chunk_same_range_43
     = Die "Malformed manifest chunk" /\
   run zero_slack false (add_then_remove_a node_2 node_1 0%N node_1 hex_A)
     = Ok (TreeEntry [] S_IFDIR
             (example_hash Core.OBJ_TREE (mktree [entry_a oid_A]))
             (Some [entry_a oid_A])) /\
   run zero_slack true (add_then_remove_a node_2 node_1 0%N node_1 hex_A)
     = Ok (TreeEntry [] S_IFDIR
             (example_hash Core.OBJ_TREE (mktree [entry_a oid_A]))
             (Some [entry_a oid_A]))).
Proof.
  split; [reflexivity|]. split.
  - split; vm_compute; reflexivity.
  - repeat split; vm_compute; reflexivity.
Qed.

End Manifest.

(** ** More on the pack window: runs of writes, and the bytes *)

Module PackBuffer.

Import PackWindow.

(** *** A run of writes *)

(** The writes of [counts] bytes, one after the other; [None] when one of
    them fails an [assert] or dereferences a null [pack_data]. *)
Fixpoint hashwrites (W : Z) (st : state) (counts : list Z) : option state :=
  match counts with
  | [] => Some st
  | count :: counts =>
    match hashwrite W st count with
    | Written _ st' => hashwrites W st' counts
    | _ => None
    end
  end.

Definition total (counts : list Z) : Z := foldr Z.add 0 counts.

Lemma hashwrite_step W st w d count :
  20 < W < 2 ^ 62 -> between_writes W st ->
  pack_win st = Some w -> pack_data st = Some d ->
  0 <= count < 2 ^ 32 -> pack_size d + count < 2 ^ 62 ->
  exists slid w',
    hashwrite W st count =
      Written slid
        {| pack_win := Some w';
           pack_data := Some {| windows := true;
                                pack_size := pack_size d + count |} |} /\
    between_writes W
      {| pack_win := Some w';
         pack_data := Some {| windows := true;
                              pack_size := pack_size d + count |} |} /\
    offset w <= offset w'.
Proof.
  intros HW Hbw Hw Hd Hc Hps.
  destruct (Z_le_dec (W + (if offset w =? 0 then 0 else 20) + 20)
                     (len w + count)) as [Hex|Hfit].
  - destruct (hashwrite_slides W st w d count HW Hbw Hw Hd Hc Hps Hex)
      as (Heq & Hlt & Hk & Hlen).
    eexists true, _. split; [exact Heq|]. split; [|cbn [offset]; lia].
    apply between_writes_intro; cbn [offset len windows pack_size];
      [reflexivity|lia|].
    right. exists ((pack_size d + count - 20) / W). lia.
  - rewrite (hashwrite_fits W st w d count HW Hbw Hw Hd Hc Hps Hfit).
    destruct Hbw as (w0 & d0 & Hw0 & Hd0 & Hwin & Hsum & Hgeo).
    assert (w0 = w) by congruence. assert (d0 = d) by congruence.
    subst w0 d0. unfold exceeds_capacity in Hfit.
    eexists false, _. split; [reflexivity|]. split; [|cbn [offset]; lia].
    apply between_writes_intro; cbn [offset len windows pack_size];
      [reflexivity|lia|].
    destruct Hgeo as [[H0 ?]|(k & ? & Hk & ?)].
    + left. rewrite H0 in *. cbn in Hfit. lia.
    + right. exists k. destruct (Z.eqb_spec (offset w) 0); [nia|lia].
Qed.

Lemma hashwrites_run W counts :
  20 < W < 2 ^ 62 ->
  forall st w d,
    between_writes W st ->
    pack_win st = Some w -> pack_data st = Some d ->
    Forall (fun count => 0 <= count < 2 ^ 32) counts ->
    pack_size d + total counts < 2 ^ 62 ->
    exists w',
      hashwrites W st counts =
        Some {| pack_win := Some w';
                pack_data := Some {| windows := true;
                                     pack_size := pack_size d + total counts |} |} /\
      between_writes W
        {| pack_win := Some w';
           pack_data := Some {| windows := true;
                                pack_size := pack_size d + total counts |} |} /\
      offset w <= offset w'.
Proof.
  intros HW. induction counts as [|count counts IH];
    intros st w d Hbw Hw Hd Hall Hps.
  - exists w. cbn [hashwrites total foldr]. rewrite Z.add_0_r.
    destruct Hbw as (w0 & d0 & Hw0 & Hd0 & Hwin & Hsum & Hgeo).
    assert (w0 = w) by congruence. assert (d0 = d) by congruence.
    subst w0 d0.
    assert (Hst : st = {| pack_win := Some w;
                         pack_data := Some {| windows := true;
                                              pack_size := pack_size d |} |}).
    { destruct st as [pw pd], d as [wd ps]. cbn in *. by subst. }
    split; [by rewrite Hst at 1|]. split; [|lia].
    rewrite <- Hst. by exists w, d.
  - apply Forall_cons in Hall as [Hc Hall].
    cbn [total foldr] in Hps. fold (total counts) in Hps.
    assert (0 <= total counts).
    { clear -Hall. induction Hall; cbn; [lia|]. fold (total l). lia. }
    destruct (hashwrite_step W st w d count HW Hbw Hw Hd Hc ltac:(lia))
      as (slid & w1 & Heq & Hbw1 & Hle).
    destruct (IH _ w1 _ Hbw1 eq_refl eq_refl Hall) as (w' & Hrun & Hbw' & Hle').
    { cbn [pack_size]. lia. }
    exists w'. cbn [hashwrites]. rewrite Heq.
    cbn [pack_size total foldr] in *. fold (total counts) in *.
    replace (pack_size d + (count + total counts))
      with (pack_size d + count + total counts) by lia.
    split; [done|]. split; [done|lia].
Qed.

(** X1: from the start of a pack (the 12-byte header written before
    [pack_data] is set), whatever the sizes of the writes that follow, no
    write fails the [assert] or reads a null [pack_data]; the window ends
    at [pack_size], which is 32 plus the bytes written, starts at 0 or 20
    bytes below a multiple of the window size, and never moves back. *)
Theorem hashwrites_from_start W count counts :
  32 < W < 2 ^ 62 ->
  Forall (fun count => 0 <= count < 2 ^ 32) (count :: counts) ->
  32 + total (count :: counts) < 2 ^ 62 ->
  exists st1 w',
    hashwrite W initial 12 = Written false st1 /\
    hashwrites W (install_pack_data st1) (count :: counts) =
      Some {| pack_win := Some w';
              pack_data :=
                Some {| windows := true;
                        pack_size := 32 + total (count :: counts) |} |} /\
    offset w' + len w' = 32 + total (count :: counts) /\
    0 <= offset w' /\
    ((offset w' = 0 /\ 20 <= len w' < W + 20) \/
     (exists k, 1 <= k /\ offset w' = k * W - 20 /\ 40 <= len w' < W + 40)).
Proof.
  intros HW Hall Hps.
  assert (H62 : 2 ^ 62 < 2 ^ 63 < 2 ^ 64) by lia.
  set (st1 := {| pack_win := Some {| offset := 0; len := 32 |};
                 pack_data := None |}).
  assert (H1 : hashwrite W initial 12 = Written false st1).
  { unfold hashwrite, initial. cbn [pack_win pack_data offset len].
    rewrite Z.eqb_refl, !Z.add_0_r.
    rewrite (size_t_wrap_small W) by lia.
    rewrite (size_t_wrap_small (W + 20 - 20)) by lia.
    rewrite (size_t_wrap_small (20 + 12)) by lia.
    destruct (Z.ltb_spec 12 (W + 20 - 20)); [reflexivity|lia]. }
  set (st2 := {| pack_win := Some {| offset := 0; len := 32 |};
                 pack_data := Some {| windows := true; pack_size := 32 |} |}).
  assert (Hsame : forall c, hashwrite W (install_pack_data st1) c
                            = hashwrite W st2 c) by reflexivity.
  assert (Hbw : between_writes W st2).
  { apply between_writes_intro; [reflexivity|reflexivity|]. left. cbn. lia. }
  destruct (hashwrites_run W (count :: counts) ltac:(lia) st2 _ _ Hbw
              eq_refl eq_refl Hall Hps) as (w' & Hrun & Hbw' & Hle).
  exists st1, w'. split; [exact H1|]. split.
  { cbn [hashwrites] in Hrun |- *. by rewrite Hsame. }
  destruct Hbw' as (w0 & d0 & Hw0 & Hd0 & Hwin & Hsum & Hgeo).
  cbn [pack_win pack_data] in Hw0, Hd0.
  injection Hw0 as <-. injection Hd0 as <-.
  cbn [pack_size offset] in *. split; [exact Hsum|]. split; [lia|exact Hgeo].
Qed.

Lemma hashwrites_from_start_witness :
  exists st1 w',
    hashwrite 4096 initial 12 = Written false st1 /\
    hashwrites 4096 (install_pack_data st1) [20; 5000; 100] =
      Some {| pack_win := Some w';
              pack_data :=
                Some {| windows := true;
                        pack_size := 32 + total [20; 5000; 100] |} |} /\
    offset w' + len w' = 32 + total [20; 5000; 100] /\
    0 <= offset w' /\
    ((offset w' = 0 /\ 20 <= len w' < 4096 + 20) \/
     (exists k, 1 <= k /\ offset w' = k * 4096 - 20 /\
                40 <= len w' < 4096 + 40)).
Proof.
  apply (hashwrites_from_start 4096 20 [5000; 100]).
  - lia.
  - repeat constructor; lia.
  - cbn. lia.
Defined.

(** *** The bytes of the window *)

(** [memcpy(dst + at, src + from, n)] on buffers given as lists; [None]
    when the copy would leave either buffer. *)
Definition memcpy (dst : bytes) (at_ : Z) (src : bytes) (from n : Z)
  : option bytes :=
  if (0 <=? at_) && (0 <=? from) && (0 <=? n)
     && (at_ + n <=? Z.of_nat (length dst))
     && (from + n <=? Z.of_nat (length src))
  then Some (take (Z.to_nat at_) dst
             ++ take (Z.to_nat n) (drop (Z.to_nat from) src)
             ++ drop (Z.to_nat (at_ + n)) dst)
  else None.

(** The buffer [pack_win->base] ([packed_git_window_size + 20] bytes from
    [xmalloc], so with any content at first) and the bytes written to the
    pack file so far. *)
Record buffers := { base : bytes; file : bytes }.

(** [hashwrite(f, buf, count)] with the bytes: [real_hashwrite] appends
    [buf] to the file; the window geometry is that of
    [PackWindow.hashwrite]; [use_pack] at [offset + 20 - W], after
    [hashflush], gives the [W] bytes of the file from there ([None] if
    the [assert] on its length fails). *)
Definition hashwrite_bytes (W : Z) (st : state) (b : buffers) (buf : bytes)
  : option (state * buffers) :=
  let count := Z.of_nat (length buf) in
  let file' := file b ++ buf in
  let len0 := match pack_win st with Some w => len w | None => 20 end in
  match hashwrite W st count with
  | Written false st' =>
    (* memcpy(pack_win->base + pack_win->len - 20, buf, count); *)
    base' ← memcpy (base b) (len0 - 20) buf 0 count;
    Some (st', {| base := base'; file := file' |})
  | Written true st' =>
    match pack_win st' with
    | None => None
    | Some w' =>
      let prev := take (Z.to_nat W)
                    (drop (Z.to_nat (offset w' + 20 - W)) file') in
      (* assert(prev_win->len == packed_git_window_size); *)
      if negb (Z.of_nat (length prev) =? W) then None
      else
        (* memcpy(pack_win->base, prev_win->base + W - 20, 20); *)
        base1 ← memcpy (base b) 0 prev (W - 20) 20;
        (* memcpy(pack_win->base + 20, buf + count + 40 - pack_win->len,
                  pack_win->len - 40); *)
        base2 ← memcpy base1 20 buf (count + 40 - len w') (len w' - 40);
        Some (st', {| base := base2; file := file' |})
    end
  | _ => None
  end.

(** The buffer has its allocated size, the file has [pack_size - 20]
    bytes, and the window's bytes (all but the 20 that stand for the
    trailer) are the bytes of the file from the window's offset. *)
Definition mirrors (W : Z) (st : state) (b : buffers) : Prop :=
  exists w,
    pack_win st = Some w /\
    Z.of_nat (length (base b)) = W + 20 /\
    Z.of_nat (length (file b)) = offset w + len w - 20 /\
    take (Z.to_nat (len w - 20)) (base b)
    = drop (Z.to_nat (offset w)) (file b).

Lemma memcpy_Some dst at_ src from n :
  0 <= at_ -> 0 <= from -> 0 <= n ->
  at_ + n <= Z.of_nat (length dst) -> from + n <= Z.of_nat (length src) ->
  memcpy dst at_ src from n
  = Some (take (Z.to_nat at_) dst
          ++ take (Z.to_nat n) (drop (Z.to_nat from) src)
          ++ drop (Z.to_nat (at_ + n)) dst).
Proof.
  intros. unfold memcpy.
  repeat match goal with
         | |- context [(?a <=? ?b)] =>
           destruct (Z.leb_spec a b); [|lia]
         end.
  reflexivity.
Qed.

Ltac lengths :=
  repeat first [ rewrite length_app | rewrite length_take
               | rewrite length_drop ].

Lemma length_copied (dst src : bytes) (at_ from n : Z) :
  0 <= at_ -> 0 <= from -> 0 <= n ->
  at_ + n <= Z.of_nat (length dst) -> from + n <= Z.of_nat (length src) ->
  length (take (Z.to_nat at_) dst
          ++ take (Z.to_nat n) (drop (Z.to_nat from) src)
          ++ drop (Z.to_nat (at_ + n)) dst)
  = length dst.
Proof. intros. lengths. lia. Qed.

Lemma extend_window (Fold buf base0 : bytes) (o l : nat) :
  take l base0 = drop o Fold -> (o <= length Fold)%nat ->
  (l + length buf <= length base0)%nat ->
  take (l + length buf)
    (take l base0 ++ take (length buf) (drop 0 buf)
     ++ drop (l + length buf) base0)
  = drop o (Fold ++ buf).
Proof.
  intros Hmir Ho Hfit.
  rewrite drop_0, firstn_all, (assoc_L (++)).
  rewrite take_app_length' by (rewrite length_app, length_take; lia).
  rewrite Hmir, drop_app_le by lia. done.
Qed.

Lemma slide_window (Fold buf base0 : bytes) (o w n : nat) :
  (20 <= w)%nat -> (w <= o + 20)%nat ->
  (o + 20 + n = length (Fold ++ buf))%nat ->
  (n <= length buf)%nat -> (20 + n <= length base0)%nat ->
  let F := Fold ++ buf in
  let prev := take w (drop (o + 20 - w) F) in
  let base1 := take 0 base0 ++ take 20 (drop (w - 20) prev)
               ++ drop 20 base0 in
  let base2 := take 20 base1 ++ take n (drop (length buf - n) buf)
               ++ drop (20 + n) base1 in
  take (20 + n) base2 = drop o F.
Proof.
  intros Hw Hwo Hlen Hn Hcap F prev base1 base2.
  assert (HF : length F = (o + 20 + n)%nat) by done.
  assert (Htail : take n (drop (length buf - n) buf) = drop (o + 20) F).
  { subst F. rewrite length_app in Hlen.
    rewrite drop_app_ge by lia.
    replace (o + 20 - length Fold)%nat with (length buf - n)%nat by lia.
    apply take_ge. rewrite length_drop. lia. }
  clearbody F. clear Hlen.
  assert (Hsrc : take 20 (drop (w - 20) prev) = take 20 (drop o F)).
  { subst prev.
    replace (take w (drop (o + 20 - w) F))
      with (take (w - 20 + 20) (drop (o + 20 - w) F)) by (f_equal; lia).
    rewrite <- take_drop_commute, take_take, drop_drop.
    replace (20 `min` 20)%nat with 20%nat by lia.
    by replace (o + 20 - w + (w - 20))%nat with o by lia. }
  assert (Hsrc_len : length (take 20 (drop o F)) = 20%nat).
  { rewrite length_take, length_drop. lia. }
  assert (Hhead : take 20 base1 = take 20 (drop o F)).
  { subst base1. rewrite take_0, app_nil_l, Hsrc.
    by rewrite take_app_length'. }
  subst base2. rewrite Hhead, Htail, (assoc_L (++)).
  rewrite take_app_length'.
  - rewrite <- drop_drop. apply take_drop.
  - rewrite length_app, Hsrc_len, length_drop. lia.
Qed.

(** X2: every copy [hashwrite] makes stays inside the window buffer of
    [packed_git_window_size + 20] bytes and inside the caller's buffer,
    and afterwards the window holds the bytes of the pack file from the
    window's offset on. *)
Theorem hashwrite_mirrors W st d b buf :
  20 < W < 2 ^ 62 -> between_writes W st -> mirrors W st b ->
  pack_data st = Some d ->
  Z.of_nat (length buf) < 2 ^ 32 ->
  pack_size d + Z.of_nat (length buf) < 2 ^ 62 ->
  exists st' b',
    hashwrite_bytes W st b buf = Some (st', b') /\
    between_writes W st' /\ mirrors W st' b' /\
    file b' = file b ++ buf.
Proof.
  intros HW Hbw (w & Hw & Hbase & Hfile & Hmir) Hd Hc Hps.
  remember (Z.of_nat (length buf)) as count eqn:Hcount_def.
  assert (Hcount : 0 <= count) by lia.
  pose proof Hbw as (w0 & d0 & Hw0 & Hd0 & Hwin & Hsum & Hgeo).
  assert (w0 = w) by congruence. assert (d0 = d) by congruence.
  subst w0 d0. clear Hw0 Hd0.
  assert (Hoff : 0 <= offset w) by (destruct Hgeo as [?|(k & ? & ? & ?)]; nia).
  assert (Hlen : 20 <= len w) by (destruct Hgeo as [?|(k & ? & ? & ?)]; lia).
  unfold hashwrite_bytes. rewrite <- Hcount_def, Hw.
  destruct (Z_le_dec (W + (if offset w =? 0 then 0 else 20) + 20)
                     (len w + count)) as [Hex|Hfit].
  - (* the window slides *)
    destruct (hashwrite_slides W st w d count HW Hbw Hw Hd ltac:(lia) Hps Hex)
      as (Heq & Hlt & Hk & Hlen').
    rewrite Heq. cbn [pack_win offset len].
    remember (pack_size d + count) as ps eqn:Hps_def.
    remember ((ps - 20) / W * W - 20) as off eqn:Hoff_def.
    assert (Hfl : Z.of_nat (length (file b ++ buf)) = ps - 20).
    { rewrite length_app. subst ps. lia. }
    pose proof Hfl as Hfl'. rewrite length_app in Hfl'.
    assert (Hoff' : 0 <= off + 20 - W) by (subst off; nia).
    assert (Hprev : Z.of_nat (length (take (Z.to_nat W)
                      (drop (Z.to_nat (off + 20 - W)) (file b ++ buf)))) = W).
    { rewrite length_take, length_drop. lia. }
    rewrite Hprev, Z.eqb_refl. cbn [negb].
    rewrite memcpy_Some by lia. cbn [mbind option_bind].
    assert (Hmod : ps - 20 - (off + 20) <= count).
    { unfold exceeds_capacity in Hex. subst off ps.
      pose proof (Z.mul_div_le (pack_size d + count - 20) W ltac:(lia)).
      destruct Hgeo as [[H0 ?]|(k & ? & Hk' & ?)].
      - rewrite H0 in *. cbn in Hex. nia.
      - destruct (Z.eqb_spec (offset w) 0); [nia|].
        assert (k + 1 <= (pack_size d + count - 20) / W)
          by (apply Z.div_le_lower_bound; lia).
        nia. }
    rewrite memcpy_Some; [|lia|lia|lia|rewrite length_copied by lia; lia|lia].
    cbn [mbind option_bind].
    eexists _, _. split; [reflexivity|]. split.
    { apply between_writes_intro; cbn [offset len windows pack_size];
        [reflexivity|lia|].
      right. exists ((ps - 20) / W). subst off. lia. }
    split; [|reflexivity].
    eexists. split; [reflexivity|]. cbn [base file offset len].
    split.
    { rewrite length_copied.
      - rewrite length_copied by lia. exact Hbase.
      - lia.
      - lia.
      - lia.
      - rewrite length_copied by lia. lia.
      - lia. }
    split; [lia|].
    pose proof (slide_window (file b) buf (base b) (Z.to_nat off)
                  (Z.to_nat W) (Z.to_nat (ps - off - 40))
                  ltac:(lia) ltac:(lia) ltac:(lia) ltac:(lia) ltac:(lia))
      as Hsl.
    cbn zeta in Hsl. rewrite <- Hsl.
    replace (Z.to_nat (ps - off - 20))
      with (20 + Z.to_nat (ps - off - 40))%nat by lia.
    replace (Z.to_nat (off + 20 - W))
      with (Z.to_nat off + 20 - Z.to_nat W)%nat by lia.
    replace (Z.to_nat (W - 20)) with (Z.to_nat W - 20)%nat by lia.
    replace (Z.to_nat (count + 40 - (ps - off)))
      with (length buf - Z.to_nat (ps - off - 40))%nat by lia.
    replace (Z.to_nat (20 + (ps - off - 40)))
      with (20 + Z.to_nat (ps - off - 40))%nat by lia.
    reflexivity.
  - (* the write fits *)
    rewrite (hashwrite_fits W st w d count HW Hbw Hw Hd ltac:(lia) Hps Hfit).
    unfold exceeds_capacity in Hfit.
    assert (Hcap : len w - 20 + count <= W + 20).
    { destruct (Z.eqb_spec (offset w) 0); lia. }
    rewrite memcpy_Some by lia. cbn [mbind option_bind].
    eexists _, _. split; [reflexivity|]. split.
    { apply between_writes_intro; cbn [offset len windows pack_size];
        [reflexivity|lia|].
      destruct Hgeo as [[H0 ?]|(k & ? & Hk & ?)].
      + left. rewrite H0 in *. cbn in Hfit. lia.
      + right. exists k. destruct (Z.eqb_spec (offset w) 0); [nia|lia]. }
    split; [|reflexivity].
    eexists. split; [reflexivity|]. cbn [base file offset len].
    split; [rewrite length_copied by lia; exact Hbase|].
    split; [rewrite length_app; lia|].
    pose proof (extend_window (file b) buf (base b) (Z.to_nat (offset w))
                  (Z.to_nat (len w - 20)) Hmir ltac:(lia) ltac:(lia)) as Hext.
    rewrite <- Hext.
    replace (Z.to_nat (len w + count - 20))
      with (Z.to_nat (len w - 20) + length buf)%nat by lia.
    replace (Z.to_nat count) with (length buf) by lia.
    replace (Z.to_nat 0) with 0%nat by lia.
    replace (Z.to_nat (len w - 20 + count))
      with (Z.to_nat (len w - 20) + length buf)%nat by lia.
    reflexivity.
Qed.

(** The buffers of [small_pack]: the header and 20 bytes in the file and
    at the head of the buffer. *)
Definition small_pack_buffers : buffers :=
  {| base := lit "PACK00020000" ++ replicate 4104 NUL;
     file := lit "PACK00020000" |}.

Lemma hashwrite_mirrors_witness :
  exists st' b',
    hashwrite_bytes 4096 small_pack small_pack_buffers
      (replicate 5000 "b"%char) = Some (st', b') /\
    between_writes 4096 st' /\ mirrors 4096 st' b' /\
    file b' = file small_pack_buffers ++ replicate 5000 "b"%char.
Proof.
  apply (hashwrite_mirrors 4096 small_pack
           {| windows := true; pack_size := 32 |}).
  - lia.
  - exact small_pack_between_writes.
  - exists {| offset := 0; len := 32 |}.
    split; [reflexivity|]. split; [reflexivity|]. split; reflexivity.
  - reflexivity.
  - rewrite length_replicate. lia.
  - rewrite length_replicate. cbn. lia.
Defined.

End PackBuffer.

(** ** More on the heads arrays *)

Module HeadsFacts.

Import Heads.

Lemma lookup_spec_found (l : list N) (o : N) (r : Z) :
  lookup_spec l o r -> o ∈ l -> 0 <= r /\ l !! Z.to_nat r = Some o.
Proof.
  intros [H|(k & -> & Hk & Hlt & Hgt)] Hin; [done|].
  exfalso. rewrite <- (take_drop k l) in Hin.
  apply elem_of_app in Hin as [Hin|Hin].
  - rewrite Forall_forall in Hlt. specialize (Hlt _ Hin). lia.
  - rewrite Forall_forall in Hgt. specialize (Hgt _ Hin). lia.
Qed.

Lemma lookup_spec_absent (l : list N) (o : N) (r : Z) :
  lookup_spec l o r -> o ∉ l ->
  exists k : nat, r = - Z.of_nat k - 1 /\ (k <= length l)%nat /\
    Forall (fun x => (x < o)%N) (take k l) /\
    Forall (fun x => (o < x)%N) (drop k l).
Proof.
  intros [[H0 H]|H] Hin; [|done].
  exfalso. apply Hin. by eapply list_elem_of_lookup_2.
Qed.

Lemma strictly_ascending_index (l : list N) i j x :
  strictly_ascending l -> l !! i = Some x -> l !! j = Some x -> i = j.
Proof.
  intros Hl Hi Hj.
  destruct (Nat.lt_trichotomy i j) as [H|[H|H]]; [|done|].
  - pose proof (strictly_ascending_lookup l i j x x Hl H Hi Hj). lia.
  - pose proof (strictly_ascending_lookup l j i x x Hl H Hj Hi). lia.
Qed.

Lemma remove_parents_absent (ps l : list N) :
  strictly_ascending l -> (forall p, p ∈ ps -> p ∉ l) ->
  remove_parents l ps = l.
Proof.
  intros Hl. induction ps as [|p ps IH]; intros Hps; [done|].
  cbn [remove_parents foldl].
  destruct (lookup_spec_absent l p _ (oid_array_lookup_spec l p Hl))
    as (k & -> & _); [apply Hps; left|].
  destruct (Z.leb_spec 0 (- Z.of_nat k - 1)); [lia|].
  apply IH. intros q Hq. apply Hps. by right.
Qed.

Lemma add_head_members repo kind heads o c :
  heads_precondition repo kind heads ->
  commits repo !! o = Some c ->
  exists h0 h,
    ensure_heads repo kind heads = Ok h0 /\
    add_head repo kind heads o = Ok h /\
    sorted h = true /\ strictly_ascending (oids h) /\
    forall x, x ∈ oids h <-> x = o \/ (x ∈ oids h0 /\ x ∉ parents c).
Proof.
  intros Hpre Hc.
  destruct (ensure_heads_ascending repo kind heads Hpre)
    as (h0 & Hens & Hsorted & Hasc).
  destruct (add_head_sorted_spec repo (oids h0) o c Hasc Hc)
    as (l' & Hadd & Hasc' & Hmem).
  exists h0, {| oids := l'; sorted := sorted h0 |}.
  split; [done|]. split.
  - unfold add_head. rewrite Hens. cbn. by rewrite Hadd.
  - by cbn.
Qed.

(** X3: for an array that meets [heads_precondition] (an initialised
    array is strictly ascending; one not yet initialised is empty and the
    tip commit lists the parents it keeps in strictly ascending order),
    [add_head], as a set, turns the heads into the heads without the
    parents of the commit, plus the commit: no other head is dropped and
    nothing else is added, and the array stays strictly ascending. *)
Theorem add_head_set repo kind heads o c :
  heads_precondition repo kind heads ->
  commits repo !! o = Some c ->
  exists h0 h,
    ensure_heads repo kind heads = Ok h0 /\
    add_head repo kind heads o = Ok h /\
    sorted h = true /\ strictly_ascending (oids h) /\
    forall x, x ∈ oids h <-> x = o \/ (x ∈ oids h0 /\ x ∉ parents c).
Proof. apply add_head_members. Qed.

Lemma add_head_set_witness :
  heads_precondition (repo_with_tip [5; 7; 9]%N flat_manifest_sentinel)
    manifest_heads OID_ARRAY_INIT /\
  exists h0 h,
    ensure_heads (repo_with_tip [5; 7; 9]%N flat_manifest_sentinel)
      manifest_heads OID_ARRAY_INIT = Ok h0 /\
    add_head (repo_with_tip [5; 7; 9]%N flat_manifest_sentinel)
      manifest_heads OID_ARRAY_INIT 100%N = Ok h /\
    sorted h = true /\ strictly_ascending (oids h) /\
    forall x, x ∈ oids h <->
      x = 100%N \/ (x ∈ oids h0 /\
                    x ∉ parents {| parents := [5; 7; 9]%N;
                                   buffer := commit_buffer
                                               flat_manifest_sentinel |}).
Proof.
  assert (Hpre : heads_precondition
                   (repo_with_tip [5; 7; 9]%N flat_manifest_sentinel)
                   manifest_heads OID_ARRAY_INIT).
  { split; [reflexivity|]. eexists. split; [vm_compute; reflexivity|].
    vm_compute. repeat constructor. }
  split; [exact Hpre|].
  apply (add_head_set _ manifest_heads OID_ARRAY_INIT 100%N _ Hpre).
  reflexivity.
Defined.

(** X4: for an array that meets [heads_precondition] and a commit that
    is not its own parent, [add_head] of the commit a second time changes
    nothing: adding a head twice is adding it once. *)
Theorem add_head_idempotent repo kind heads o c h :
  heads_precondition repo kind heads ->
  commits repo !! o = Some c -> o ∉ parents c ->
  add_head repo kind heads o = Ok h ->
  add_head repo kind h o = Ok h.
Proof.
  intros Hpre Hc Hself Hadd.
  destruct (add_head_members repo kind heads o c Hpre Hc)
    as (h0 & h' & _ & Hadd' & Hsorted & Hasc & Hmem).
  rewrite Hadd in Hadd'. injection Hadd' as <-.
  unfold add_head. rewrite (ensure_heads_sorted_noop _ _ _ Hsorted). cbn.
  unfold add_head_sorted. rewrite Hc.
  change (foldl _ (oids h) (parents c)) with (remove_parents (oids h) (parents c)).
  rewrite remove_parents_absent; [|done|].
  2:{ intros p Hp Hin. apply Hmem in Hin as [->|[_ Hin]]; done. }
  destruct (lookup_spec_found (oids h) o _ (oid_array_lookup_spec _ o Hasc))
    as [Hpos _]; [apply Hmem; by left|].
  destruct (Z.leb_spec 0 (oid_array_lookup (oids h) o)); [|lia].
  by destruct h; cbn in *; subst.
Qed.

Lemma add_head_idempotent_witness :
  add_head (repo_with_tip [5; 7; 9]%N flat_manifest_sentinel)
    manifest_heads {| oids := [100%N]; sorted := true |} 100%N
  = Ok {| oids := [100%N]; sorted := true |}.
Proof.
  apply (add_head_idempotent _ manifest_heads OID_ARRAY_INIT 100%N
           {| parents := [5; 7; 9]%N;
              buffer := commit_buffer flat_manifest_sentinel |}).
  - split; [reflexivity|]. eexists. split; [vm_compute; reflexivity|].
    vm_compute. repeat constructor.
  - reflexivity.
  - cbn [parents]. intros H.
    repeat (apply elem_of_cons in H as [H|H]; [discriminate|]).
    by apply elem_of_nil in H.
  - vm_compute. reflexivity.
Defined.

(** X5: in a strictly ascending array, [oid_array_lookup] of an absent oid
    reports an insertion point; after [oid_array_insert] there the array
    is still strictly ascending, the lookup finds the oid at that very
    index, and [oid_array_remove] of the index gives the array back. *)
Theorem lookup_insert_remove (l : list N) (o : N) :
  strictly_ascending l -> o ∉ l ->
  exists k : nat,
    oid_array_lookup l o = - Z.of_nat k - 1 /\
    strictly_ascending (oid_array_insert l k o) /\
    oid_array_lookup (oid_array_insert l k o) o = Z.of_nat k /\
    oid_array_remove (oid_array_insert l k o) k = l.
Proof.
  intros Hl Hin.
  destruct (lookup_spec_absent l o _ (oid_array_lookup_spec l o Hl) Hin)
    as (k & Hk & Hlen & Hlt & Hgt).
  exists k. split; [done|].
  destruct (oid_array_insert_spec l k o Hl Hlt Hgt) as [Hasc Hmem].
  split; [done|].
  assert (Hat : oid_array_insert l k o !! k = Some o).
  { unfold oid_array_insert.
    rewrite lookup_app_r by (rewrite length_take; lia).
    rewrite length_take.
    by replace (k - k `min` length l)%nat with 0%nat by lia. }
  split.
  - destruct (lookup_spec_found _ o _
                (oid_array_lookup_spec _ o Hasc)) as [Hpos Hfound];
      [apply Hmem; by left|].
    pose proof (strictly_ascending_index _ _ _ _ Hasc Hfound Hat). lia.
  - unfold oid_array_remove, oid_array_insert.
    assert (Hlk : length (take k l) = k) by (rewrite length_take; lia).
    rewrite (take_app_length' _ _ k (eq_sym Hlk)).
    rewrite (cons_middle o), (assoc_L (++)).
    rewrite drop_app_length' by (rewrite length_app, Hlk; cbn; lia).
    apply take_drop.
Qed.

Lemma lookup_insert_remove_witness :
  exists k : nat,
    oid_array_lookup [5; 9]%N 7%N = - Z.of_nat k - 1 /\
    strictly_ascending (oid_array_insert [5; 9]%N k 7%N) /\
    oid_array_lookup (oid_array_insert [5; 9]%N k 7%N) 7%N = Z.of_nat k /\
    oid_array_remove (oid_array_insert [5; 9]%N k 7%N) k = [5; 9]%N.
Proof.
  apply lookup_insert_remove.
  - repeat constructor.
  - intros H. repeat (apply elem_of_cons in H as [H|H]; [discriminate|]).
    by apply elem_of_nil in H.
Defined.

End HeadsFacts.

(** ** More on the [set] command and the file store *)

Module CoreFacts.

Import Core.

(** *** Hexadecimal names read back *)

Lemma hexval_hex_digit (v : N) :
  (v < 16)%N -> hexval (hex_digit v) = Some v.
Proof.
  intros Hv.
  assert (Hcases : v ∈ (N.of_nat <$> seq 0 16)).
  { apply list_elem_of_fmap. exists (N.to_nat v). split; [lia|].
    apply elem_of_seq. lia. }
  cbn in Hcases.
  repeat (apply elem_of_cons in Hcases as [->|Hcases]; [reflexivity|]).
  by apply elem_of_nil in Hcases.
Qed.

Lemma to_hex_acc digits : forall v acc,
  to_hex digits v acc = to_hex digits v [] ++ acc.
Proof.
  induction digits as [|digits IH]; intros v acc; [done|].
  cbn [to_hex]. rewrite (IH _ (_ :: acc)), (IH _ [_]).
  by rewrite <- (assoc_L (++)).
Qed.

Lemma length_to_hex digits : forall v acc,
  length (to_hex digits v acc) = (digits + length acc)%nat.
Proof.
  induction digits as [|digits IH]; intros v acc; [done|].
  cbn [to_hex]. rewrite IH. cbn. lia.
Qed.

Lemma get_hex_split n : forall m s1 s2 a,
  length s1 = n ->
  get_hex (n + m) (s1 ++ s2) a
  = match get_hex n s1 a with
    | Some a' => get_hex m s2 a'
    | None => None
    end.
Proof.
  induction n as [|n IH]; intros m [|c s1] s2 a Hlen; try done.
  cbn. destruct (hexval c); [|done]. apply IH. by injection Hlen.
Qed.

Lemma get_hex_to_hex digits : forall v rest acc,
  get_hex digits (to_hex digits v [] ++ rest) acc
  = Some (acc * 16 ^ N.of_nat digits + v mod 16 ^ N.of_nat digits)%N.
Proof.
  induction digits as [|digits IH]; intros v rest acc.
  - cbn. f_equal. rewrite N.mod_1_r. lia.
  - cbn [to_hex]. rewrite to_hex_acc, <- (assoc_L (++)).
    replace (S digits) with (digits + 1)%nat at 1 by lia.
    rewrite get_hex_split by (by rewrite length_to_hex; cbn; lia).
    rewrite <- (app_nil_r (to_hex digits _ [])), IH.
    cbn [app get_hex].
    rewrite hexval_hex_digit by (apply N.mod_lt; lia).
    f_equal.
    replace (N.of_nat (S digits)) with (N.succ (N.of_nat digits)) by lia.
    rewrite N.pow_succ_r', (N.Div0.mod_mul_r v 16). lia.
Qed.

Lemma get_sha1_hex_hex (o : oid) (rest : bytes) :
  (o < 2 ^ 160)%N -> get_sha1_hex (oid_to_hex o ++ rest) = Some o.
Proof.
  intros Ho. unfold get_sha1_hex, oid_to_hex.
  rewrite get_hex_to_hex. f_equal.
  change (16 ^ N.of_nat 40)%N with (2 ^ 160)%N.
  rewrite N.mod_small by done. lia.
Qed.

Lemma length_oid_to_hex (o : oid) : length (oid_to_hex o) = 40%nat.
Proof. unfold oid_to_hex. by rewrite length_to_hex. Qed.

(** [oid_to_hex] writes 40 characters, and [get_sha1_hex] reads them back
    as the same oid, whatever follows them. *)
Theorem oid_to_hex_read_back (o : oid) (rest : bytes) :
  (o < 2 ^ 160)%N ->
  length (oid_to_hex o) = 40%nat /\
  get_sha1_hex (oid_to_hex o ++ rest) = Some o.
Proof.
  intros Ho. split; [apply length_oid_to_hex|by apply get_sha1_hex_hex].
Qed.

Lemma oid_to_hex_read_back_witness :
  length (oid_to_hex 0x1234567890abcdef1234567890abcdef12345678) = 40%nat /\
  get_sha1_hex
    (oid_to_hex 0x1234567890abcdef1234567890abcdef12345678 ++ [LF])
  = Some 0x1234567890abcdef1234567890abcdef12345678%N.
Proof. apply oid_to_hex_read_back. lia. Defined.


(** *** The [set] command *)

Section WithEnvironment.

Variable hash_object : object_type -> bytes -> oid.
Variable find_marked : state -> bytes -> result oid.

(** The five kinds of [set]. *)
Lemma set_kind_cases kind type notes is_manifest is_changeset :
  set_kind kind = Some (type, notes, is_manifest, is_changeset) ->
  (type, notes, is_manifest, is_changeset)
  ∈ [ (OBJ_BLOB, NOTES_hg2git, false, false);
      (OBJ_COMMIT, NOTES_hg2git, true, false);
      (OBJ_COMMIT, NOTES_hg2git, false, true);
      (OBJ_BLOB, NOTES_git2hg, false, false);
      (OBJ_BLOB, NOTES_files_meta, false, false) ].
Proof.
  unfold set_kind. intros H.
  repeat match type of H with
         | (if ?c then _ else _) = _ => destruct c
         | match ?k with _ => _ end = _ => destruct k as [|[[] [] [] [] [] [] [] []] ?]
         end;
    simplify_eq; set_solver.
Qed.

Lemma loop_extends fuel : forall st hg_id git_id buf st' g,
  handle_changeset_conflict_loop hash_object fuel st hg_id git_id buf
  = Ok (st', g) ->
  extends st st'.
Proof.
  induction fuel as [|fuel IH]; intros st hg_id git_id buf st' g;
    cbn [handle_changeset_conflict_loop];
    destruct (get_note _ _) as [note|];
    try (intros [= <- <-]; apply extends_refl);
    destruct (read_object_file st note) as [content|]; try done;
    destruct (check_git2hg_note content) as [o|]; try done;
    destruct (N.eqb o hg_id);
    try (intros [= <- <-]; apply extends_refl); try done.
  destruct (length buf =? 0)%nat.
  - destruct (read_object_file st git_id) as [body|]; [|done].
    cbn [mbind result_mbind result_bind].
    pose proof (store_object_extends hash_object st OBJ_COMMIT
                  ((buf ++ body) ++ [NUL])) as [Hext _].
    destruct (store_object _ _ _ _) as [st1 g1]. intros H.
    eapply extends_trans; [exact Hext|]. by eapply IH.
  - cbn [mbind result_mbind result_bind].
    pose proof (store_object_extends hash_object st OBJ_COMMIT
                  (buf ++ [NUL])) as [Hext _].
    destruct (store_object _ _ _ _) as [st1 g1]. intros H.
    eapply extends_trans; [exact Hext|]. by eapply IH.
Qed.

Lemma add_manifest_head_frame st o st' :
  add_manifest_head st o = Ok st' ->
  exists h, st' = set_manifest_heads st h.
Proof.
  unfold add_manifest_head.
  destruct (Heads.add_head _ _ _ _) as [h| | |]; try done.
  intros [= <-]. by exists h.
Qed.

(** X6: a [set] command that succeeds never removes or replaces an object
    (and stores none unless the kind is [changeset]), never touches the
    changeset heads or the last-file cache, touches the manifest heads
    only for the kind [manifest], and changes no notes tree but the one
    its kind selects. *)
Theorem do_set_frame fuel st args st' :
  do_set hash_object find_marked fuel st args = Ok st' ->
  exists kind hg_sha git_ref type notes is_manifest is_changeset,
    args = [kind; hg_sha; git_ref] /\
    set_kind kind = Some (type, notes, is_manifest, is_changeset) /\
    objects st ⊆ objects st' /\
    (is_changeset = false -> objects st' = objects st) /\
    changeset_heads st' = changeset_heads st /\
    (is_manifest = false -> manifest_heads st' = manifest_heads st) /\
    last_file st' = last_file st /\
    (notes <> NOTES_hg2git -> hg2git st' = hg2git st) /\
    (notes <> NOTES_git2hg -> git2hg st' = git2hg st) /\
    (notes <> NOTES_files_meta -> files_meta st' = files_meta st).
Proof.
  unfold do_set.
  destruct args as [|kind [|hg_sha [|git_ref [|? ?]]]]; try done.
  destruct (set_kind kind) as [[[[type notes] is_manifest] is_changeset]|]
    eqn:Hkind; [|done].
  destruct (get_sha1_hex hg_sha) as [hg_id|]; [|done].
  destruct (set_git_id find_marked st git_ref) as [git_id| | |]; try done.
  cbn [mbind result_mbind result_bind]. intros H.
  exists kind, hg_sha, git_ref, type, notes, is_manifest, is_changeset.
  split; [done|]. split; [done|].
  pose proof (set_kind_cases _ _ _ _ _ Hkind) as Hcases.
  assert (Hdone : forall s : state,
    (s = st \/ (exists m, s = set_hg2git st m /\ notes = NOTES_hg2git) \/
     (exists m, s = set_git2hg st m /\ notes = NOTES_git2hg) \/
     (exists m, s = set_files_meta st m /\ notes = NOTES_files_meta)) ->
    objects st ⊆ objects s /\
    (is_changeset = false -> objects s = objects st) /\
    changeset_heads s = changeset_heads st /\
    (is_manifest = false -> manifest_heads s = manifest_heads st) /\
    last_file s = last_file st /\
    (notes <> NOTES_hg2git -> hg2git s = hg2git st) /\
    (notes <> NOTES_git2hg -> git2hg s = git2hg st) /\
    (notes <> NOTES_files_meta -> files_meta s = files_meta st)).
  { intros s [->|[(m & -> & ->)|[(m & -> & ->)|(m & -> & ->)]]];
      repeat split; try done. }
  destruct notes.
  - (* hg2git *)
    destruct (is_null_oid git_id).
    { injection H as <-. apply Hdone. right. left. by eexists. }
    destruct (negb _); [done|].
    destruct is_changeset.
    + destruct (handle_changeset_conflict _ _ _ _ _) as [[st1 g]| | |] eqn:Hc;
        try done.
      cbn [mbind result_mbind result_bind fst snd] in H.
      apply loop_extends in Hc as [Heq Hsub].
      assert (is_manifest = false) as ->.
      { repeat (apply elem_of_cons in Hcases as [Hcases|Hcases];
                [by simplify_eq|]).
        by apply elem_of_nil in Hcases. }
      injection H as <-. rewrite Heq. by repeat split.
    + cbn [mbind result_mbind result_bind fst snd] in H.
      destruct is_manifest.
      * apply add_manifest_head_frame in H as [h ->]. by repeat split.
      * injection H as <-. by repeat split.
  - (* git2hg *)
    destruct (get_note (hg2git st) hg_id) as [note|].
    + destruct (is_null_oid git_id).
      { injection H as <-. apply Hdone. right. right. left. by eexists. }
      destruct (negb _); [done|].
      injection H as <-. apply Hdone. right. right. left. by eexists.
    + destruct (negb _); [done|]. injection H as <-. apply Hdone. by left.
  - (* files_meta *)
    assert (is_changeset = false /\ is_manifest = false) as [-> ->].
    { repeat (apply elem_of_cons in Hcases as [Hcases|Hcases];
              [by simplify_eq|]).
      by apply elem_of_nil in Hcases. }
    destruct (is_null_oid git_id).
    { injection H as <-. apply Hdone. right. right. right. by eexists. }
    destruct (negb _); [done|].
    cbn [mbind result_mbind result_bind fst snd] in H.
    injection H as <-. apply Hdone. right. right. right. by eexists.
Qed.

(** *** The error [Invalid object] *)

Lemma add_head_sorted_dies repo l o m :
  Heads.add_head_sorted repo l o = Die m -> m = "unable to parse commit"%string.
Proof.
  unfold Heads.add_head_sorted. destruct (_ !! _); [|by intros [= <-]].
  by destruct (_ <=? _)%Z.
Qed.

Lemma ensure_heads_loop_dies repo kind body ps : forall first l m,
  Heads.ensure_heads_loop repo kind body first ps l = Die m ->
  m = "unable to parse commit"%string.
Proof.
  induction ps as [|p ps IH]; intros first l m; [done|].
  cbn [Heads.ensure_heads_loop].
  destruct (match kind with
            | Heads.changeset_heads => _ | Heads.manifest_heads => _
            end); [apply IH|].
  destruct (last l) as [x|]; [|apply IH].
  destruct (N.eqb x p); [|apply IH].
  destruct (Heads.add_head_sorted repo l p) as [l'| | |] eqn:Hadd;
    cbn [mbind result_mbind result_bind]; try done.
  - apply IH.
  - intros [= <-]. by eapply add_head_sorted_dies.
Qed.

Lemma add_head_dies repo kind heads o m :
  Heads.add_head repo kind heads o = Die m ->
  m = "unable to parse commit"%string.
Proof.
  unfold Heads.add_head, Heads.ensure_heads.
  destruct (Heads.sorted heads); cbn [mbind result_mbind result_bind].
  { destruct (Heads.add_head_sorted _ _ _) eqn:Hadd;
      cbn [mbind result_mbind result_bind]; try done.
    intros [= <-]. by eapply add_head_sorted_dies. }
  destruct (match kind with
            | Heads.changeset_heads => _ | Heads.manifest_heads => _
            end) as [c|]; cbn [mbind result_mbind result_bind].
  - destruct (Heads.after_blank_line _) as [body|]; [|done].
    destruct (Heads.ensure_heads_loop _ _ _ _ _ _) as [l| | |] eqn:Hloop;
      cbn [mbind result_mbind result_bind]; try done.
    + destruct (Heads.add_head_sorted _ _ _) eqn:Hadd;
        cbn [mbind result_mbind result_bind]; try done.
      intros [= <-]. by eapply add_head_sorted_dies.
    + intros [= <-]. by eapply ensure_heads_loop_dies.
  - destruct (Heads.add_head_sorted _ _ _) eqn:Hadd;
      cbn [mbind result_mbind result_bind]; try done.
    intros [= <-]. by eapply add_head_sorted_dies.
Qed.

Lemma loop_dies fuel : forall st hg_id git_id buf m,
  handle_changeset_conflict_loop hash_object fuel st hg_id git_id buf
  = Die m ->
  m = "Invalid git2hg note"%string.
Proof.
  induction fuel as [|fuel IH]; intros st hg_id git_id buf m;
    cbn [handle_changeset_conflict_loop];
    destruct (get_note _ _) as [note|]; try done;
    destruct (read_object_file st note) as [content|]; try done;
    (destruct (check_git2hg_note content) as [o|]; [|by intros [= <-]]);
    destruct (N.eqb o hg_id); try done.
  destruct (length buf =? 0)%nat.
  - destruct (read_object_file st git_id) as [body|]; [|done].
    cbn [mbind result_mbind result_bind].
    destruct (store_object _ _ _ _) as [st1 g1]. apply IH.
  - cbn [mbind result_mbind result_bind].
    destruct (store_object _ _ _ _) as [st1 g1]. apply IH.
Qed.

(** X7: a [set] command dies with "Invalid object" exactly when its git
    oid is not null and names no object of the type its kind asks for (a
    blob for [file], [file-meta] and [changeset-metadata], a commit for
    [manifest] and [changeset]) and, for [changeset-metadata], the
    changeset has an hg2git entry. *)
Theorem do_set_invalid_object
  fuel st kind hg_sha git_ref type notes is_manifest is_changeset
  hg_id git_id :
  set_kind kind = Some (type, notes, is_manifest, is_changeset) ->
  get_sha1_hex hg_sha = Some hg_id ->
  set_git_id find_marked st git_ref = Ok git_id ->
  do_set hash_object find_marked fuel st [kind; hg_sha; git_ref]
    = Die "Invalid object" <->
  is_null_oid git_id = false /\
  oid_object_info st git_id <> Some type /\
  (notes = NOTES_git2hg -> is_Some (hg2git st !! hg_id)).
Proof.
  intros Hkind Hhg Hgit.
  pose proof (set_kind_cases _ _ _ _ _ Hkind) as Hcases.
  unfold do_set. rewrite Hkind, Hhg, Hgit.
  cbn [mbind result_mbind result_bind].
  destruct notes.
  - destruct (is_null_oid git_id); [by split; [|intros []]|].
    destruct (bool_decide_reflect (oid_object_info st git_id = Some type))
      as [Hty|Hty]; cbn [negb]; [|by split].
    split; [|by intros (_ & H & _)].
    intros H. exfalso. destruct is_changeset.
    + destruct (handle_changeset_conflict _ _ _ _ _) as [[st1 g]|m| |] eqn:Hc;
        cbn [mbind result_mbind result_bind] in H; try done.
      * destruct is_manifest; [|done].
        unfold add_manifest_head in H.
        destruct (Heads.add_head _ _ _ _) as [|m| |] eqn:Hadd;
          cbn [mbind result_mbind result_bind] in H; try done.
        injection H as ->. by apply add_head_dies in Hadd.
      * injection H as ->. by apply loop_dies in Hc.
    + cbn [mbind result_mbind result_bind fst snd] in H.
      destruct is_manifest; [|done].
      unfold add_manifest_head in H.
      destruct (Heads.add_head _ _ _ _) as [|m| |] eqn:Hadd;
        cbn [mbind result_mbind result_bind] in H; try done.
      injection H as ->. by apply add_head_dies in Hadd.
  - assert (type = OBJ_BLOB) as ->.
    { repeat (apply elem_of_cons in Hcases as [Hcases|Hcases];
              [by simplify_eq|]).
      by apply elem_of_nil in Hcases. }
    unfold get_note. destruct (hg2git st !! hg_id) as [note|].
    + destruct (is_null_oid git_id); [by split; [|intros []]|].
      destruct (bool_decide_reflect
                  (oid_object_info st git_id = Some OBJ_BLOB))
        as [Hty|Hty]; cbn [negb]; [by split; [|intros (_ & H & _)]|].
      split; [|done]. intros _. repeat split; [done|]. by intros _.
    + destruct (is_null_oid git_id); cbn [negb].
      * by split; [|intros []].
      * split; [done|]. intros (_ & _ & H). by destruct (H eq_refl).
  - destruct (is_null_oid git_id); [by split; [|intros []]|].
    destruct (bool_decide_reflect (oid_object_info st git_id = Some type))
      as [Hty|Hty]; cbn [negb]; [|by split].
    split; [|by intros (_ & H & _)].
    assert (is_changeset = false /\ is_manifest = false) as [-> ->].
    { repeat (apply elem_of_cons in Hcases as [Hcases|Hcases];
              [by simplify_eq|]).
      by apply elem_of_nil in Hcases. }
    done.
Qed.

(** *** A changeset, then its metadata *)

Lemma set_git_id_hex st s g :
  get_sha1_hex s = Some g -> set_git_id find_marked st s = Ok g.
Proof.
  intros Hs. unfold set_git_id.
  destruct s as [|c s]; [done|].
  destruct (Ascii.eqb_spec c ":") as [->|Hc]; [done|].
  rewrite Hs.
  destruct c as [[] [] [] [] [] [] [] []]; done.
Qed.

Lemma hex_arg (o : oid) :
  (o < 2 ^ 160)%N -> get_sha1_hex (oid_to_hex o) = Some o.
Proof.
  intros Ho. rewrite <- (app_nil_r (oid_to_hex o)).
  by apply get_sha1_hex_hex.
Qed.

(** X8: [set changeset h c] for a commit that has no git2hg note yet,
    followed by [set changeset-metadata h g], records [h -> c] in hg2git
    and [c -> g] in git2hg and stores no object; and once the metadata
    blob names [h], setting the changeset to the commit again changes
    nothing. *)
Theorem set_changeset_then_metadata fuel st h c g body content :
  (h < 2 ^ 160)%N -> (c < 2 ^ 160)%N -> (g < 2 ^ 160)%N ->
  is_null_oid c = false -> is_null_oid g = false ->
  objects st !! c = Some {| obj_type := OBJ_COMMIT; obj_data := body |} ->
  objects st !! g = Some {| obj_type := OBJ_BLOB; obj_data := content |} ->
  git2hg st !! c = None ->
  let set_changeset := [lit "changeset"; oid_to_hex h; oid_to_hex c] in
  let set_metadata :=
    [lit "changeset-metadata"; oid_to_hex h; oid_to_hex g] in
  let st1 := set_hg2git st (<[h := c]> (hg2git st)) in
  let st2 := set_git2hg st1 (<[c := g]> (git2hg st)) in
  do_set hash_object find_marked fuel st set_changeset = Ok st1 /\
  do_set hash_object find_marked fuel st1 set_metadata = Ok st2 /\
  (check_git2hg_note content = Some h ->
   do_set hash_object find_marked fuel st2 set_changeset = Ok st2).
Proof.
  intros Hh Hc Hg Hcn Hgn Hco Hgo Hnote set_changeset set_metadata st1 st2.
  assert (Hkc : set_kind (lit "changeset")
                = Some (OBJ_COMMIT, NOTES_hg2git, false, true)) by reflexivity.
  assert (Hkm : set_kind (lit "changeset-metadata")
                = Some (OBJ_BLOB, NOTES_git2hg, false, false)) by reflexivity.
  assert (Hty : forall s, objects s = objects st ->
            bool_decide (oid_object_info s c = Some OBJ_COMMIT) = true /\
            bool_decide (oid_object_info s g = Some OBJ_BLOB) = true).
  { intros s Hs. unfold oid_object_info. rewrite Hs, Hco, Hgo.
    split; by apply bool_decide_eq_true. }
  split; [|split].
  - unfold do_set, set_changeset.
    rewrite Hkc, (hex_arg h), (set_git_id_hex st _ c) by (done || by apply hex_arg).
    cbn [mbind result_mbind result_bind]. rewrite Hcn.
    rewrite (proj1 (Hty st eq_refl)). cbn [negb].
    unfold handle_changeset_conflict.
    rewrite loop_stops by (by left).
    reflexivity.
  - unfold do_set, set_metadata.
    rewrite Hkm, (hex_arg h), (set_git_id_hex st1 _ g) by (done || by apply hex_arg).
    cbn [mbind result_mbind result_bind].
    unfold get_note. cbn [st1 hg2git set_hg2git].
    rewrite lookup_insert_eq, Hgn.
    rewrite (proj2 (Hty (set_hg2git st (<[h:=c]> (hg2git st))) eq_refl)).
    reflexivity.
  - intros Hcheck. unfold do_set, set_changeset.
    rewrite Hkc, (hex_arg h), (set_git_id_hex st2 _ c) by (done || by apply hex_arg).
    cbn [mbind result_mbind result_bind]. rewrite Hcn.
    rewrite (proj1 (Hty st2 eq_refl)). cbn [negb].
    unfold handle_changeset_conflict.
    rewrite loop_stops.
    + cbn [mbind result_mbind result_bind fst snd].
      f_equal. unfold add_note. cbn [st2 st1 hg2git set_hg2git set_git2hg].
      by rewrite insert_insert_eq.
    + right. exists g, content. unfold get_note, read_object_file.
      cbn [st2 st1 git2hg objects set_hg2git set_git2hg].
      by rewrite lookup_insert_eq, Hgo.
Qed.

(** *** The file store *)

Variable is_empty_hg_file : oid -> bool.
Variable hg_file_load : state -> oid -> result hg_file.
Variable hg_file_split : bytes -> option bytes * bytes.

(** X9: [hg_file_store] notes the content blob of the file in hg2git and,
    when the file has metadata, the metadata blob in files_meta; a file
    without metadata leaves files_meta as it is, whatever note the node
    had there. Both blobs are in the store afterwards, no object is
    removed or replaced, and git2hg, the heads and the last-file cache
    are not touched. *)
Theorem hg_file_store_notes st file :
  let st' := hg_file_store hash_object st file in
  hg2git st' = <[hf_oid file := hash_object OBJ_BLOB (hf_content file)]>
                 (hg2git st) /\
  files_meta st' =
    match hf_metadata file with
    | Some metadata =>
      <[hf_oid file := hash_object OBJ_BLOB metadata]> (files_meta st)
    | None => files_meta st
    end /\
  is_Some (objects st' !! hash_object OBJ_BLOB (hf_content file)) /\
  (forall metadata, hf_metadata file = Some metadata ->
     is_Some (objects st' !! hash_object OBJ_BLOB metadata)) /\
  objects st ⊆ objects st' /\
  git2hg st' = git2hg st /\
  changeset_heads st' = changeset_heads st /\
  manifest_heads st' = manifest_heads st /\
  last_file st' = last_file st.
Proof.
  unfold hg_file_store.
  destruct (hf_metadata file) as [metadata|].
  - pose proof (store_object_extends hash_object st OBJ_BLOB metadata)
      as ([Heq1 Hsub1] & Ho1 & Hin1).
    destruct (store_object hash_object st OBJ_BLOB metadata) as [st1 o1].
    cbn [fst snd] in *. subst o1.
    set (st2 := set_files_meta st1 _).
    pose proof (store_object_extends hash_object st2 OBJ_BLOB
                  (hf_content file)) as ([Heq2 Hsub2] & Ho2 & Hin2).
    destruct (store_object hash_object st2 OBJ_BLOB (hf_content file))
      as [st3 o3].
    cbn [fst snd] in *. subst o3. rewrite Heq2. subst st2. rewrite Heq1.
    cbn. repeat split; try done.
    + intros m [= <-]. destruct Hin1 as [x Hx].
      exists x. eapply lookup_weaken; [exact Hx|].
      rewrite Heq2 in Hsub2. exact Hsub2.
    + etrans; [exact Hsub1|]. rewrite Heq2 in Hsub2. exact Hsub2.
  - pose proof (store_object_extends hash_object st OBJ_BLOB
                  (hf_content file)) as ([Heq2 Hsub2] & Ho2 & Hin2).
    destruct (store_object hash_object st OBJ_BLOB (hf_content file))
      as [st3 o3].
    cbn [fst snd] in *. subst o3. rewrite Heq2. cbn. repeat split; done.
Qed.

Lemma store_file_Ok st chunk st1 :
  is_empty_hg_file (node chunk) = false ->
  store_file hash_object is_empty_hg_file hg_file_load hg_file_split st chunk
    = Ok st1 ->
  exists data, last_file st1 = hg_file_from_memory hg_file_split (node chunk) data.
Proof.
  intros Hne. unfold store_file. rewrite Hne.
  destruct (load_delta_base _ _ _) as [st0| | |];
    cbn [mbind result_mbind result_bind]; try done.
  destruct (store_file_loop _ _ _ _) as [r| | |];
    cbn [mbind result_mbind result_bind]; try done.
  destruct (_ <? _)%nat; [done|]. intros [= <-]. by eexists.
Qed.

(** X10: after [store_file] has stored a file, a chunk whose delta node is
    that file's node is applied to the data kept in the last-file cache:
    [hg_file_load] is not consulted (any other loader gives the same
    outcome), the chunk is rejected exactly when one of its parts is
    malformed against that data, and otherwise the file stored is that
    data with the ranges of the parts replaced. *)
Theorem store_file_delta_chain st chunk1 st1 chunk2 :
  is_empty_hg_file (node chunk1) = false ->
  is_empty_hg_file (node chunk2) = false ->
  store_file hash_object is_empty_hg_file hg_file_load hg_file_split st chunk1
    = Ok st1 ->
  delta_node chunk2 = node chunk1 ->
  exists data1,
    last_file st1 = hg_file_from_memory hg_file_split (node chunk1) data1 /\
    (forall load,
       store_file hash_object is_empty_hg_file load hg_file_split st1 chunk2
       = store_file hash_object is_empty_hg_file hg_file_load hg_file_split
           st1 chunk2) /\
    (store_file hash_object is_empty_hg_file hg_file_load hg_file_split
       st1 chunk2 = Die "Malformed file chunk" <->
     some_diff_malformed (length data1) 0 (diffs chunk2)) /\
    (~ some_diff_malformed (length data1) 0 (diffs chunk2) ->
     exists st2,
       store_file hash_object is_empty_hg_file hg_file_load hg_file_split
         st1 chunk2 = Ok st2 /\
       last_file st2 = hg_file_from_memory hg_file_split (node chunk2)
                         (replace_ranges data1 0 (diffs chunk2)) /\
       hg2git st2 !! node chunk2
       = Some (hash_object OBJ_BLOB
                 (hg_file_split (replace_ranges data1 0 (diffs chunk2))).2)).
Proof.
  intros Hne1 Hne2 Hstore Hdelta.
  destruct (store_file_Ok st chunk1 st1 Hne1 Hstore) as [data1 Hlast].
  exists data1. split; [done|].
  assert (Hbase : forall load, load_delta_base load st1 chunk2 = Ok st1).
  { intros load. unfold load_delta_base.
    by rewrite Hdelta, Hlast, N.eqb_refl. }
  assert (Hunfold : forall load,
    store_file hash_object is_empty_hg_file load hg_file_split st1 chunk2
    = data ← rebuild data1 (diffs chunk2) [] 0;
      let file := hg_file_from_memory hg_file_split (node chunk2) data in
      Ok (set_last_file (hg_file_store hash_object st1 file) file)).
  { intros load.
    rewrite (store_file_unfold _ _ _ _ st1 chunk2 st1 Hne2 (Hbase load)).
    by rewrite Hlast. }
  split; [intros load; by rewrite !Hunfold|].
  rewrite Hunfold.
  split.
  - split.
    + intros H. destruct (rebuild data1 _ _ _) as [d|m| |] eqn:Hr;
        cbn [mbind result_mbind result_bind] in H; try done.
      injection H as ->.
      apply rebuild_malformed in Hr as [Hr|Hr]; [lia|done].
    + intros H.
      rewrite (proj2 (rebuild_malformed data1 (diffs chunk2) [] 0))
        by (by right).
      done.
  - intros Hok.
    rewrite (rebuild_replaces data1 (diffs chunk2) [] 0)
      by (intros [H|H]; [lia|done]).
    cbn [mbind result_mbind result_bind app].
    eexists. split; [reflexivity|]. split; [reflexivity|].
    exact (proj1 (hg_file_store_hg2git hash_object st1
                    (hg_file_from_memory hg_file_split (node chunk2)
                       (replace_ranges data1 0 (diffs chunk2))))).
Qed.

End WithEnvironment.

(** *** Instances *)

Definition after_set_file_meta : state :=
  set_files_meta stored_changeset
    {[ 0x1111111111111111111111111111111111111111%N := example_metadata_oid ]}.

Lemma do_set_frame_witness :
  exists kind hg_sha git_ref type notes is_manifest is_changeset,
    [lit "file-meta"; hg_node_1; oid_to_hex example_metadata_oid]
      = [kind; hg_sha; git_ref] /\
    set_kind kind = Some (type, notes, is_manifest, is_changeset) /\
    objects stored_changeset ⊆ objects after_set_file_meta /\
    (is_changeset = false ->
     objects after_set_file_meta = objects stored_changeset) /\
    changeset_heads after_set_file_meta = changeset_heads stored_changeset /\
    (is_manifest = false ->
     manifest_heads after_set_file_meta = manifest_heads stored_changeset) /\
    last_file after_set_file_meta = last_file stored_changeset /\
    (notes <> NOTES_hg2git ->
     hg2git after_set_file_meta = hg2git stored_changeset) /\
    (notes <> NOTES_git2hg ->
     git2hg after_set_file_meta = git2hg stored_changeset) /\
    (notes <> NOTES_files_meta ->
     files_meta after_set_file_meta = files_meta stored_changeset).
Proof.
  apply (do_set_frame example_hash no_marks 0 stored_changeset).
  vm_compute. reflexivity.
Defined.

Lemma do_set_invalid_object_witness :
  do_set example_hash no_marks 0 stored_changeset
    [lit "file"; hg_node_2; oid_to_hex example_commit_oid]
    = Die "Invalid object" <->
  is_null_oid example_commit_oid = false /\
  oid_object_info stored_changeset example_commit_oid <> Some OBJ_BLOB /\
  (NOTES_hg2git = NOTES_git2hg ->
   is_Some (hg2git stored_changeset
              !! 0x2222222222222222222222222222222222222222%N)).
Proof.
  apply (do_set_invalid_object example_hash no_marks 0 stored_changeset
           (lit "file") hg_node_2 (oid_to_hex example_commit_oid)
           OBJ_BLOB NOTES_hg2git false false).
  - vm_compute. reflexivity.
  - vm_compute. reflexivity.
  - vm_compute. reflexivity.
Defined.

(** A store that holds a commit and a metadata blob, and no note. *)
Definition unset_changeset : state :=
  set_objects empty_state (objects stored_changeset).

Lemma set_changeset_then_metadata_witness :
  let h := 0x1111111111111111111111111111111111111111%N in
  let set_changeset :=
    [lit "changeset"; oid_to_hex h; oid_to_hex example_commit_oid] in
  let set_metadata :=
    [lit "changeset-metadata"; oid_to_hex h;
     oid_to_hex example_metadata_oid] in
  let st1 := set_hg2git unset_changeset
               (<[h := example_commit_oid]> (hg2git unset_changeset)) in
  let st2 := set_git2hg st1
               (<[example_commit_oid := example_metadata_oid]>
                  (git2hg unset_changeset)) in
  do_set example_hash no_marks 0 unset_changeset set_changeset = Ok st1 /\
  do_set example_hash no_marks 0 st1 set_metadata = Ok st2 /\
  (check_git2hg_note example_metadata = Some h ->
   do_set example_hash no_marks 0 st2 set_changeset = Ok st2).
Proof.
  apply (set_changeset_then_metadata example_hash no_marks 0 unset_changeset
           0x1111111111111111111111111111111111111111%N
           example_commit_oid example_metadata_oid
           example_commit example_metadata).
  - lia.
  - vm_compute. reflexivity.
  - vm_compute. reflexivity.
  - vm_compute. reflexivity.
  - vm_compute. reflexivity.
  - vm_compute. reflexivity.
  - vm_compute. reflexivity.
  - vm_compute. reflexivity.
Defined.

Lemma store_file_delta_chain_witness :
  exists data1,
    last_file after_hello
      = hg_file_from_memory example_hg_file_split (node chunk_hello) data1 /\
    (forall load,
       store_file example_hash example_is_empty_hg_file load
         example_hg_file_split after_hello chunk_HELLO
       = example_store_file after_hello chunk_HELLO) /\
    (example_store_file after_hello chunk_HELLO = Die "Malformed file chunk"
     <-> some_diff_malformed (length data1) 0 (diffs chunk_HELLO)) /\
    (~ some_diff_malformed (length data1) 0 (diffs chunk_HELLO) ->
     exists st2,
       example_store_file after_hello chunk_HELLO = Ok st2 /\
       last_file st2
       = hg_file_from_memory example_hg_file_split (node chunk_HELLO)
           (replace_ranges data1 0 (diffs chunk_HELLO)) /\
       hg2git st2 !! node chunk_HELLO
       = Some (example_hash OBJ_BLOB
                 (example_hg_file_split
                    (replace_ranges data1 0 (diffs chunk_HELLO))).2)).
Proof.
  apply (store_file_delta_chain example_hash example_is_empty_hg_file
           example_hg_file_load example_hg_file_split
           empty_state chunk_hello after_hello chunk_HELLO).
  - vm_compute. reflexivity.
  - vm_compute. reflexivity.
  - vm_compute. reflexivity.
  - reflexivity.
Defined.

End CoreFacts.

(** ** More on the manifest store *)

Module ManifestFacts.

Import Manifest.

(** *** Manifest lines *)

Lemma split_at_Some c s p rest :
  split_at c s = Some (p, rest) -> s = p ++ c :: rest /\ c ∉ p.
Proof.
  revert p. induction s as [|x s IH]; intros p; [done|].
  cbn [split_at]. destruct (Ascii.eqb_spec x c) as [->|Hx].
  - intros [= <- <-]. split; [done|]. apply not_elem_of_nil.
  - destruct (split_at c s) as [[before after]|]; [|done].
    intros [= <- <-]. destruct (IH before eq_refl) as [-> Hnotin].
    split; [done|]. apply not_elem_of_cons. by split; [congruence|].
Qed.

(** X11: [split_manifest_line] accepts a slice exactly when it begins with
    a line [<path> NUL <40 hex digits> <attr> LF], with a path that is
    not empty and holds no NUL and an attribute that is absent, [l] or
    [x]; it then yields the path, the oid the digits spell, the attribute
    (NUL when absent), and the slice after the line. *)
Theorem split_manifest_line_spec (slice : bytes) (line : manifest_line)
  (rest : bytes) :
  split_manifest_line slice = Some (line, rest) <->
  exists hex,
    slice = path line
            ++ NUL :: (hex ++ attr_bytes (attr line) ++ LF :: rest) /\
    path line <> [] /\ (NUL ∉ path line) /\
    length hex = 40%nat /\ get_sha1_hex hex = Some (line_oid line) /\
    (attr line = NUL \/ attr line = "l"%char \/ attr line = "x"%char).
Proof.
  split.
  - unfold split_manifest_line, strslice_split_once.
    destruct (split_at NUL slice) as [[p s]|] eqn:Hsplit; [|done].
    apply split_at_Some in Hsplit as [-> Hnul].
    destruct p as [|c p]; [discriminate|]. cbn [length Nat.eqb].
    destruct (Nat.ltb_spec (length s) 41) as [|Hlen]; [done|].
    destruct (get_sha1_hex s) as [o|] eqn:Hhex; [|done].
    rewrite <- (take_drop 40 s) in Hhex |- *.
    assert (Hlen40 : length (take 40 s) = 40%nat)
      by (rewrite length_take; lia).
    unfold get_sha1_hex in Hhex. rewrite get_hex_app in Hhex by done.
    rewrite drop_app_length' by done.
    destruct (drop 40 s) as [|a tl]; [done|].
    destruct (Ascii.eqb_spec a "l") as [->|Hl];
      [|destruct (Ascii.eqb_spec a "x") as [->|Hx]]; cbn [orb].
    + cbn [drop]. rewrite drop_0. destruct tl as [|c' tl]; [done|].
      destruct (Ascii.eqb_spec c' LF) as [->|]; [|done].
      intros [= <- <-]. exists (take 40 s). cbn. auto 10.
    + cbn [drop]. rewrite drop_0. destruct tl as [|c' tl]; [done|].
      destruct (Ascii.eqb_spec c' LF) as [->|]; [|done].
      intros [= <- <-]. exists (take 40 s). cbn. auto 10.
    + destruct (Ascii.eqb_spec a LF) as [->|]; [|done].
      rewrite Ascii.eqb_refl.
      intros [= <- <-]. exists (take 40 s). cbn. auto 10.
  - intros (hex & -> & Hp & Hnul & Hlen & Hhex & Ha).
    destruct line as [p o a]. cbn [path attr line_oid] in *.
    by apply split_manifest_line_line.
Qed.

(** *** Paths *)

Lemma split_at_None c s : split_at c s = None -> c ∉ s.
Proof.
  induction s as [|x s IH]; [intros _; apply not_elem_of_nil|].
  cbn [split_at]. destruct (Ascii.eqb_spec x c) as [->|Hx]; [done|].
  destruct (split_at c s) as [[before after]|]; [done|].
  intros _. apply not_elem_of_cons. split; [congruence|by apply IH].
Qed.

Lemma split_at_not_in c s : c ∉ s -> split_at c s = None.
Proof.
  induction s as [|x s IH]; [done|].
  intros [Hx Hs]%not_elem_of_cons. cbn [split_at].
  destruct (Ascii.eqb_spec x c) as [->|_]; [done|]. by rewrite IH.
Qed.

Lemma path_components_fuel f1 : forall f2 p,
  (length p <= f1)%nat -> (length p <= f2)%nat ->
  path_components f1 p = path_components f2 p.
Proof.
  induction f1 as [|f1 IH]; intros f2 p H1 H2.
  - destruct p; [|cbn in H1; lia]. by destruct f2.
  - destruct f2 as [|f2].
    + destruct p; [done|cbn in H2; lia].
    + cbn [path_components].
      destruct (split_at "/" p) as [[c rest]|] eqn:Hsplit; [|done].
      apply split_at_Some in Hsplit as [-> _].
      rewrite length_app in H1, H2. cbn in H1, H2.
      f_equal. apply IH; lia.
Qed.

(** The components joined by slashes. *)
Fixpoint join_path (cs : list bytes) : bytes :=
  match cs with
  | [] => []
  | c :: cs' =>
    match cs' with
    | [] => c
    | _ :: _ => c ++ "/"%char :: join_path cs'
    end
  end.

Lemma path_components_cons f p : exists c cs, path_components f p = c :: cs.
Proof.
  destruct f as [|f]; cbn; [by eexists _, _|].
  destruct (split_at _ _) as [[c rest]|]; by eexists _, _.
Qed.

Lemma path_components_no_slash f : forall p,
  (length p <= f)%nat ->
  Forall (fun c => "/"%char ∉ c) (path_components f p).
Proof.
  induction f as [|f IH]; intros p Hlen.
  - destruct p; [|cbn in Hlen; lia]. repeat constructor. apply not_elem_of_nil.
  - cbn [path_components].
    destruct (split_at "/" p) as [[c rest]|] eqn:Hsplit.
    + apply split_at_Some in Hsplit as [-> Hc].
      rewrite length_app in Hlen. cbn in Hlen.
      constructor; [done|]. apply IH. lia.
    + repeat constructor. by apply split_at_None.
Qed.

Lemma metadata_path_loop fuel : forall out inp,
  (length inp < fuel)%nat ->
  manifest_metadata_path_loop fuel out inp
  = out ++ join_path (cons "_"%char <$> path_components (length inp) inp).
Proof.
  induction fuel as [|fuel IH]; intros out inp Hlen; [lia|].
  cbn [manifest_metadata_path_loop].
  destruct (split_at "/" inp) as [[part rest]|] eqn:Hsplit.
  - pose proof Hsplit as [-> _]%split_at_Some.
    rewrite length_app in Hlen |- *. cbn [length] in Hlen |- *.
    rewrite IH by lia.
    replace (length part + S (length rest))%nat
      with (S (length part + length rest)) by lia.
    cbn [path_components].
    rewrite split_at_app by (by apply split_at_Some in Hsplit as [_ ?]).
    rewrite (path_components_fuel (length part + length rest)
               (length rest) rest) by lia.
    destruct (path_components_cons (length rest) rest) as (c & cs & ->).
    cbn [fmap list_fmap join_path].
    rewrite <- !(assoc_L (++)). cbn. by rewrite <- (assoc_L (++)).
  - destruct inp as [|x inp]; [done|].
    cbn [length path_components]. by rewrite Hsplit.
Qed.

Lemma path_components_join f : forall c cs,
  Forall (fun c => "/"%char ∉ c) (c :: cs) ->
  (length (join_path (c :: cs)) <= f)%nat ->
  path_components f (join_path (c :: cs)) = c :: cs.
Proof.
  induction f as [|f IH]; intros c cs Hall Hlen.
  - destruct cs as [|c' cs]; cbn [join_path] in *.
    + done.
    + rewrite length_app in Hlen. cbn in Hlen. lia.
  - apply Forall_cons in Hall as [Hc Hall].
    destruct cs as [|c' cs]; cbn [join_path path_components] in *.
    + by rewrite split_at_not_in.
    + rewrite split_at_app by done. f_equal.
      rewrite length_app in Hlen. cbn [length] in Hlen.
      apply IH; [done|]. cbn [join_path]. lia.
Qed.

Lemma metadata_path_join (p : bytes) :
  manifest_metadata_path p
  = join_path (cons "_"%char <$> path_components (length p) p).
Proof. unfold manifest_metadata_path. by rewrite metadata_path_loop by lia. Qed.

Lemma tree_path_prefixed (p : bytes) :
  tree_path p = cons "_"%char <$> path_components (length p) p.
Proof.
  assert (Hno : Forall (fun c => "/"%char ∉ c)
                  (cons "_"%char <$> path_components (length p) p)).
  { apply Forall_fmap.
    eapply Forall_impl; [apply (path_components_no_slash _ p); lia|].
    intros c Hc. cbn. apply not_elem_of_cons. by split. }
  unfold tree_path. rewrite metadata_path_join.
  destruct (path_components_cons (length p) p) as (c & cs & Heq).
  rewrite Heq in Hno |- *. cbn [fmap list_fmap] in Hno |- *.
  by apply path_components_join.
Qed.

(** X12: [manifest_metadata_path] puts [_] before every component of a
    manifest path and keeps the slashes between them, so that the path
    [tree_content_set] and [tree_content_remove] get has the components
    of the manifest path, each with the prefix [_]: none of them is empty
    and none holds a slash. *)
Theorem tree_path_spec (p : bytes) :
  manifest_metadata_path p
  = join_path (cons "_"%char <$> path_components (length p) p) /\
  tree_path p = cons "_"%char <$> path_components (length p) p /\
  Forall (fun c => c <> [] /\ "/"%char ∉ c) (tree_path p).
Proof.
  split; [apply metadata_path_join|]. split; [apply tree_path_prefixed|].
  rewrite tree_path_prefixed. apply Forall_fmap.
  eapply Forall_impl; [apply (path_components_no_slash _ p); lia|].
  intros c Hc. cbn. split; [done|]. apply not_elem_of_cons. by split.
Qed.

(** *** What an accepted chunk looks like *)

(** Every diff starts at or after the end of the one before it, and ends
    at or after its start. *)
Fixpoint diffs_in_order (last_end : nat) (ds : list Core.rev_diff_part)
  : Prop :=
  match ds with
  | [] => True
  | d :: ds =>
    (last_end <= Core.diff_start d <= Core.diff_end d)%nat /\
    diffs_in_order (Core.diff_end d) ds
  end.

(** The offset is the start of the text or follows a newline. *)
Definition line_boundary (content : bytes) (i : nat) : Prop :=
  i = 0%nat \/ content !! (i - 1)%nat = Some LF.

Section WithStore.

Variable hash_object : Core.object_type -> bytes -> oid.
Variable read_tree : Core.state -> oid -> result (list tree_entry).
Variable generate_manifest : Core.state -> oid -> bytes.
Variable check_manifest_fails : Core.state -> oid -> bool.
Variable slack : nat -> ascii.

Lemma new_remove_files_in_order fuel st ds : forall last_end t t',
  new_remove_files read_tree fuel st ds last_end t = Ok t' ->
  diffs_in_order last_end ds.
Proof.
  induction ds as [|d ds IH]; intros last_end t t'; [done|].
  cbn [new_remove_files diffs_in_order].
  destruct (Nat.ltb_spec (Core.diff_start d) last_end); [done|].
  destruct (Nat.ltb_spec (Core.diff_end d) (Core.diff_start d)); [done|].
  cbn [orb].
  destruct (manifest_tree_advance _ _ _ _ _ _) as [[[] t1]| | |];
    cbn [and_then negb]; try done.
  destruct (manifest_tree_advance _ _ _ _ _ _) as [[[] t2]| | |];
    cbn [and_then negb]; try done.
  intros Hres. split; [lia|]. by eapply IH.
Qed.

Lemma byte_at_LF content i :
  byte_at slack content i = LF -> (i < length content)%nat ->
  content !! i = Some LF.
Proof.
  unfold byte_at. intros H Hi.
  destruct (content !! i) as [c|] eqn:Hc; [by subst|].
  apply lookup_ge_None in Hc. lia.
Qed.

Lemma old_remove_files_accepts st content ds :
  forall data last_end tree data' last_end' tree',
    old_remove_files read_tree slack st content ds data last_end tree
    = Ok (data', last_end', tree') ->
    diffs_in_order last_end ds /\
    (last_end <= last_end')%nat /\
    Forall (fun d =>
              (Core.diff_start d <= length content)%nat /\
              (Core.diff_end d <= last_end')%nat /\
              (0 < Core.diff_start d ->
               byte_at slack content (Core.diff_start d - 1) = LF)%nat /\
              (0 < Core.diff_end d ->
               byte_at slack content (Core.diff_end d - 1) = LF)%nat) ds /\
    data' ++ drop last_end' content
    = data ++ Core.replace_ranges content last_end ds.
Proof.
  induction ds as [|d ds IH];
    intros data last_end tree data' last_end' tree'.
  - cbn. intros [= <- <- <-]. auto.
  - cbn [old_remove_files diffs_in_order Core.replace_ranges].
    destruct (Nat.ltb_spec (length content) (Core.diff_start d)); [done|].
    destruct (Nat.ltb_spec (Core.diff_start d) last_end); [done|].
    destruct (Nat.ltb_spec (Core.diff_end d) (Core.diff_start d)); [done|].
    cbn [orb].
    destruct (Nat.ltb_spec 0 (Core.diff_start d)) as [Hs|Hs]; cbn [andb].
    + destruct (Ascii.eqb_spec
                  (byte_at slack content (Core.diff_start d - 1)) LF)
        as [Hb|]; [|done]. cbn [negb].
      destruct (Nat.ltb_spec 0 (Core.diff_end d)) as [He|He]; cbn [andb].
      * destruct (Ascii.eqb_spec
                    (byte_at slack content (Core.diff_end d - 1)) LF)
          as [Hb'|]; [|done]. cbn [negb].
        destruct (remove_lines _ _ _ _) as [tree1| | |]; cbn [and_then];
          try done.
        intros Hres. apply IH in Hres as (Hord & Hle & Hall & Htext).
        split; [split; [lia|done]|]. split; [lia|].
        split; [constructor; [repeat split; auto; lia|done]|].
        rewrite Htext, <- !(assoc_L (++)). done.
      * lia.
    + destruct (Nat.ltb_spec 0 (Core.diff_end d)) as [He|He]; cbn [andb].
      * destruct (Ascii.eqb_spec
                    (byte_at slack content (Core.diff_end d - 1)) LF)
          as [Hb'|]; [|done]. cbn [negb].
        destruct (remove_lines _ _ _ _) as [tree1| | |]; cbn [and_then];
          try done.
        intros Hres. apply IH in Hres as (Hord & Hle & Hall & Htext).
        split; [split; [lia|done]|]. split; [lia|].
        split; [constructor; [repeat split; auto; lia|done]|].
        rewrite Htext, <- !(assoc_L (++)). done.
      * destruct (remove_lines _ _ _ _) as [tree1| | |]; cbn [and_then];
          try done.
        intros Hres. apply IH in Hres as (Hord & Hle & Hall & Htext).
        split; [split; [lia|done]|]. split; [lia|].
        split; [constructor; [repeat split; auto; lia|done]|].
        rewrite Htext, <- !(assoc_L (++)). done.
Qed.

Lemma emit_commit_fields ms chunk tree content ms' :
  emit_commit hash_object read_tree check_manifest_fails ms chunk tree content
  = Ok ms' ->
  last_manifest_content ms' = content /\
  last_manifest_oid ms' = Core.node chunk.
Proof.
  unfold emit_commit.
  destruct (store_tree _ _ _ _) as [[st tree']| | |]; cbn [and_then];
    try discriminate.
  destruct (add_parent _ _ _) as [d1|]; [|discriminate].
  destruct (add_parent _ _ _) as [d2|]; [|discriminate].
  destruct (Core.store_object hash_object st _ _) as [st' c].
  destruct (Core.add_manifest_head _ _) as [st''| | |]; cbn [and_then];
    try discriminate.
  destruct (check_manifest_fails _ _); [discriminate|].
  intros Heq.
  split.
  - exact (eq_sym (f_equal (fun r => match r with
                                     | Ok m => last_manifest_content m
                                     | _ => content
                                     end) Heq)).
  - exact (eq_sym (f_equal (fun r => match r with
                                     | Ok m => last_manifest_oid m
                                     | _ => Core.node chunk
                                     end) Heq)).
Qed.

(** X13: neither strategy accepts a chunk whose diffs are out of order:
    when [store_manifest] returns, every diff starts at or after the end
    of the diff before it and ends at or after its own start. *)
Theorem store_manifest_in_order experiment fuel ms chunk ms' :
  store_manifest hash_object read_tree generate_manifest
    check_manifest_fails slack experiment fuel ms chunk = Ok ms' ->
  diffs_in_order 0 (Core.diffs chunk).
Proof.
  unfold store_manifest, new_store_manifest, old_store_manifest.
  destruct experiment.
  - destruct (reload_manifest _ _ _ _ _) as [ms1| | |]; cbn [and_then];
      try discriminate.
    destruct (new_remove_files _ _ _ _ _ _) as [t| | |] eqn:Hrm;
      cbn [and_then]; try discriminate.
    intros _. by eapply new_remove_files_in_order.
  - destruct (reload_manifest _ _ _ _ _) as [ms1| | |]; cbn [and_then];
      try discriminate.
    destruct (old_remove_files _ _ _ _ _ _ _ _)
      as [[[data last_end] tree]| | |] eqn:Hrm;
      cbn [and_then]; try discriminate.
    intros _. by apply old_remove_files_accepts in Hrm as [? _].
Qed.

Lemma ranges_in_order_intro len ds : forall last_end last_end',
  diffs_in_order last_end ds ->
  Forall (fun d => (Core.diff_end d <= last_end')%nat) ds ->
  (last_end' <= len)%nat ->
  Core.ranges_in_order len last_end ds.
Proof.
  induction ds as [|d ds IH]; intros last_end last_end' Hord Hall Hlen;
    [done|].
  destruct Hord as [Hd Hord]. apply Forall_cons in Hall as [He Hall].
  cbn [Core.ranges_in_order]. split; [done|]. split; [lia|]. by eapply IH.
Qed.

(** X14: when the text-rebuild strategy accepts a chunk, the diffs are
    ranges in ascending order inside the manifest text it holds, each
    range starts and ends at the start of the text or just after a
    newline, and the text it keeps for the next chunk is the old text
    with each range replaced by the data of its diff. *)
Theorem old_store_manifest_text ms chunk ms1 ms' :
  reload_manifest read_tree generate_manifest true ms (Core.delta_node chunk)
    = Ok ms1 ->
  old_store_manifest hash_object read_tree generate_manifest
    check_manifest_fails slack ms chunk = Ok ms' ->
  let content := last_manifest_content ms1 in
  Core.ranges_in_order (length content) 0 (Core.diffs chunk) /\
  Forall (fun d => line_boundary content (Core.diff_start d) /\
                   line_boundary content (Core.diff_end d))
    (Core.diffs chunk) /\
  last_manifest_content ms'
  = Core.replace_ranges content 0 (Core.diffs chunk) /\
  last_manifest_oid ms' = Core.node chunk.
Proof.
  intros Hreload. unfold old_store_manifest. rewrite Hreload.
  cbn [and_then].
  destruct (old_remove_files _ _ _ _ _ _ _ _)
    as [[[data last_end] tree]| | |] eqn:Hrm;
    cbn [and_then]; try discriminate.
  destruct (add_files _ _ _ _) as [tree2| | |]; cbn [and_then];
    try discriminate.
  destruct (Nat.ltb_spec (length (last_manifest_content ms1)) last_end)
    as [|Hlen]; [discriminate|].
  intros Hemit. set (content := last_manifest_content ms1) in *.
  apply emit_commit_fields in Hemit as [Hcontent Hnode].
  apply old_remove_files_accepts in Hrm as (Hord & _ & Hall & Htext).
  assert (Hin : Core.ranges_in_order (length content) 0 (Core.diffs chunk)).
  { eapply ranges_in_order_intro; [done| |exact Hlen].
    eapply Forall_impl; [exact Hall|]. by intros d (_ & ? & _). }
  split; [done|]. split; [|split; [|done]].
  - eapply Forall_impl; [exact Hall|].
    intros d (Hs & He & Hbs & Hbe). split.
    + destruct (Nat.eq_dec (Core.diff_start d) 0%nat) as [->|]; [by left|].
      right. apply byte_at_LF; [apply Hbs; lia|].
      fold content. lia.
    + destruct (Nat.eq_dec (Core.diff_end d) 0%nat) as [->|]; [by left|].
      right. apply byte_at_LF; [apply Hbe; lia|].
      fold content. lia.
  - rewrite Hcontent, Htext. done.
Qed.

(** *** The commit of a manifest, read back *)

Lemma add_parent_prefix ms data parent data' :
  add_parent ms data parent = Some data' -> data `prefix_of` data'.
Proof.
  unfold add_parent. destruct (is_null_oid parent); [by intros [= <-]|].
  destruct (if N.eqb parent _ then _ else _) as [note|]; [|done].
  intros [= <-]. by apply prefix_app_r.
Qed.

(** X15: the commit [store_manifest] ends with can be read back: hg2git
    maps the manifest node to it and, when its name was new to the
    store, [parse_from_existing] finds in it the oid of the tree that was
    stored, as the next reload of this manifest will. *)
Theorem emit_commit_read_back ms chunk tree content ms' st1 tree' t :
  store_tree hash_object read_tree (core ms) tree = Ok (st1, tree') ->
  emit_commit hash_object read_tree check_manifest_fails ms chunk tree content
    = Ok ms' ->
  Core.objects st1 !! b_oid (last_manifest ms') = None ->
  (te_oid tree' < 2 ^ 160)%N ->
  is_null_oid (b_oid (last_manifest ms')) = false ->
  branch_tree (last_manifest ms') = tree' /\
  Core.get_note (Core.hg2git (core ms')) (Core.node chunk)
    = Some (b_oid (last_manifest ms')) /\
  parse_from_existing (core ms')
    {| b_oid := b_oid (last_manifest ms'); branch_tree := t |}
  = Ok {| b_oid := b_oid (last_manifest ms');
          branch_tree := set_oid t (te_oid tree') |}.
Proof.
  intros Hstore. unfold emit_commit. rewrite Hstore. cbn [and_then].
  destruct (add_parent ms _ (Core.parent1 chunk)) as [d1|] eqn:Hp1;
    [|discriminate].
  destruct (add_parent ms d1 (Core.parent2 chunk)) as [d2|] eqn:Hp2;
    [|discriminate].
  set (text := d2 ++ _).
  assert (Hprefix : lit "tree " ++ oid_to_hex (te_oid tree') ++ [LF]
                    `prefix_of` text).
  { etrans; [by eapply add_parent_prefix|].
    etrans; [by eapply add_parent_prefix|]. by apply prefix_app_r. }
  destruct Hprefix as [rest Htext].
  unfold Core.store_object.
  destruct (Core.objects st1 !! hash_object Core.OBJ_COMMIT text) eqn:Hobj.
  - destruct (Core.add_manifest_head _ _) as [st''| | |]; cbn [and_then];
      try discriminate.
    destruct (check_manifest_fails _ _); [discriminate|].
    intros Heq Hfresh.
    assert (b_oid (last_manifest ms') = hash_object Core.OBJ_COMMIT text)
      as Hb.
    { exact (eq_sym (f_equal (fun r => match r with
                                       | Ok m => b_oid (last_manifest m)
                                       | _ => 0%N
                                       end) Heq)). }
    rewrite Hb in Hfresh. congruence.
  - destruct (Core.add_manifest_head _ _) as [st''| | |] eqn:Hhead;
      cbn [and_then]; try discriminate.
    destruct (check_manifest_fails _ _); [discriminate|].
    intros Heq _ Hlt Hnull.
    assert (ms' = {| core := st'';
                     last_manifest_oid := Core.node chunk;
                     last_manifest :=
                       {| b_oid := hash_object Core.OBJ_COMMIT text;
                          branch_tree := tree' |};
                     last_manifest_content := content |}) as ->.
    { exact (eq_sym (f_equal (fun r => match r with
                                       | Ok m => m
                                       | _ => ms'
                                       end) Heq)). }
    cbn [last_manifest b_oid branch_tree core] in *.
    unfold Core.add_manifest_head in Hhead.
    destruct (Heads.add_head _ _ _ _) as [h| | |]; try discriminate.
    cbn [mbind result_mbind result_bind] in Hhead.
    injection Hhead as <-.
    split; [done|]. split.
    + unfold Core.get_note, Core.add_note. cbn. by rewrite lookup_insert_eq.
    + unfold parse_from_existing. cbn [b_oid branch_tree]. rewrite Hnull.
      cbn [negb Core.objects Core.set_manifest_heads Core.set_hg2git
           Core.set_objects].
      rewrite lookup_insert_eq.
      assert (Hlen : (46 <= length text)%nat).
      { rewrite Htext, !length_app, CoreFacts.length_oid_to_hex. cbn. lia. }
      destruct (Nat.ltb_spec (length text) 46); [lia|].
      rewrite Htext. rewrite <- !(assoc_L (++)).
      unfold Core.strip_prefix.
      rewrite take_app_length, bool_decide_eq_true_2 by done.
      rewrite drop_app_length.
      by rewrite CoreFacts.get_sha1_hex_hex.
Qed.

(** *** The walker's count of bytes *)

Lemma length_join_path (cs : list bytes) :
  cs <> [] ->
  (length (join_path cs) + 1 = sum_list (length <$> cs) + length cs)%nat.
Proof.
  induction cs as [|c cs IH]; [done|]. intros _.
  destruct cs as [|c' cs].
  - cbn. lia.
  - change (join_path (c :: c' :: cs))
      with (c ++ "/"%char :: join_path (c' :: cs)).
    specialize (IH ltac:(done)).
    rewrite length_app. rewrite !fmap_cons in *.
    change (sum_list (length c :: ?l)) with (length c + sum_list l)%nat.
    change (length (c :: ?l)) with (S (length l)).
    change (length ("/"%char :: ?l)) with (S (length l)).
    rewrite <- !fmap_cons in *. lia.
Qed.

Lemma sum_lengths_app (l1 l2 : list bytes) :
  sum_list (length <$> (l1 ++ l2))
  = (sum_list (length <$> l1) + sum_list (length <$> l2))%nat.
Proof. induction l1 as [|x l1 IH]; [done|]. cbn in *. lia. Qed.

(** X16: the number of bytes [manifest_tree_advance] counts for a file
    entry is the length of the manifest line of that file: for the line
    of a path with its 40 digits and attribute, the entry that
    [tree_content_set] creates under the directories of the path is
    counted, with the lengths of the directory names as prefix, for
    exactly the bytes of the line. *)
Theorem line_length_of_line (p hex : bytes) (a : ascii) (o : oid) (mode : N) :
  length hex = 40%nat -> mode_of_attr a = Some mode ->
  exists dirs f,
    tree_path p = dirs ++ [f] /\
    line_length (sum_list (length <$> dirs)) (TreeEntry f mode o None)
    = length (p ++ NUL :: (hex ++ attr_bytes a ++ [LF])).
Proof.
  intros Hhex Hmode.
  pose proof (metadata_path_join p) as Hmeta.
  pose proof (tree_path_prefixed p) as Hpath.
  destruct (path_components_cons (length p) p) as (c & cs & Hcs).
  assert (Hjoin : join_path (path_components (length p) p) = p).
  { clear. generalize (Nat.le_refl (length p)).
    generalize (length p) at 2 3 as f.
    intros f. revert p. induction f as [|f IH]; intros p Hlen.
    - by destruct p.
    - cbn [path_components].
      destruct (split_at "/" p) as [[c rest]|] eqn:Hsplit; [|done].
      apply split_at_Some in Hsplit as [-> _].
      rewrite length_app in Hlen. cbn in Hlen.
      destruct (path_components_cons f rest) as (c' & cs' & Heq).
      cbn [join_path]. rewrite Heq, <- Heq, IH by lia. done. }
  destruct (exists_last (l := path_components (length p) p))
    as (cs0 & f0 & Hlast); [by rewrite Hcs|].
  exists (cons "_"%char <$> cs0), ("_"%char :: f0).
  split; [by rewrite Hpath, Hlast, fmap_app|].
  pose proof (length_join_path (path_components (length p) p)
                ltac:(by rewrite Hcs)) as Hlen.
  rewrite Hjoin, Hlast, sum_lengths_app, length_app in Hlen.
  cbn in Hlen.
  unfold line_length. cbn [te_name te_mode].
  rewrite !length_app. cbn [length]. rewrite !length_app, Hhex.
  assert (Hsum : sum_list (length <$> (cons "_"%char <$> cs0))
                 = (sum_list (length <$> cs0) + length cs0)%nat).
  { clear. induction cs0 as [|x l IH]; [done|]. cbn in *. lia. }
  rewrite Hsum.
  unfold mode_of_attr in Hmode.
  destruct (Ascii.eqb_spec a NUL) as [->|Hn].
  { injection Hmode as <-.
    change (N.land MODE_REGULAR 511 =? 420)%N with true.
    change (attr_bytes NUL) with (@nil ascii). cbn [length]. lia. }
  destruct (Ascii.eqb_spec a "x") as [->|Hx].
  { injection Hmode as <-.
    change (N.land MODE_EXEC 511 =? 420)%N with false.
    change (attr_bytes "x") with ["x"%char]. cbn [length]. lia. }
  destruct (Ascii.eqb_spec a "l") as [->|Hl]; [|done].
  injection Hmode as <-.
  change (N.land MODE_LINK 511 =? 420)%N with false.
  change (attr_bytes "l") with ["l"%char]. cbn [length]. lia.
Qed.

End WithStore.

(** The state after the chunk of the single file [a], under the
    text-rebuild strategy. *)
Definition state_after_chunk_a : mstate :=
  match after_chunk_a false with
  | Ok ms => ms
  | _ => initial_mstate Core.empty_state
  end.

Lemma store_manifest_in_order_witness :
  store_manifest example_hash no_trees no_text no_check zero_slack
    false 1 (initial_mstate Core.empty_state) chunk_a
  = Ok state_after_chunk_a /\
  diffs_in_order 0 (Core.diffs chunk_a).
Proof.
  assert (store_manifest example_hash no_trees no_text no_check zero_slack
            false 1 (initial_mstate Core.empty_state) chunk_a
          = Ok state_after_chunk_a) as Heq by (vm_compute; reflexivity).
  split; [exact Heq|].
  exact (store_manifest_in_order example_hash no_trees no_text no_check
           zero_slack false 1 _ chunk_a _ Heq).
Defined.

(** The state after a second chunk that adds the line of [a] again and
    removes the old one. *)
Definition state_after_second_chunk : mstate :=
  match old_store_manifest example_hash no_trees no_text no_check zero_slack
          state_after_chunk_a
          (add_then_remove_a node_2 node_1 0%N node_1 hex_A) with
  | Ok ms => ms
  | _ => initial_mstate Core.empty_state
  end.

Lemma old_store_manifest_text_witness :
  let chunk := add_then_remove_a node_2 node_1 0%N node_1 hex_A in
  (reload_manifest no_trees no_text true state_after_chunk_a
     (Core.delta_node chunk) = Ok state_after_chunk_a /\
   old_store_manifest example_hash no_trees no_text no_check zero_slack
     state_after_chunk_a chunk = Ok state_after_second_chunk) /\
  let content := last_manifest_content state_after_chunk_a in
  Core.ranges_in_order (length content) 0 (Core.diffs chunk) /\
  Forall (fun d => line_boundary content (Core.diff_start d) /\
                   line_boundary content (Core.diff_end d))
    (Core.diffs chunk) /\
  last_manifest_content state_after_second_chunk
  = Core.replace_ranges content 0 (Core.diffs chunk) /\
  last_manifest_oid state_after_second_chunk = Core.node chunk.
Proof.
  intros chunk.
  assert (reload_manifest no_trees no_text true state_after_chunk_a
            (Core.delta_node chunk) = Ok state_after_chunk_a) as Hreload
    by (vm_compute; reflexivity).
  assert (old_store_manifest example_hash no_trees no_text no_check
            zero_slack state_after_chunk_a chunk
          = Ok state_after_second_chunk) as Hstore
    by (vm_compute; reflexivity).
  split; [exact (conj Hreload Hstore)|].
  exact (old_store_manifest_text example_hash no_trees no_text no_check
           zero_slack _ chunk _ _ Hreload Hstore).
Defined.

(** The tree of the single file [a], before and after [store_tree]. *)
Definition tree_a : tree_entry :=
  TreeEntry [] S_IFDIR 0%N (Some [entry_a oid_A]).

Definition stored_tree_a : Core.state * tree_entry :=
  match store_tree example_hash no_trees Core.empty_state tree_a with
  | Ok p => p
  | _ => (Core.empty_state, tree_a)
  end.

Definition state_after_commit_a : mstate :=
  match emit_commit example_hash no_trees no_check
          (initial_mstate Core.empty_state) chunk_a tree_a
          (line_of_a hex_A) with
  | Ok ms => ms
  | _ => initial_mstate Core.empty_state
  end.

Lemma emit_commit_read_back_witness :
  let ms := initial_mstate Core.empty_state in
  let ms' := state_after_commit_a in
  (store_tree example_hash no_trees (core ms) tree_a
   = Ok (stored_tree_a.1, stored_tree_a.2) /\
   emit_commit example_hash no_trees no_check ms chunk_a tree_a
     (line_of_a hex_A) = Ok ms' /\
   Core.objects stored_tree_a.1 !! b_oid (last_manifest ms') = None /\
   (te_oid stored_tree_a.2 < 2 ^ 160)%N /\
   is_null_oid (b_oid (last_manifest ms')) = false) /\
  branch_tree (last_manifest ms') = stored_tree_a.2 /\
  Core.get_note (Core.hg2git (core ms')) (Core.node chunk_a)
    = Some (b_oid (last_manifest ms')) /\
  parse_from_existing (core ms')
    {| b_oid := b_oid (last_manifest ms'); branch_tree := tree_a |}
  = Ok {| b_oid := b_oid (last_manifest ms');
          branch_tree := set_oid tree_a (te_oid stored_tree_a.2) |}.
Proof.
  intros ms ms'.
  assert (store_tree example_hash no_trees (core ms) tree_a
          = Ok (stored_tree_a.1, stored_tree_a.2)) as H1
    by (vm_compute; reflexivity).
  assert (emit_commit example_hash no_trees no_check ms chunk_a tree_a
            (line_of_a hex_A) = Ok ms') as H2 by (vm_compute; reflexivity).
  assert (Core.objects stored_tree_a.1 !! b_oid (last_manifest ms') = None)
    as H3 by (vm_compute; reflexivity).
  assert (te_oid stored_tree_a.2 < 2 ^ 160)%N as H4
    by (vm_compute; reflexivity).
  assert (is_null_oid (b_oid (last_manifest ms')) = false) as H5
    by (vm_compute; reflexivity).
  split; [exact (conj H1 (conj H2 (conj H3 (conj H4 H5))))|].
  exact (emit_commit_read_back example_hash no_trees no_check ms chunk_a
           tree_a (line_of_a hex_A) ms' _ _ tree_a H1 H2 H3 H4 H5).
Defined.

Lemma line_length_of_line_witness :
  (length hex_A = 40%nat /\ mode_of_attr "x" = Some MODE_EXEC) /\
  exists dirs f,
    tree_path (lit "dir/a") = dirs ++ [f] /\
    line_length (sum_list (length <$> dirs)) (TreeEntry f MODE_EXEC oid_A None)
    = length (lit "dir/a" ++ NUL :: (hex_A ++ attr_bytes "x" ++ [LF])).
Proof.
  split; [by split|].
  apply (line_length_of_line (lit "dir/a") hex_A "x" oid_A MODE_EXEC);
    reflexivity.
Defined.

End ManifestFacts.

(** ** The tree walk over a directory of files *)

Module WalkerFacts.
Import Manifest.

(** What [manifest_tree_advance] makes of a file entry it deletes. *)
Definition deleted (e : tree_entry) : tree_entry :=
  set_oid (set_mode e 0%N) 0%N.

Definition is_file (e : tree_entry) : Prop := S_ISDIR (te_mode e) = false.

(** The bytes of the manifest lines of the entries [fs] of one
    directory. *)
Definition lines_length (prefix_len : nat) (fs : list tree_entry) : nat :=
  sum_list (line_length prefix_len <$> fs).

(** The entries [i] to [i + k] of a directory marked as deleted. *)
Definition delete_range (i k : nat) (es : list tree_entry)
  : list tree_entry :=
  take i es ++ (deleted <$> take k (drop i es)) ++ drop (i + k) es.

(** The walker after [k] more file entries of the directory it is in:
    counted as remaining, or deleted. *)
Definition after_files (t : manifest_tree) (k : nat) (delete : bool)
  : manifest_tree :=
  let it := iter t in
  let i := next_entry it in
  {| root := root t; stack := stack t; prefix_len := prefix_len t;
     iter :=
       {| it_tree :=
            if delete then delete_range i k <$> it_tree it else it_tree it;
          next_entry := i + k;
          remaining_entry_count :=
            if delete then remaining_entry_count it
            else remaining_entry_count it + k;
          modified :=
            if delete then (if (k =? 0)%nat then modified it else true)
            else modified it |} |}.

(** The walker stopped inside the line of the entry it just read. *)
Definition inside_entry (t : manifest_tree) : manifest_tree :=
  let it := iter t in
  {| root := root t; stack := stack t; prefix_len := prefix_len t;
     iter := {| it_tree := it_tree it; next_entry := S (next_entry it);
                remaining_entry_count := remaining_entry_count it;
                modified := modified it |} |}.

Lemma line_length_pos p e : (0 < line_length p e)%nat.
Proof. unfold line_length. lia. Qed.

Lemma lines_length_cons p e fs :
  lines_length p (e :: fs) = (line_length p e + lines_length p fs)%nat.
Proof. done. Qed.

Lemma delete_range_0 i es : delete_range i 0 es = es.
Proof.
  unfold delete_range. rewrite Nat.add_0_r. cbn. apply take_drop.
Qed.

Lemma delete_range_1 i e es :
  es !! i = Some e -> delete_range i 1 es = <[i := deleted e]> es.
Proof.
  intros He. unfold delete_range.
  rewrite (drop_S _ _ _ He). cbn [take fmap list_fmap app].
  rewrite insert_take_drop by (by eapply lookup_lt_Some).
  by rewrite Nat.add_1_r.
Qed.

Lemma delete_range_S i k e es :
  es !! i = Some e ->
  delete_range (S i) k (delete_range i 1 es) = delete_range i (S k) es.
Proof.
  intros He. pose proof (lookup_lt_Some _ _ _ He) as Hlt.
  rewrite (delete_range_1 _ _ _ He).
  rewrite insert_take_drop by done.
  set (es1 := take i es ++ deleted e :: drop (S i) es).
  assert (Hes1 : es1 = (take i es ++ [deleted e]) ++ drop (S i) es).
  { subst es1. by rewrite <- (assoc_L (++)). }
  assert (Hlen : length (take i es ++ [deleted e]) = S i).
  { rewrite length_app, length_take. cbn. lia. }
  assert (Htake : take (S i) es1 = take i es ++ [deleted e]).
  { rewrite Hes1. by apply take_app_length'. }
  assert (Hdrop : drop (S i) es1 = drop (S i) es).
  { rewrite Hes1. by apply drop_app_length'. }
  unfold delete_range.
  rewrite <- (drop_drop es1), Htake, Hdrop, (drop_S _ _ _ He).
  cbn [take fmap list_fmap].
  rewrite drop_drop.
  replace (S i + k)%nat with (i + S k)%nat by lia.
  by rewrite <- !(assoc_L (++)).
Qed.

Lemma length_delete_range i k es :
  length (delete_range i k es) = length es.
Proof.
  unfold delete_range.
  rewrite !length_app, length_fmap, !length_take, !length_drop. lia.
Qed.

Lemma after_files_0 t delete : after_files t 0 delete = t.
Proof.
  destruct t as [r s p [tr n rem m]].
  unfold after_files. cbn [iter root stack prefix_len it_tree next_entry
    remaining_entry_count modified Nat.eqb].
  rewrite !Nat.add_0_r.
  destruct delete; [|done].
  destruct tr as [es|]; [|done]. cbn. by rewrite delete_range_0.
Qed.

Lemma after_files_S t es e k delete :
  it_tree (iter t) = Some es -> es !! next_entry (iter t) = Some e ->
  after_files (after_files t 1 delete) k delete = after_files t (S k) delete.
Proof.
  intros Hes He.
  destruct t as [r s p [tr n rem m]]. cbn in Hes, He. subst tr.
  unfold after_files. cbn [iter root stack prefix_len it_tree next_entry
    remaining_entry_count modified Nat.eqb].
  replace (n + 1 + k)%nat with (n + S k)%nat by lia.
  destruct delete.
  - cbn [fmap option_fmap option_map].
    rewrite Nat.add_1_r, (delete_range_S _ _ _ _ He).
    by destruct k.
  - by replace (rem + 1 + k)%nat with (rem + S k)%nat by lia.
Qed.

Section WithStore.

Variable read_tree : Core.state -> oid -> result (list tree_entry).

(** One file entry: the walker stops when the length ends inside the line
    of the entry, and goes on behind it otherwise. *)
Lemma manifest_tree_advance_file fuel st t es e len delete :
  it_tree (iter t) = Some es -> es !! next_entry (iter t) = Some e ->
  is_file e -> len <> 0%nat ->
  manifest_tree_advance read_tree (S fuel) st t len delete =
  if (len <? line_length (prefix_len t) e)%nat
  then Ok (false, inside_entry t)
  else manifest_tree_advance read_tree fuel st (after_files t 1 delete)
         (len - line_length (prefix_len t) e) delete.
Proof.
  intros Hes He Hfile Hlen.
  rewrite manifest_tree_advance_S by done.
  destruct t as [r s p [tr n rem m]]. cbn in Hes, He. subst tr.
  unfold tree_next_entry, inside_entry, after_files.
  cbn [iter root stack prefix_len it_tree next_entry
       remaining_entry_count modified].
  rewrite He.
  cbn [root stack prefix_len iter].
  rewrite Hfile.
  destruct (_ <? _)%nat; [done|].
  f_equal.
  unfold set_modified, set_current_entry, add_remaining.
  cbn [iter root stack prefix_len it_tree next_entry
       remaining_entry_count modified Nat.eqb Nat.pred].
  rewrite !Nat.add_1_r.
  destruct delete; [|done].
  cbn [fmap option_fmap option_map].
  by rewrite (delete_range_1 _ _ _ He).
Qed.

Lemma advance_files fuel st t es k delete :
  it_tree (iter t) = Some es ->
  let fs := take k (drop (next_entry (iter t)) es) in
  length fs = k -> Forall is_file fs -> (k <= fuel)%nat ->
  manifest_tree_advance read_tree fuel st t
    (lines_length (prefix_len t) fs) delete
  = Ok (true, after_files t k delete) /\
  (forall e r,
     es !! (next_entry (iter t) + k)%nat = Some e -> is_file e ->
     (0 < r < line_length (prefix_len t) e)%nat -> (k < fuel)%nat ->
     exists t',
       manifest_tree_advance read_tree fuel st t
         (lines_length (prefix_len t) fs + r) delete = Ok (false, t')).
Proof.
  revert fuel t es.
  induction k as [|k IH]; intros fuel t es Hes fs Hlen Hfiles Hfuel.
  - subst fs.
    change (take 0 (drop (next_entry (iter t)) es)) with (@nil tree_entry).
    change (lines_length (prefix_len t) []) with 0%nat.
    rewrite after_files_0. split; [apply manifest_tree_advance_0|].
    intros e r He Hfile Hr Hfuel'.
    destruct fuel as [|fuel]; [lia|].
    rewrite Nat.add_0_r in He. cbn [Nat.add].
    rewrite (manifest_tree_advance_file _ _ _ _ _ _ _ Hes He Hfile)
      by lia.
    destruct (Nat.ltb_spec r (line_length (prefix_len t) e)); [|lia].
    by eexists.
  - destruct fuel as [|fuel]; [lia|].
    destruct (es !! next_entry (iter t)) as [e|] eqn:He.
    2: { apply lookup_ge_None in He. subst fs.
         rewrite length_take, length_drop in Hlen. lia. }
    assert (Hfs : fs = e :: take k (drop (S (next_entry (iter t))) es)).
    { subst fs. by rewrite (drop_S _ _ _ He). }
    rewrite Hfs in *. clear fs Hfs.
    apply Forall_cons in Hfiles as [Hfile Hfiles].
    cbn [length] in Hlen. injection Hlen as Hlen.
    set (t1 := after_files t 1 delete).
    assert (Hp1 : prefix_len t1 = prefix_len t) by done.
    assert (Hn1 : next_entry (iter t1) = S (next_entry (iter t))).
    { cbn. lia. }
    assert (Hes1 : exists es1,
               it_tree (iter t1) = Some es1 /\
               drop (S (next_entry (iter t))) es1
               = drop (S (next_entry (iter t))) es).
    { subst t1. unfold after_files. cbn [iter it_tree]. rewrite Hes.
      destruct delete; [|by eexists].
      eexists; split; [done|].
      rewrite (delete_range_1 _ _ _ He).
      apply drop_insert_lt. lia. }
    destruct Hes1 as (es1 & Hes1 & Hdrop).
    destruct (IH fuel t1 es1 Hes1) as [IH1 IH2].
    { by rewrite Hn1, Hdrop. }
    { by rewrite Hn1, Hdrop. }
    { lia. }
    rewrite Hn1, Hdrop, Hp1 in IH1, IH2.
    rewrite lines_length_cons.
    set (rest := lines_length (prefix_len t)
                   (take k (drop (S (next_entry (iter t))) es))) in *.
    set (ll := line_length (prefix_len t) e) in *.
    pose proof (line_length_pos (prefix_len t) e) as Hpos. fold ll in Hpos.
    split.
    + rewrite (manifest_tree_advance_file _ _ _ _ _ _ _ Hes He Hfile)
        by lia.
      fold ll. destruct (Nat.ltb_spec (ll + rest) ll); [lia|].
      replace (ll + rest - ll)%nat with rest by lia.
      fold t1. rewrite IH1. subst t1.
      by rewrite (after_files_S _ _ _ _ _ Hes He).
    + intros e' r He' Hfile' Hr Hfuel'.
      rewrite (manifest_tree_advance_file _ _ _ _ _ _ _ Hes He Hfile)
        by lia.
      fold ll. destruct (Nat.ltb_spec (ll + rest + r) ll); [lia|].
      replace (ll + rest + r - ll)%nat with (rest + r)%nat by lia.
      fold t1.
      apply (IH2 e' r); [|done|done|lia].
      assert (Hlook : forall j, es1 !! (S (next_entry (iter t)) + j)%nat
                                = es !! (S (next_entry (iter t)) + j)%nat).
      { intros j. by rewrite <- !lookup_drop, Hdrop. }
      rewrite Hlook.
      by replace (S (next_entry (iter t)) + k)%nat
        with (next_entry (iter t) + S k)%nat by lia.
Qed.

(** X17: in a directory whose next [k] entries are files,
    [manifest_tree_advance] by the bytes of the manifest lines of these
    [k] entries returns 1 behind them: without [delete] they are counted
    as remaining and nothing else changes, with [delete] exactly these
    entries get mode 0 and a null oid and the directory is marked as
    modified. A length that ends inside the line of the next file makes
    it return 0. *)
Theorem manifest_tree_advance_files fuel st t es k delete :
  it_tree (iter t) = Some es ->
  let fs := take k (drop (next_entry (iter t)) es) in
  length fs = k -> Forall is_file fs -> (k <= fuel)%nat ->
  manifest_tree_advance read_tree fuel st t
    (lines_length (prefix_len t) fs) delete
  = Ok (true, after_files t k delete) /\
  (forall e r,
     es !! (next_entry (iter t) + k)%nat = Some e -> is_file e ->
     (0 < r < line_length (prefix_len t) e)%nat -> (k < fuel)%nat ->
     exists t',
       manifest_tree_advance read_tree fuel st t
         (lines_length (prefix_len t) fs + r) delete = Ok (false, t')).
Proof. apply advance_files. Qed.

(** X18: the first loop of the tree-walk strategy on a manifest without
    directories: a diff that starts behind the lines of the first [i]
    files and ends behind the lines of the next [k] deletes exactly these
    [k] entries, the loop goes on with the next diff from there, and
    [manifest_tree_finish] hands back the root with these entries
    deleted, its oid reset when there are any. A diff that ends inside
    the line of a file is rejected as a malformed chunk. *)
Theorem new_remove_files_one_diff fuel st r es i k d ds :
  te_tree r = Some es -> Forall is_file es ->
  (i + k <= length es)%nat -> (i <= fuel)%nat -> (k <= fuel)%nat ->
  Core.diff_start d = lines_length 0 (take i es) ->
  let lines := lines_length 0 (take k (drop i es)) in
  let t := after_files (after_files (manifest_tree_init r) i false) k true in
  (Core.diff_end d = (Core.diff_start d + lines)%nat ->
   new_remove_files read_tree fuel st (d :: ds) 0 (manifest_tree_init r)
   = new_remove_files read_tree fuel st ds (Core.diff_end d) t) /\
  manifest_tree_finish 0 t
  = Ok (let r' := set_tree r (Some (delete_range i k es)) in
        if (k =? 0)%nat then r' else set_oid r' 0%N) /\
  (forall e rest,
     es !! (i + k)%nat = Some e -> (0 < rest < line_length 0 e)%nat ->
     (k < fuel)%nat ->
     Core.diff_end d = (Core.diff_start d + lines + rest)%nat ->
     new_remove_files read_tree fuel st (d :: ds) 0 (manifest_tree_init r)
     = Die "Malformed manifest chunk").
Proof.
  intros Hes Hfiles Hik Hi Hk Hstart lines t.
  set (t0 := manifest_tree_init r) in *.
  assert (Hes0 : it_tree (iter t0) = Some es) by done.
  assert (Hn0 : next_entry (iter t0) = 0%nat) by done.
  assert (Hp0 : prefix_len t0 = 0%nat) by done.
  destruct (advance_files fuel st t0 es i false Hes0) as [Hskip _].
  { rewrite Hn0, length_take, length_drop. lia. }
  { rewrite Hn0. by apply Forall_take. }
  { done. }
  rewrite Hn0, Hp0 in Hskip. change (drop 0 es) with es in Hskip.
  set (t1 := after_files t0 i false) in *.
  assert (Hes1 : it_tree (iter t1) = Some es) by done.
  assert (Hn1 : next_entry (iter t1) = i) by done.
  assert (Hp1 : prefix_len t1 = 0%nat) by done.
  destruct (advance_files fuel st t1 es k true Hes1) as [Hdel Hinside].
  { rewrite Hn1, length_take, length_drop. lia. }
  { rewrite Hn1. by apply Forall_take, Forall_drop. }
  { done. }
  rewrite Hn1, Hp1 in Hdel, Hinside. fold lines in Hdel, Hinside.
  fold t in Hdel.
  assert (Hloop : forall end_, (Core.diff_start d <= end_)%nat ->
            Core.diff_end d = end_ ->
            new_remove_files read_tree fuel st (d :: ds) 0 t0
            = let* (ok, t) := manifest_tree_advance read_tree fuel st t1
                                (end_ - Core.diff_start d) true in
              if negb ok then Die "Malformed manifest chunk"
              else new_remove_files read_tree fuel st ds end_ t).
  { intros end_ Hle Hend. cbn [new_remove_files]. rewrite Hend.
    destruct (Nat.ltb_spec (Core.diff_start d) 0); [lia|].
    destruct (Nat.ltb_spec end_ (Core.diff_start d)); [lia|].
    cbn [orb]. rewrite Nat.sub_0_r, Hstart, Hskip. by cbn [and_then negb]. }
  split; [|split].
  - intros Hend.
    rewrite (Hloop (Core.diff_start d + lines)%nat); [|lia|done].
    replace (Core.diff_start d + lines - Core.diff_start d)%nat
      with lines by lia.
    rewrite Hdel. cbn [and_then negb]. by rewrite Hend.
  - subst t t1 t0. unfold after_files, manifest_tree_init, tree_start_iter.
    cbn [iter root stack prefix_len it_tree next_entry
         remaining_entry_count modified manifest_tree_finish].
    rewrite Hes.
    cbn [fmap option_fmap option_map manifest_tree_leave_dir stack iter
         root modified it_tree and_then].
    change (0 + i)%nat with i. by destruct k.
  - intros e rest He Hrest Hfuel Hend.
    rewrite (Hloop (Core.diff_start d + lines + rest)%nat); [|lia|done].
    replace (Core.diff_start d + lines + rest - Core.diff_start d)%nat
      with (lines + rest)%nat by lia.
    destruct (Hinside e rest He) as [t' Ht']; [|done|done|].
    { eapply Forall_lookup_1 in Hfiles; [exact Hfiles|exact He]. }
    rewrite Ht'. by cbn [and_then negb].
Qed.

End WithStore.

(** A manifest of the two files [a] and [b], as a loaded root. *)
Definition files_ab : list tree_entry :=
  [ TreeEntry (lit "_a") MODE_REGULAR oid_A None;
    TreeEntry (lit "_b") MODE_EXEC oid_A None ].

Definition root_ab : tree_entry :=
  TreeEntry [] S_IFDIR 0%N (Some files_ab).

Lemma files_ab_files : Forall is_file files_ab.
Proof. by repeat constructor. Qed.

Lemma manifest_tree_advance_files_witness :
  let t := manifest_tree_init root_ab in
  let fs := take 1 (drop (next_entry (iter t)) files_ab) in
  (it_tree (iter t) = Some files_ab /\ length fs = 1%nat /\
   Forall is_file fs /\ (1 <= 5)%nat) /\
  manifest_tree_advance no_trees 5 Core.empty_state t
    (lines_length (prefix_len t) fs) true
  = Ok (true, after_files t 1 true) /\
  (forall e r,
     files_ab !! (next_entry (iter t) + 1)%nat = Some e -> is_file e ->
     (0 < r < line_length (prefix_len t) e)%nat -> (1 < 5)%nat ->
     exists t',
       manifest_tree_advance no_trees 5 Core.empty_state t
         (lines_length (prefix_len t) fs + r) true = Ok (false, t')).
Proof.
  intros t fs.
  assert (Forall is_file fs) as Hfiles by (by repeat constructor).
  split; [repeat split; [exact Hfiles|lia]|].
  apply (manifest_tree_advance_files no_trees 5 Core.empty_state t
           files_ab 1 true); [reflexivity|reflexivity|exact Hfiles|lia].
Defined.

Lemma new_remove_files_one_diff_witness :
  let d := {| Core.diff_start := 43; Core.diff_end := 87;
              Core.diff_data := [] |} in
  let lines := lines_length 0 (take 1 (drop 1 files_ab)) in
  let t := after_files (after_files (manifest_tree_init root_ab) 1 false)
             1 true in
  (te_tree root_ab = Some files_ab /\ Forall is_file files_ab /\
   (1 + 1 <= length files_ab)%nat /\ (1 <= 5)%nat /\
   Core.diff_start d = lines_length 0 (take 1 files_ab)) /\
  (Core.diff_end d = (Core.diff_start d + lines)%nat ->
   new_remove_files no_trees 5 Core.empty_state [d] 0
     (manifest_tree_init root_ab)
   = new_remove_files no_trees 5 Core.empty_state [] (Core.diff_end d) t) /\
  manifest_tree_finish 0 t
  = Ok (let r' := set_tree root_ab (Some (delete_range 1 1 files_ab)) in
        if (1 =? 0)%nat then r' else set_oid r' 0%N) /\
  (forall e rest,
     files_ab !! (1 + 1)%nat = Some e -> (0 < rest < line_length 0 e)%nat ->
     (1 < 5)%nat ->
     Core.diff_end d = (Core.diff_start d + lines + rest)%nat ->
     new_remove_files no_trees 5 Core.empty_state [d] 0
       (manifest_tree_init root_ab)
     = Die "Malformed manifest chunk").
Proof.
  intros d lines t.
  split.
  { split; [reflexivity|]. split; [exact files_ab_files|].
    split; [cbn; lia|]. split; [lia|reflexivity]. }
  apply (new_remove_files_one_diff no_trees 5 Core.empty_state root_ab
           files_ab 1 1 d []);
    [reflexivity|exact files_ab_files|cbn; lia|lia|lia|reflexivity].
Defined.

End WalkerFacts.

(** ** The recent commands: [record_command] and [fill_command_buf] *)

Module Commands.

(** A pointer to a [struct recent_command]; [None] is [NULL]. The address
    of the static [cmd_hist], the head of the list, is 0; the entries of
    the pool of [init] have the addresses 1 to [cmd_save]. *)
Definition pointer := option nat.
Definition cmd_hist : nat := 0.

(** [struct recent_command]. *)
Record recent_command := {
  prev : pointer;
  next : pointer;
  buf : option (list ascii)
}.

Definition set_prev (n : recent_command) (p : pointer) : recent_command :=
  {| prev := p; next := next n; buf := buf n |}.
Definition set_next (n : recent_command) (p : pointer) : recent_command :=
  {| prev := prev n; next := p; buf := buf n |}.
Definition set_buf (n : recent_command) (b : option (list ascii))
  : recent_command :=
  {| prev := prev n; next := next n; buf := b |}.

(** The memory of the entries, and the statics [cmd_tail] and
    [rc_free]. *)
Record state := {
  heap : gmap nat recent_command;
  cmd_tail : pointer;
  rc_free : pointer
}.

(** [*p]; a null or wild pointer is undefined behaviour. *)
Definition load (h : gmap nat recent_command) (p : pointer)
  : result recent_command :=
  match p with
  | None => Undefined
  | Some a => match h !! a with Some n => Ok n | None => Undefined end
  end.

(** An assignment to a field of [*p]. *)
Definition store (h : gmap nat recent_command) (p : pointer)
  (f : recent_command -> recent_command)
  : result (gmap nat recent_command) :=
  let* n := load h p in
  match p with
  | Some a => Ok (<[a := f n]> h)
  | None => Undefined
  end.

(** The entries of the pool, as [init] links them: each to the next, the
    last to [NULL]; [prev] and [buf] are not set. *)
Definition pool (cmd_save : nat) : list (nat * recent_command) :=
  (fun i => (S i, {| prev := None;
                     next := if (S i <? cmd_save)%nat then Some (S (S i))
                             else None;
                     buf := None |})) <$> seq 0 cmd_save.

(** The statics as fast-import.c declares them, and the pool of
    [init]. *)
Definition init (cmd_save : nat) : state :=
  {| heap := list_to_map
       ((cmd_hist, {| prev := Some cmd_hist; next := Some cmd_hist;
                      buf := None |}) :: pool cmd_save);
     cmd_tail := Some cmd_hist;
     rc_free := Some 1%nat |}.

(** [record_command(buf)]; [b] holds the [buf->len] bytes of the
    buffer. *)
Definition record_command (st : state) (b : list ascii) : result state :=
  let h := heap st in
  let* (rc, h, free) :=
    match rc_free st with
    | Some _ =>
      let* n := load h (rc_free st) in
      Ok (rc_free st, h, next n)
    | None =>
      let* hist := load h (Some cmd_hist) in
      let rc := next hist in
      let* n := load h rc in
      let* h := store h (Some cmd_hist) (fun x => set_next x (next n)) in
      let* hist := load h (Some cmd_hist) in
      let* h := store h (next hist) (fun x => set_prev x (Some cmd_hist)) in
      Ok (rc, h, None)
    end in
  let* h := store h rc (fun x => set_buf x (Some (c_string b))) in
  let* h := store h rc (fun x => set_prev x (cmd_tail st)) in
  let* hist := load h (Some cmd_hist) in
  let* h := store h rc (fun x => set_next x (prev hist)) in
  let* n := load h rc in
  let* h := store h (prev n) (fun x => set_next x rc) in
  Ok {| heap := h; cmd_tail := rc; rc_free := free |}.

(** [fill_command_buf]: what [command_buf] holds afterwards. *)
Definition fill_command_buf (st : state) : result (list ascii) :=
  let* n := load (heap st) (cmd_tail st) in
  match buf n with
  | Some b => Ok b
  | None => Undefined
  end.

(** The commands of a run, recorded one after the other. *)
Fixpoint record_commands (st : state) (cs : list (list ascii))
  : result state :=
  match cs with
  | [] => Ok st
  | c :: cs => let* st := record_command st c in record_commands st cs
  end.

(** The list a reader walks from [cmd_hist.next] along [next] until it
    is back at [cmd_hist], as the crash report of fast-import.c does; at
    most [fuel] entries. *)
Fixpoint commands_from (fuel : nat) (h : gmap nat recent_command)
  (p : pointer) : option (list (list ascii)) :=
  match p with
  | None => None
  | Some a =>
    if (a =? cmd_hist)%nat then Some []
    else
      match fuel with
      | O => None
      | S fuel =>
        n ← h !! a; b ← buf n; rest ← commands_from fuel h (next n);
        Some (b :: rest)
      end
  end.

Definition recent_commands (fuel : nat) (st : state)
  : option (list (list ascii)) :=
  n ← heap st !! cmd_hist; commands_from fuel (heap st) (next n).

(** *** The list behind the pointers *)

Definition links_to (h : gmap nat recent_command) (a : nat) (p : pointer)
  : Prop :=
  exists n, h !! a = Some n /\ next n = p.

Definition holds (h : gmap nat recent_command) (a : nat) (b : list ascii)
  : Prop :=
  exists n, h !! a = Some n /\ buf n = Some b.

(** From the entry at [p], [next] leads through the entries of [hist],
    each with its command, and back to [cmd_hist]. *)
Fixpoint linked (h : gmap nat recent_command) (p : nat)
  (hist : list (nat * list ascii)) : Prop :=
  match hist with
  | [] => links_to h p (Some cmd_hist)
  | (a, b) :: hist' => links_to h p (Some a) /\ holds h a b /\ linked h a hist'
  end.

(** From the pointer [p], [next] leads through the entries [free] to
    [NULL]. *)
Fixpoint free_chain (h : gmap nat recent_command) (p : pointer)
  (free : list nat) : Prop :=
  match free with
  | [] => p = None
  | a :: free' =>
    p = Some a /\ exists n, h !! a = Some n /\ free_chain h (next n) free'
  end.

(** What [record_command] keeps: the entries in use are those of [hist],
    oldest first, the unused ones those of [free]. *)
Record invariant (cmd_save : nat) (st : state)
  (hist : list (nat * list ascii)) (free : list nat) : Prop := {
  inv_nodup : NoDup (cmd_hist :: hist.*1 ++ free);
  inv_head : exists n, heap st !! cmd_hist = Some n /\ prev n = Some cmd_hist;
  inv_linked : linked (heap st) cmd_hist hist;
  inv_tail : cmd_tail st = Some (default cmd_hist (last hist.*1));
  inv_free : free_chain (heap st) (rc_free st) free;
  inv_total : (length hist + length free = cmd_save)%nat
}.

Lemma links_to_agree h h' a p :
  next <$> (h' !! a) = next <$> (h !! a) -> links_to h a p -> links_to h' a p.
Proof.
  intros Heq (n & Hn & Hp). rewrite Hn in Heq. cbn in Heq.
  apply fmap_Some in Heq as (n' & Hn' & Hnext).
  exists n'. split; [done|]. congruence.
Qed.

Lemma holds_agree h h' a b :
  buf <$> (h' !! a) = buf <$> (h !! a) -> holds h a b -> holds h' a b.
Proof.
  intros Heq (n & Hn & Hb). rewrite Hn in Heq. cbn in Heq.
  apply fmap_Some in Heq as (n' & Hn' & Hbuf).
  exists n'. split; [done|]. congruence.
Qed.

Lemma linked_snoc h h' rc c : forall hist p,
  NoDup (p :: hist.*1) ->
  linked h p hist ->
  (forall a, a ∈ hist.*1 -> buf <$> (h' !! a) = buf <$> (h !! a)) ->
  (forall a, a ∈ p :: hist.*1 -> a <> default p (last hist.*1) ->
             next <$> (h' !! a) = next <$> (h !! a)) ->
  links_to h' (default p (last hist.*1)) (Some rc) ->
  holds h' rc c -> links_to h' rc (Some cmd_hist) ->
  linked h' p (hist ++ [(rc, c)]).
Proof.
  induction hist as [|[a b] hist IH]; intros p Hnodup Hlinked Hbuf Hnext
    Hlast Hrc Hend.
  - cbn in *. done.
  - cbn [fmap list_fmap fst] in *. cbn [linked app] in *.
    destruct Hlinked as (Hp & Ha & Hlinked).
    assert (Hl : default p (last (a :: hist.*1))
                 = default a (last hist.*1)).
    { rewrite last_cons. by destruct (last hist.*1). }
    rewrite Hl in *.
    apply NoDup_cons in Hnodup as [Hp_notin Hnodup].
    assert (Hin : default a (last hist.*1) ∈ a :: hist.*1).
    { destruct (last hist.*1) as [x|] eqn:Hx; cbn.
      - right. by apply last_Some_elem_of.
      - left. }
    split; [|split].
    + eapply links_to_agree; [|done].
      apply Hnext; [left|]. intros ->. done.
    + eapply holds_agree; [|done]. apply Hbuf. left.
    + apply IH; try done.
      * intros x Hx. apply Hbuf. by right.
      * intros x Hx Hne. apply Hnext; [by right|done].
Qed.

Lemma linked_last h : forall hist p a b,
  linked h p hist -> last hist = Some (a, b) -> holds h a b.
Proof.
  induction hist as [|[a0 b0] hist IH]; intros p a b Hlinked Hlast; [done|].
  cbn [linked] in Hlinked. destruct Hlinked as (_ & Ha & Hlinked).
  rewrite last_cons in Hlast.
  destruct (last hist) as [x|] eqn:Hx.
  - injection Hlast as ->. by eapply IH.
  - by injection Hlast as <- <-.
Qed.

Lemma commands_from_linked h : forall hist p fuel,
  linked h p hist -> cmd_hist ∉ hist.*1 -> (length hist <= fuel)%nat ->
  exists n, h !! p = Some n /\ commands_from fuel h (next n) = Some hist.*2.
Proof.
  induction hist as [|[a b] hist IH]; intros p fuel Hlinked Hnot Hfuel.
  - destruct Hlinked as (n & Hn & Hnext). exists n. split; [done|].
    rewrite Hnext. by destruct fuel.
  - cbn [linked] in Hlinked.
    destruct Hlinked as ((n & Hn & Hnext) & (na & Hna & Hbuf) & Hlinked).
    cbn [fmap list_fmap fst] in Hnot.
    apply not_elem_of_cons in Hnot as [Hne Hnot].
    destruct fuel as [|fuel]; [cbn in Hfuel; lia|].
    cbn [length] in Hfuel.
    destruct (IH a fuel Hlinked Hnot ltac:(lia)) as (na' & Hna' & Hrest).
    assert (na' = na) as -> by congruence.
    exists n. split; [done|]. rewrite Hnext. cbn [commands_from].
    destruct (Nat.eqb_spec a cmd_hist) as [->|_]; [done|].
    rewrite Hna. cbn. rewrite Hbuf. cbn. by rewrite Hrest.
Qed.

Lemma free_chain_agree h h' : forall free p,
  (forall a, a ∈ free -> h' !! a = h !! a) ->
  free_chain h p free -> free_chain h' p free.
Proof.
  induction free as [|a free IH]; intros p Hagree Hchain; [done|].
  destruct Hchain as (-> & n & Hn & Hchain). split; [done|].
  exists n. split.
  - rewrite Hagree; [done|left].
  - apply IH; [|done]. intros x Hx. apply Hagree. by right.
Qed.

(** *** One call *)

Lemma load_Some h a n : h !! a = Some n -> load h (Some a) = Ok n.
Proof. intros Hn. cbn. by rewrite Hn. Qed.

Lemma store_Some h a f n :
  h !! a = Some n -> store h (Some a) f = Ok (<[a := f n]> h).
Proof. intros Hn. unfold store. by rewrite (load_Some _ _ _ Hn). Qed.

Ltac heap_step :=
  first [ erewrite load_Some by (simplify_map_eq; reflexivity)
        | erewrite store_Some by (simplify_map_eq; reflexivity) ];
  cbn [and_then set_next set_prev set_buf prev next buf].

(** With an unused entry left. *)
Lemma record_command_free st b rc n hd l nl :
  rc_free st = Some rc -> heap st !! rc = Some n ->
  heap st !! cmd_hist = Some hd -> cmd_tail st = Some l ->
  heap st !! l = Some nl -> rc <> cmd_hist -> rc <> l ->
  record_command st b
  = Ok {| heap := <[l := set_next nl (Some rc)]>
                    (<[rc := {| prev := Some l; next := prev hd;
                                buf := Some (c_string b) |}]> (heap st));
          cmd_tail := Some rc; rc_free := next n |}.
Proof.
  intros Hfree Hn Hhd Htail Hnl Hrc Hl.
  unfold record_command. rewrite Hfree, Htail.
  do 7 heap_step.
  by rewrite !insert_insert_eq.
Qed.

(** With every entry in use: the oldest one is taken. *)
Lemma record_command_recycle st b rc n hd a2 n2 l nl :
  rc_free st = None -> heap st !! cmd_hist = Some hd -> next hd = Some rc ->
  heap st !! rc = Some n -> next n = Some a2 -> heap st !! a2 = Some n2 ->
  cmd_tail st = Some l -> heap st !! l = Some nl ->
  rc <> cmd_hist -> a2 <> cmd_hist -> a2 <> rc -> l <> rc -> l <> cmd_hist ->
  record_command st b
  = Ok {| heap :=
            <[l := set_next (if decide (l = a2)
                             then set_prev n2 (Some cmd_hist) else nl)
                     (Some rc)]>
              (<[rc := {| prev := Some l; next := prev hd;
                          buf := Some (c_string b) |}]>
                 (<[a2 := set_prev n2 (Some cmd_hist)]>
                    (<[cmd_hist := set_next hd (Some a2)]> (heap st))));
          cmd_tail := Some rc; rc_free := None |}.
Proof.
  intros Hfree Hhd Hnext Hn Hnext2 Hn2 Htail Hnl Hrc Ha2 Ha2rc Hl Hl0.
  unfold record_command. rewrite Hfree, Htail.
  heap_step. rewrite Hnext. heap_step. rewrite Hnext2.
  do 8 heap_step.
  rewrite !insert_insert_eq.
  destruct (decide (l = a2)) as [->|Hla].
  - by heap_step.
  - by heap_step.
Qed.

Lemma default_last_elem_of (p : nat) (l : list nat) :
  default p (last l) ∈ p :: l.
Proof.
  destruct (last l) as [x|] eqn:Hx; cbn; [|left].
  right. by apply last_Some_elem_of.
Qed.

Lemma linked_node h : forall hist p a,
  linked h p hist -> a ∈ p :: hist.*1 -> is_Some (h !! a).
Proof.
  induction hist as [|[a0 b0] hist IH]; intros p a Hlinked Ha.
  - apply list_elem_of_singleton in Ha as ->.
    destruct Hlinked as (n & -> & _). by eexists.
  - destruct Hlinked as ((n & Hn & _) & _ & Hlinked).
    apply elem_of_cons in Ha as [->|Ha]; [by eexists|].
    by eapply IH.
Qed.

Lemma record_command_keeps_free cmd_save st hist rc free b :
  invariant cmd_save st hist (rc :: free) ->
  exists st',
    record_command st b = Ok st' /\
    invariant cmd_save st' (hist ++ [(rc, c_string b)]) free.
Proof.
  intros [Hnodup (hd & Hhd & Hprev) Hlinked Htail Hfree Htotal].
  destruct Hfree as (Hrc & n & Hn & Hfree).
  set (l := default cmd_hist (last hist.*1)) in *.
  pose proof (default_last_elem_of cmd_hist hist.*1) as Hl. fold l in Hl.
  destruct (linked_node _ _ _ l Hlinked Hl) as [nl Hnl].
  apply NoDup_cons in Hnodup as [H0 Hnodup].
  apply NoDup_app in Hnodup as (Hhist & Hdisjoint & Hnodup_free).
  apply NoDup_cons in Hnodup_free as [Hrc_free Hnodup_free].
  assert (Hrc0 : rc <> cmd_hist).
  { intros ->. apply H0, elem_of_app. right. left. }
  assert (Hrc_hist : rc ∉ hist.*1).
  { intros Hin. eapply Hdisjoint; [done|left]. }
  assert (Hrcl : rc <> l).
  { intros ->. apply elem_of_cons in Hl as [?|?]; done. }
  eexists. split.
  { by eapply record_command_free. }
  assert (Hl_free : forall a, a ∈ free -> a <> l /\ a <> rc).
  { intros a Ha. split; [|by intros ->].
    intros ->. apply elem_of_cons in Hl as [Heq|Hin].
    - apply H0, elem_of_app. right. right. by rewrite <- Heq.
    - eapply Hdisjoint; [done|by right]. }
  split; cbn [heap cmd_tail rc_free].
  - rewrite fmap_app, <- (assoc_L (++)).
    apply NoDup_cons. split; [done|].
    apply NoDup_app. split; [done|]. split; [done|].
    by apply NoDup_cons.
  - destruct (decide (l = cmd_hist)) as [Heq|Hne].
    + rewrite Heq in *. rewrite lookup_insert_eq.
      assert (nl = hd) as -> by congruence. by eexists.
    + rewrite lookup_insert_ne by done. rewrite lookup_insert_ne by done.
      by eexists.
  - apply (linked_snoc (heap st)); try done.
    + apply NoDup_cons. split; [|done].
      intros Hin. apply H0, elem_of_app. by left.
    + intros a Ha. destruct (decide (a = l)) as [->|Hne].
      * rewrite lookup_insert_eq, Hnl. reflexivity.
      * rewrite lookup_insert_ne by done.
        rewrite lookup_insert_ne; [done|]. by intros ->.
    + intros a Ha Hne. fold l in Hne.
      rewrite lookup_insert_ne by done.
      rewrite lookup_insert_ne; [done|].
      intros ->. apply elem_of_cons in Ha as [?|?]; done.
    + fold l. eexists. by rewrite lookup_insert_eq.
    + eexists. rewrite lookup_insert_ne by done.
      by rewrite lookup_insert_eq.
    + eexists. rewrite lookup_insert_ne by done.
      by rewrite lookup_insert_eq.
  - rewrite fmap_app.
    change ([(rc, c_string b)].*1) with [rc]. by rewrite last_snoc.
  - apply (free_chain_agree (heap st)); [|done].
    intros a Ha. destruct (Hl_free a Ha).
    rewrite lookup_insert_ne by done. by rewrite lookup_insert_ne.
  - rewrite length_app. cbn in *. lia.
Qed.

Lemma record_command_keeps_recycle cmd_save st hist b :
  (2 <= cmd_save)%nat ->
  invariant cmd_save st hist [] ->
  exists st' rc b0 hist',
    hist = (rc, b0) :: hist' /\
    record_command st b = Ok st' /\
    invariant cmd_save st' (hist' ++ [(rc, c_string b)]) [].
Proof.
  intros Hsave [Hnodup (hd & Hhd & Hprev) Hlinked Htail Hfree Htotal].
  cbn in Hfree, Htotal. rewrite Nat.add_0_r in Htotal.
  destruct hist as [|[rc b0] [|[a2 b2] hist]]; cbn in Htotal; try lia.
  cbn [linked] in Hlinked.
  destruct Hlinked as ((hd' & Hhd' & Hnext) & (n & Hn & Hb0) &
                       (n' & Hn' & Hnext2) & (n2 & Hn2 & Hb2) & Hlinked).
  assert (hd' = hd) as -> by congruence.
  assert (n' = n) as -> by congruence.
  rewrite app_nil_r in Hnodup. cbn [fmap list_fmap fst] in Hnodup, Htail.
  assert (Hlast : default cmd_hist (last (rc :: a2 :: hist.*1))
                  = default a2 (last hist.*1)).
  { rewrite !last_cons. by destruct (last hist.*1). }
  rewrite Hlast in Htail.
  set (l := default a2 (last hist.*1)) in *.
  pose proof (default_last_elem_of a2 hist.*1) as Hl. fold l in Hl.
  destruct (linked_node _ _ _ l Hlinked Hl) as [nl Hnl].
  apply NoDup_cons in Hnodup as [H0 Hnodup].
  apply NoDup_cons in Hnodup as [Hrc Hnodup].
  assert (Hrc0 : rc <> cmd_hist) by (intros ->; apply H0; left).
  assert (Ha20 : a2 <> cmd_hist) by (intros ->; apply H0; right; left).
  assert (Ha2rc : a2 <> rc) by (intros ->; apply Hrc; left).
  assert (Hlrc : l <> rc) by (by intros ->).
  assert (Hl0 : l <> cmd_hist) by (intros Heq; apply H0; right; by rewrite <- Heq).
  eexists _, rc, b0, _. split; [done|]. split.
  { by eapply (record_command_recycle st b rc n hd a2 n2 l nl). }
  assert (Hhist : forall a, a ∈ hist.*1 ->
            a <> cmd_hist /\ a <> rc /\ a <> a2).
  { intros a Ha. split; [|split]; intros ->.
    - apply H0. right. by right.
    - apply Hrc. by right.
    - by apply NoDup_cons in Hnodup as [? _]. }
  split; cbn [heap cmd_tail rc_free].
  - rewrite app_nil_r, fmap_app. cbn [fmap list_fmap fst].
    apply NoDup_cons. split.
    + intros Hin. apply elem_of_app in Hin as [Hin|Hin].
      * apply H0. by right.
      * apply list_elem_of_singleton in Hin. done.
    + rewrite <- Permutation_cons_append. by apply NoDup_cons.
  - do 3 (rewrite lookup_insert_ne by done).
    rewrite lookup_insert_eq. by eexists.
  - cbn [app linked]. split; [|split].
    + unfold links_to. do 3 (rewrite lookup_insert_ne by done).
      eexists. by rewrite lookup_insert_eq.
    + unfold holds. destruct (decide (l = a2)) as [Heq|Hne].
      * rewrite Heq. eexists. by rewrite lookup_insert_eq.
      * rewrite lookup_insert_ne by done.
        rewrite lookup_insert_ne by done.
        eexists. by rewrite lookup_insert_eq.
    + apply (linked_snoc (heap st)); try done.
      * intros a Ha. destruct (Hhist a Ha) as (? & ? & ?).
        destruct (decide (a = l)) as [->|Hne].
        -- rewrite lookup_insert_eq, Hnl.
           destruct (decide (l = a2)); [done|reflexivity].
        -- by do 4 (rewrite lookup_insert_ne by done).
      * intros a Ha Hne. fold l in Hne.
        rewrite lookup_insert_ne by done.
        apply elem_of_cons in Ha as [->|Ha].
        -- rewrite lookup_insert_ne by done.
           rewrite lookup_insert_eq, Hn2. reflexivity.
        -- destruct (Hhist a Ha) as (? & ? & ?).
           by do 3 (rewrite lookup_insert_ne by done).
      * fold l. eexists. by rewrite lookup_insert_eq.
      * eexists. rewrite lookup_insert_ne by done.
        by rewrite lookup_insert_eq.
      * eexists. rewrite lookup_insert_ne by done.
        by rewrite lookup_insert_eq.
  - change (((a2, b2) :: hist) ++ [(rc, c_string b)])
      with (((a2, b2) :: hist) ++ [(rc, c_string b)]).
    rewrite fmap_app.
    change ([(rc, c_string b)].*1) with [rc]. by rewrite last_snoc.
  - done.
  - rewrite length_app. cbn in *. lia.
Qed.

(** *** From [init] on *)

Lemma pool_keys cmd_save : (pool cmd_save).*1 = seq 1 cmd_save.
Proof.
  unfold pool. rewrite <- list_fmap_compose.
  rewrite <- fmap_S_seq. by apply list_fmap_ext.
Qed.

Lemma pool_lookup cmd_save i :
  (i < cmd_save)%nat ->
  heap (init cmd_save) !! S i
  = Some {| prev := None;
            next := if (S i <? cmd_save)%nat then Some (S (S i)) else None;
            buf := None |}.
Proof.
  intros Hi. unfold init. cbn [heap]. rewrite list_to_map_cons.
  rewrite lookup_insert_ne by done.
  apply elem_of_list_to_map_1.
  - rewrite pool_keys. apply NoDup_seq.
  - unfold pool. apply list_elem_of_fmap. exists i. split; [done|].
    apply elem_of_seq. lia.
Qed.

Lemma init_free_chain cmd_save : forall k i,
  (i + k = cmd_save)%nat ->
  free_chain (heap (init cmd_save))
    (if (i <? cmd_save)%nat then Some (S i) else None) (seq (S i) k).
Proof.
  induction k as [|k IH]; intros i Hik.
  - cbn [seq free_chain]. destruct (Nat.ltb_spec i cmd_save); [lia|done].
  - cbn [seq free_chain].
    destruct (Nat.ltb_spec i cmd_save); [|lia].
    split; [done|]. eexists. split; [by apply pool_lookup|].
    cbn [next]. apply IH. lia.
Qed.

Lemma init_invariant cmd_save :
  (0 < cmd_save)%nat ->
  invariant cmd_save (init cmd_save) [] (seq 1 cmd_save).
Proof.
  intros Hsave. split.
  - apply (NoDup_seq 0 (S cmd_save)).
  - unfold init. cbn [heap]. rewrite list_to_map_cons, lookup_insert_eq.
    by eexists.
  - unfold init. cbn [heap linked]. unfold links_to.
    rewrite list_to_map_cons, lookup_insert_eq. by eexists.
  - done.
  - pose proof (init_free_chain cmd_save cmd_save 0 ltac:(lia)) as Hchain.
    destruct (Nat.ltb_spec 0 cmd_save); [done|lia].
  - cbn. by rewrite length_seq.
Qed.

Lemma record_commands_keep cmd_save :
  (2 <= cmd_save)%nat ->
  forall cs st hist free,
    invariant cmd_save st hist free ->
    exists st' hist' free',
      record_commands st cs = Ok st' /\
      invariant cmd_save st' hist' free' /\
      hist'.*2 = drop (length hist + length cs - cmd_save)
                   (hist.*2 ++ (c_string <$> cs)).
Proof.
  intros Hsave. induction cs as [|c cs IH]; intros st hist free Hinv.
  - exists st, hist, free. split; [done|]. split; [done|].
    pose proof (inv_total _ _ _ _ Hinv). cbn [length fmap list_fmap].
    replace (length hist + 0 - cmd_save)%nat with 0%nat by lia.
    by rewrite app_nil_r.
  - cbn [record_commands length fmap list_fmap].
    pose proof (inv_total _ _ _ _ Hinv) as Htotal.
    destruct free as [|rc free].
    + destruct (record_command_keeps_recycle _ _ _ c Hsave Hinv)
        as (st1 & rc & b0 & hist1 & -> & Hrec & Hinv1).
      rewrite Hrec. cbn [and_then].
      destruct (IH _ _ _ Hinv1) as (st' & hist' & free' & Hrun & Hinv' & Heq).
      exists st', hist', free'. split; [done|]. split; [done|].
      rewrite Heq, fmap_app, <- (assoc_L (++)).
      rewrite length_app. cbn [length] in *. rewrite Nat.add_0_r in Htotal.
      cbn [fmap list_fmap snd app].
      replace (S (length hist1) + S (length cs) - cmd_save)%nat
        with (S (length hist1 + 1 + length cs - cmd_save)) by lia.
      done.
    + destruct (record_command_keeps_free _ _ _ _ _ c Hinv)
        as (st1 & Hrec & Hinv1).
      rewrite Hrec. cbn [and_then].
      destruct (IH _ _ _ Hinv1) as (st' & hist' & free' & Hrun & Hinv' & Heq).
      exists st', hist', free'. split; [done|]. split; [done|].
      rewrite Heq, fmap_app, <- (assoc_L (++)).
      rewrite length_app. cbn [length fmap list_fmap snd app].
      by replace (length hist + 1 + length cs)%nat
        with (length hist + S (length cs))%nat by lia.
Qed.

(** X19: the list of recent commands. From [init] on, with room for at
    least two entries, every [record_command] succeeds; a reader that
    follows [next] from [cmd_hist] finds the last [cmd_save] commands,
    oldest first, each cut at its first NUL; and [fill_command_buf]
    gives back the command recorded last. *)
Theorem record_command_history (cmd_save : nat) (cs : list (list ascii)) :
  (2 <= cmd_save)%nat ->
  exists st,
    record_commands (init cmd_save) cs = Ok st /\
    recent_commands cmd_save st
    = Some (drop (length cs - cmd_save) (c_string <$> cs)) /\
    (forall c, last cs = Some c -> fill_command_buf st = Ok (c_string c)).
Proof.
  intros Hsave.
  destruct (record_commands_keep cmd_save Hsave cs _ _ _
              (init_invariant cmd_save ltac:(lia)))
    as (st & hist & free & Hrun & Hinv & Heq).
  cbn [length fmap list_fmap app Nat.add] in Heq.
  exists st. split; [done|].
  destruct Hinv as [Hnodup _ Hlinked Htail _ Htotal].
  apply NoDup_cons in Hnodup as [H0 _].
  split.
  - unfold recent_commands.
    destruct (commands_from_linked _ _ cmd_hist cmd_save Hlinked)
      as (n & Hn & Hwalk).
    { intros Hin. apply H0, elem_of_app. by left. }
    { lia. }
    rewrite Hn. cbn. by rewrite Hwalk, Heq.
  - intros c Hlast.
    assert (Hcs : (0 < length cs)%nat).
    { destruct cs; [done|cbn; lia]. }
    assert (Hlast' : last hist.*2 = Some (c_string c)).
    { rewrite Heq, last_lookup, lookup_drop, length_drop, length_fmap.
      replace (length cs - cmd_save + pred (length cs - (length cs - cmd_save)))%nat
        with (pred (length (c_string <$> cs))) by (rewrite length_fmap; lia).
      by rewrite <- last_lookup, fmap_last, Hlast. }
    rewrite fmap_last in Hlast'.
    destruct (last hist) as [[a b]|] eqn:Hhist; [|done].
    cbn in Hlast'. injection Hlast' as ->.
    destruct (linked_last _ _ _ _ _ Hlinked Hhist) as (n & Hn & Hbuf).
    unfold fill_command_buf. rewrite Htail, fmap_last, Hhist. cbn.
    rewrite Hn. cbn [and_then]. by rewrite Hbuf.
Qed.

Lemma record_command_history_witness :
  (2 <= 2)%nat /\
  exists st,
    record_commands (init 2) [lit "blob"; lit "commit x"; lit "done"] = Ok st /\
    recent_commands 2 st
    = Some (drop (3 - 2) (c_string <$> [lit "blob"; lit "commit x"; lit "done"])) /\
    (forall c, last [lit "blob"; lit "commit x"; lit "done"] = Some c ->
               fill_command_buf st = Ok (c_string c)).
Proof.
  split; [lia|].
  apply (record_command_history 2 [lit "blob"; lit "commit x"; lit "done"]).
  lia.
Defined.

End Commands.
